(** * A shallow embedding of the renderer's core: ray tracer, BVH, tile
      scheduler, adaptive quality, blend shapes, scene graph, shadow shader.

    Numeric conventions.  C++ [int] is modelled by [Z] (every value that
    occurs stays far below 2^31; the one mixed signed/unsigned comparison
    of the source is written out).  C++ [float] on the rasteriser side is
    modelled by exact rationals [Q].  C++ [double] in the ray tracer is
    modelled by exact rationals extended with the IEEE-754 special values
    (infinities and NaN), because the ray tracer relies on them
    ([rt_infinity], division by a zero direction component in the slab
    test).  Rounding, overflow and the sign of zero are not modelled. *)

From Stdlib Require Import ZArith QArith Qabs Lia Lqa List String Bool.
From stdpp Require Import gmap strings list pretty.

#[local] Unset Default Proof Using.
#[local] Open Scope Z_scope.

(* ====================================================================== *)
(** * IEEE-style doubles over exact rationals *)
(* ====================================================================== *)

Module Numerics.

Inductive double : Type :=
| Fin (q : Q)
| PInf
| NInf
| NaN.

Definition Qltb (a b : Q) : bool := negb (Qle_bool b a).
Definition Qsgn (a : Q) : Z := Z.sgn (Qnum a).

Definition d0 : double := Fin 0%Q.
Definition d1 : double := Fin 1%Q.

Definition is_fin (a : double) : bool :=
  match a with Fin _ => true | _ => false end.

Definition dneg (a : double) : double :=
  match a with
  | Fin q => Fin (- q)%Q
  | PInf => NInf
  | NInf => PInf
  | NaN => NaN
  end.

Definition dadd (a b : double) : double :=
  match a, b with
  | NaN, _ | _, NaN => NaN
  | Fin x, Fin y => Fin (x + y)%Q
  | PInf, NInf | NInf, PInf => NaN
  | PInf, _ | _, PInf => PInf
  | NInf, _ | _, NInf => NInf
  end.

Definition dsub (a b : double) : double := dadd a (dneg b).

(** An infinity of sign [pos] scaled by a factor of sign [s]. *)
Definition inf_signed (pos : bool) (s : Z) : double :=
  match s with
  | 0 => NaN
  | Zpos _ => if pos then PInf else NInf
  | Zneg _ => if pos then NInf else PInf
  end.

Definition dmul (a b : double) : double :=
  match a, b with
  | NaN, _ | _, NaN => NaN
  | Fin x, Fin y => Fin (x * y)%Q
  | PInf, Fin y => inf_signed true (Qsgn y)
  | NInf, Fin y => inf_signed false (Qsgn y)
  | Fin x, PInf => inf_signed true (Qsgn x)
  | Fin x, NInf => inf_signed false (Qsgn x)
  | PInf, PInf | NInf, NInf => PInf
  | PInf, NInf | NInf, PInf => NInf
  end.

(** Division: a finite non-zero value over zero is an infinity, 0/0 and
    inf/inf are NaN, finite over infinite is zero. *)
Definition ddiv (a b : double) : double :=
  match a, b with
  | NaN, _ | _, NaN => NaN
  | Fin x, Fin y =>
      if Qeq_bool y 0 then inf_signed true (Qsgn x) else Fin (x / y)%Q
  | Fin _, PInf | Fin _, NInf => d0
  | PInf, Fin y => if Qltb y 0 then NInf else PInf
  | NInf, Fin y => if Qltb y 0 then PInf else NInf
  | _, _ => NaN
  end.

(** Comparisons: every comparison with NaN is false. *)
Definition dlt (a b : double) : bool :=
  match a, b with
  | NaN, _ | _, NaN => false
  | Fin x, Fin y => Qltb x y
  | Fin _, PInf => true
  | Fin _, NInf => false
  | PInf, _ => false
  | NInf, NInf => false
  | NInf, _ => true
  end.

Definition dle (a b : double) : bool :=
  match a, b with
  | NaN, _ | _, NaN => false
  | Fin x, Fin y => Qle_bool x y
  | NInf, _ | _, PInf => true
  | _, _ => false
  end.

Definition dgt (a b : double) : bool := dlt b a.
Definition dge (a b : double) : bool := dle b a.

(** [std::min(a,b)] is [(b < a) ? b : a]; [std::max(a,b)] is
    [(a < b) ? b : a]. *)
Definition dmin (a b : double) : double := if dlt b a then b else a.
Definition dmax (a b : double) : double := if dlt a b then b else a.

(** [std::min({a,b,c})] and [std::max({a,b,c})] scan left to right. *)
Definition dmin3 (a b c : double) : double := dmin (dmin a b) c.
Definition dmax3 (a b c : double) : double := dmax (dmax a b) c.

(** Square root of a rational: exact on squares of rationals, rounded down
    to a multiple of 1/den elsewhere. *)
Definition Qsqrt (q : Q) : Q :=
  Z.sqrt (Qnum q * Zpos (Qden q)) # Qden q.

Definition dsqrt (a : double) : double :=
  match a with
  | Fin q => if Qltb q 0 then NaN else Fin (Qsqrt q)
  | PInf => PInf
  | NInf | NaN => NaN
  end.

(** Equality of values (rationals up to [Qeq]). *)
Definition deq (a b : double) : Prop :=
  match a, b with
  | Fin x, Fin y => (x == y)%Q
  | PInf, PInf | NInf, NInf | NaN, NaN => True
  | _, _ => False
  end.

Definition rt_infinity : double := PInf.

(** ** Floats of the rasteriser as rationals *)

(** [std::min] and [std::max] on floats. *)
Definition fmin (a b : Q) : Q := if Qltb b a then b else a.
Definition fmax (a b : Q) : Q := if Qltb a b then b else a.

(** The conversion of a float to an integer type truncates towards zero. *)
Definition float_to_int (q : Q) : Z := Z.quot (Qnum q) (Zpos (Qden q)).

(** ** Integers and vectors *)

(** The values of a C++ [int]. *)
Definition is_int (i : Z) : Prop := - 2 ^ 31 <= i < 2 ^ 31.

(** An [int] compared with or used as a [size_t] is converted modulo 2^64. *)
Definition to_size_t (i : Z) : Z := i mod 2 ^ 64.

(** [v[i]] and [v[i] = x] on a [std::vector] with an unsigned index; [None]
    stands for an access outside the vector, which the source leaves
    undefined. *)
Definition vec_read {A} (v : list A) (i : Z) : option A :=
  if (0 <=? i) && (i <? Z.of_nat (List.length v)) then v !! Z.to_nat i
  else None.

Definition vec_write {A} (v : list A) (i : Z) (x : A) : option (list A) :=
  if (0 <=? i) && (i <? Z.of_nat (List.length v))
  then Some (<[Z.to_nat i := x]> v)
  else None.

End Numerics.

(* ====================================================================== *)
(** * The ray tracer: vectors, rays, materials, primitives
      (unified_math.h, ray_tracer_integration.h) *)
(* ====================================================================== *)

Module RayTracer.
Import Numerics.

(** ** rt_vec3 *)

Record rt_vec3 : Type := mk_vec3 { vx : double; vy : double; vz : double }.

Abbreviation rt_point3 := rt_vec3 (only parsing).
Abbreviation rt_color := rt_vec3 (only parsing).

(** [operator[]]; the callers pass the axis numbers 0, 1 and 2 only. *)
Definition vnth (v : rt_vec3) (i : Z) : double :=
  if i =? 0 then vx v else if i =? 1 then vy v else vz v.

Definition vneg (v : rt_vec3) : rt_vec3 :=
  mk_vec3 (dneg (vx v)) (dneg (vy v)) (dneg (vz v)).

Definition vadd (u v : rt_vec3) : rt_vec3 :=
  mk_vec3 (dadd (vx u) (vx v)) (dadd (vy u) (vy v)) (dadd (vz u) (vz v)).

Definition vsub (u v : rt_vec3) : rt_vec3 :=
  mk_vec3 (dsub (vx u) (vx v)) (dsub (vy u) (vy v)) (dsub (vz u) (vz v)).

(** [operator*(rt_vec3, rt_vec3)], component-wise (used on colours). *)
Definition vmul (u v : rt_vec3) : rt_vec3 :=
  mk_vec3 (dmul (vx u) (vx v)) (dmul (vy u) (vy v)) (dmul (vz u) (vz v)).

(** [operator*(double, rt_vec3)]. *)
Definition vscale (t : double) (v : rt_vec3) : rt_vec3 :=
  mk_vec3 (dmul t (vx v)) (dmul t (vy v)) (dmul t (vz v)).

(** [operator/(rt_vec3, double)] multiplies by the reciprocal. *)
Definition vdiv (v : rt_vec3) (t : double) : rt_vec3 :=
  vscale (ddiv d1 t) v.

Definition dot (u v : rt_vec3) : double :=
  dadd (dadd (dmul (vx u) (vx v)) (dmul (vy u) (vy v))) (dmul (vz u) (vz v)).

Definition cross (u v : rt_vec3) : rt_vec3 :=
  mk_vec3 (dsub (dmul (vy u) (vz v)) (dmul (vz u) (vy v)))
          (dsub (dmul (vz u) (vx v)) (dmul (vx u) (vz v)))
          (dsub (dmul (vx u) (vy v)) (dmul (vy u) (vx v))).

Definition length_squared (v : rt_vec3) : double :=
  dadd (dadd (dmul (vx v) (vx v)) (dmul (vy v) (vy v))) (dmul (vz v) (vz v)).

Definition vlength (v : rt_vec3) : double := dsqrt (length_squared v).

Definition unit_vector (v : rt_vec3) : rt_vec3 := vdiv v (vlength v).

Definition dabs (a : double) : double :=
  match a with
  | Fin q => Fin (Qabs q)
  | PInf | NInf => PInf
  | NaN => NaN
  end.

Definition near_zero (v : rt_vec3) : bool :=
  let s := Fin 0.00000001 in
  dlt (dabs (vx v)) s && dlt (dabs (vy v)) s && dlt (dabs (vz v)) s.

Definition vfinite (v : rt_vec3) : bool :=
  is_fin (vx v) && is_fin (vy v) && is_fin (vz v).

Definition black : rt_color := mk_vec3 d0 d0 d0.

(** The zero vector, up to the value of the rationals. *)
Definition vzero (v : rt_vec3) : Prop :=
  deq (vx v) d0 /\ deq (vy v) d0 /\ deq (vz v) d0.

(** ** rt_ray *)

Record rt_ray : Type := mk_ray { origin : rt_point3; direction : rt_vec3 }.

Definition ray_at (r : rt_ray) (t : double) : rt_point3 :=
  vadd (origin r) (vscale t (direction r)).

Definition ray_finite (r : rt_ray) : Prop :=
  vfinite (origin r) = true /\ vfinite (direction r) = true.

Section Primitives.

(** The state of [std::rand] and the sampler [random_unit_vector] that
    draws from it (a rejection loop in the source) are parameters. *)
Context {rng : Type}.
Variable random_unit_vector : rng -> rt_vec3 * rng.

(** ** Materials: the [rt_material] interface and [rt_lambertian].
    [scatter] returns the attenuation and the scattered ray when the
    source returns [true]. *)

Record rt_material : Type := mk_material {
  scatter : rt_ray -> rt_vec3 -> rt_vec3 -> rng ->
            option (rt_color * rt_ray) * rng
}.

Definition rt_lambertian (albedo : rt_color) : rt_material :=
  {| scatter := fun _ hit_point normal g =>
       let (u, g') := random_unit_vector g in
       let scatter_direction := vadd normal u in
       let scatter_direction :=
         if near_zero scatter_direction then normal else scatter_direction in
       (Some (albedo, mk_ray hit_point scatter_direction), g') |}.

(** ** Hit records *)

Record rt_hit_record : Type := mk_hit_record {
  rec_p : rt_point3;
  rec_normal : rt_vec3;
  rec_mat : rt_material;
  rec_t : double;
  rec_front_face : bool
}.

(** [set_face_normal] fixes the last two fields of a record. *)
Definition set_face_normal (r : rt_ray) (outward_normal : rt_vec3)
    (p : rt_point3) (m : rt_material) (t : double) : rt_hit_record :=
  let front_face := dlt (dot (direction r) outward_normal) d0 in
  {| rec_p := p;
     rec_normal := if front_face then outward_normal else vneg outward_normal;
     rec_mat := m;
     rec_t := t;
     rec_front_face := front_face |}.

(** ** rt_triangle *)

Record rt_triangle : Type := mk_rt_triangle {
  tri_v0 : rt_point3; tri_v1 : rt_point3; tri_v2 : rt_point3;
  tri_edge1 : rt_vec3; tri_edge2 : rt_vec3; tri_normal : rt_vec3;
  tri_mat : rt_material
}.

(** The constructor. *)
Definition rt_triangle_new (vertex0 vertex1 vertex2 : rt_point3)
    (material : rt_material) : rt_triangle :=
  let edge1 := vsub vertex1 vertex0 in
  let edge2 := vsub vertex2 vertex0 in
  {| tri_v0 := vertex0; tri_v1 := vertex1; tri_v2 := vertex2;
     tri_edge1 := edge1; tri_edge2 := edge2;
     tri_normal := unit_vector (cross edge1 edge2);
     tri_mat := material |}.

(** [EPSILON = 1e-8]. *)
Definition EPSILON : double := Fin 0.00000001.

(** Vertex and edges are finite. *)
Definition tri_finite (tri : rt_triangle) : Prop :=
  vfinite (tri_v0 tri) = true /\ vfinite (tri_edge1 tri) = true /\
  vfinite (tri_edge2 tri) = true.


(** The Moller-Trumbore determinant [a] of the source. *)
Definition tri_det (tri : rt_triangle) (r : rt_ray) : double :=
  dot (tri_edge1 tri) (cross (direction r) (tri_edge2 tri)).

Definition rt_triangle_hit (tri : rt_triangle) (r : rt_ray)
    (t_min t_max : double) : option rt_hit_record :=
  let h := cross (direction r) (tri_edge2 tri) in
  let a := dot (tri_edge1 tri) h in
  if dgt a (dneg EPSILON) && dlt a EPSILON then None
  else
    let f := ddiv d1 a in
    let s := vsub (origin r) (tri_v0 tri) in
    let u := dmul f (dot s h) in
    if dlt u d0 || dgt u d1 then None
    else
      let q := cross s (tri_edge1 tri) in
      let v := dmul f (dot (direction r) q) in
      if dlt v d0 || dgt (dadd u v) d1 then None
      else
        let t := dmul f (dot (tri_edge2 tri) q) in
        if dlt t t_min || dgt t t_max then None
        else Some (set_face_normal r (tri_normal tri)
                     (ray_at r t) (tri_mat tri) t).

(** ** rt_sphere *)

Record rt_sphere : Type := mk_rt_sphere {
  sph_center : rt_point3; sph_radius : double; sph_mat : rt_material
}.


Definition rt_sphere_hit (s : rt_sphere) (r : rt_ray)
    (t_min t_max : double) : option rt_hit_record :=
  let oc := vsub (sph_center s) (origin r) in
  let a := length_squared (direction r) in
  let h := dot (direction r) oc in
  let c := dsub (length_squared oc) (dmul (sph_radius s) (sph_radius s)) in
  let discriminant := dsub (dmul h h) (dmul a c) in
  if dlt discriminant d0 then None
  else
    let sqrtd := dsqrt discriminant in
    let root := ddiv (dsub h sqrtd) a in
    let accept (root : double) :=
      let p := ray_at r root in
      let outward_normal := vdiv (vsub p (sph_center s)) (sph_radius s) in
      Some (set_face_normal r outward_normal p (sph_mat s) root) in
    if dlt root t_min || dgt root t_max then
      let root := ddiv (dadd h sqrtd) a in
      if dlt root t_min || dgt root t_max then None
      else accept root
    else accept root.

(** ** rt_hittable: the primitives of the source, with virtual [hit] *)

Inductive rt_hittable : Type :=
| Triangle (tri : rt_triangle)
| Sphere (s : rt_sphere).

Definition hit (object : rt_hittable) (r : rt_ray) (t_min t_max : double)
    : option rt_hit_record :=
  match object with
  | Triangle tri => rt_triangle_hit tri r t_min t_max
  | Sphere s => rt_sphere_hit s r t_min t_max
  end.

(** ** rt_hittable_list::hit: the brute-force loop.  The accumulator is
    [(hit_anything ? Some rec : None, closest_so_far)]. *)

Definition list_hit_step (r : rt_ray) (t_min : double)
    (acc : option rt_hit_record * double) (object : rt_hittable)
    : option rt_hit_record * double :=
  match hit object r t_min (snd acc) with
  | Some temp_rec => (Some temp_rec, rec_t temp_rec)
  | None => acc
  end.

Definition rt_hittable_list_hit (objects : list rt_hittable) (r : rt_ray)
    (t_min t_max : double) : option rt_hit_record :=
  fst (fold_left (list_hit_step r t_min) objects (None, t_max)).

(** ** rt_aabb (bvh.h) *)

Record rt_aabb : Type := mk_aabb { box_min : rt_point3; box_max : rt_point3 }.

Definition combine (box0 box1 : rt_aabb) : rt_aabb :=
  mk_aabb
    (mk_vec3 (dmin (vx (box_min box0)) (vx (box_min box1)))
             (dmin (vy (box_min box0)) (vy (box_min box1)))
             (dmin (vz (box_min box0)) (vz (box_min box1))))
    (mk_vec3 (dmax (vx (box_max box0)) (vx (box_max box1)))
             (dmax (vy (box_max box0)) (vy (box_max box1)))
             (dmax (vz (box_max box0)) (vz (box_max box1)))).

(** One iteration of the slab loop of [rt_aabb::hit] for axis [a]:
    [None] is the early [return false], otherwise the narrowed interval. *)
Definition slab (b : rt_aabb) (r : rt_ray) (a : Z) (t_min t_max : double)
    : option (double * double) :=
  let lo := ddiv (dsub (vnth (box_min b) a) (vnth (origin r) a))
                 (vnth (direction r) a) in
  let hi := ddiv (dsub (vnth (box_max b) a) (vnth (origin r) a))
                 (vnth (direction r) a) in
  let t0 := dmin lo hi in
  let t1 := dmax lo hi in
  let t_min := dmax t0 t_min in
  let t_max := dmin t1 t_max in
  if dle t_max t_min then None else Some (t_min, t_max).

Definition aabb_hit (b : rt_aabb) (r : rt_ray) (t_min t_max : double) : bool :=
  match slab b r 0 t_min t_max with
  | None => false
  | Some (t_min, t_max) =>
      match slab b r 1 t_min t_max with
      | None => false
      | Some (t_min, t_max) =>
          match slab b r 2 t_min t_max with
          | None => false
          | Some _ => true
          end
      end
  end.

Definition longest_axis (b : rt_aabb) : Z :=
  let x := dsub (vx (box_max b)) (vx (box_min b)) in
  let y := dsub (vy (box_max b)) (vy (box_min b)) in
  let z := dsub (vz (box_max b)) (vz (box_min b)) in
  if dgt x y && dgt x z then 0
  else if dgt y z then 1
  else 2.

(** ** rt_bvh (the implementation that follows Engine.h in the sources) *)

(** The padding loop of [compute_bounds] for one axis. *)
Definition pad_axis (lo hi : double) : double * double :=
  let padding := Fin 0.000001 in
  if dlt (dsub hi lo) padding
  then (dsub lo (ddiv padding (Fin 2)), dadd hi (ddiv padding (Fin 2)))
  else (lo, hi).

Definition compute_bounds (object : rt_hittable) : rt_aabb :=
  match object with
  | Triangle triangle =>
      let v0 := tri_v0 triangle in
      let v1 := tri_v1 triangle in
      let v2 := tri_v2 triangle in
      let min_x := dmin3 (vx v0) (vx v1) (vx v2) in
      let min_y := dmin3 (vy v0) (vy v1) (vy v2) in
      let min_z := dmin3 (vz v0) (vz v1) (vz v2) in
      let max_x := dmax3 (vx v0) (vx v1) (vx v2) in
      let max_y := dmax3 (vy v0) (vy v1) (vy v2) in
      let max_z := dmax3 (vz v0) (vz v1) (vz v2) in
      let '(min_x, max_x) := pad_axis min_x max_x in
      let '(min_y, max_y) := pad_axis min_y max_y in
      let '(min_z, max_z) := pad_axis min_z max_z in
      mk_aabb (mk_vec3 min_x min_y min_z) (mk_vec3 max_x max_y max_z)
  | Sphere sphere =>
      let radius_vec :=
        mk_vec3 (sph_radius sphere) (sph_radius sphere) (sph_radius sphere) in
      mk_aabb (vsub (sph_center sphere) radius_vec)
              (vadd (sph_center sphere) radius_vec)
  end.

(** A node as in the source: three nullable pointers. *)
#[local] Unset Elimination Schemes.
Inductive rt_bvh_node : Type :=
| mk_bvh_node (bounds : rt_aabb)
              (left_child right_child : option rt_bvh_node)
              (leaf_object : option rt_hittable).
#[local] Set Elimination Schemes.

Definition bounds (n : rt_bvh_node) : rt_aabb :=
  match n with mk_bvh_node b _ _ _ => b end.

(** [std::sort] by the lower box corner along [axis], here as an
    insertion sort (the order of equal keys is unspecified in the source). *)
Definition box_less (axis : Z) (a b : rt_hittable) : bool :=
  dlt (vnth (box_min (compute_bounds a)) axis)
      (vnth (box_min (compute_bounds b)) axis).

Fixpoint sort_insert (axis : Z) (x : rt_hittable) (l : list rt_hittable)
    : list rt_hittable :=
  match l with
  | [] => [x]
  | y :: l' =>
      if box_less axis y x then y :: sort_insert axis x l' else x :: y :: l'
  end.

Definition sort_by_axis (axis : Z) (l : list rt_hittable) : list rt_hittable :=
  fold_right (sort_insert axis) [] l.

(** [build_tree(objects, start, end)] on the slice [objects[start..end)].
    The recursion is on slices of strictly smaller length; [fuel] bounds
    its depth.  A slice of length 0 indexes out of range in the source.
    The source sorts the slice inside the caller's vector; the recursive
    calls work on the two halves of that sorted slice, so the tree is a
    function of the slice alone, and the model returns the tree only. *)
Fixpoint build_tree (fuel : nat) (objects : list rt_hittable)
    : option rt_bvh_node :=
  match fuel with
  | O => None
  | S fuel =>
      match objects with
      | [] => None
      | [object] =>
          Some (mk_bvh_node (compute_bounds object) None None (Some object))
      | first :: rest =>
          let bounds :=
            fold_left (fun b o => combine b (compute_bounds o)) rest
                      (compute_bounds first) in
          let axis := longest_axis bounds in
          let sorted := sort_by_axis axis objects in
          let mid := (List.length objects / 2)%nat in
          match build_tree fuel (firstn mid sorted),
                build_tree fuel (skipn mid sorted) with
          | Some l, Some r => Some (mk_bvh_node bounds (Some l) (Some r) None)
          | _, _ => None
          end
      end
  end.

Fixpoint hit_node (node : rt_bvh_node) (r : rt_ray) (t_min t_max : double)
    : option rt_hit_record :=
  match node with
  | mk_bvh_node bounds left_child right_child leaf_object =>
      if negb (aabb_hit bounds r t_min t_max) then None
      else
        match leaf_object with
        | Some object => hit object r t_min t_max
        | None =>
            let res_left :=
              match left_child with
              | Some l => hit_node l r t_min t_max
              | None => None
              end in
            let closest_t :=
              match res_left with
              | Some temp_rec => rec_t temp_rec
              | None => t_max
              end in
            let res_right :=
              match right_child with
              | Some rt => hit_node rt r t_min closest_t
              | None => None
              end in
            match res_right with
            | Some temp_rec => Some temp_rec
            | None => res_left
            end
        end
  end.

Record rt_bvh : Type := mk_bvh { root : option rt_bvh_node }.

(** The constructor [rt_bvh::rt_bvh(objects)] and
    [rt_hittable_list::build_bvh]. *)
Definition build_bvh (objects : list rt_hittable) : rt_bvh :=
  match objects with
  | [] => mk_bvh None
  | _ => mk_bvh (build_tree (List.length objects) objects)
  end.

Definition rt_bvh_hit (b : rt_bvh) (r : rt_ray) (t_min t_max : double)
    : option rt_hit_record :=
  match root b with
  | None => None
  | Some n => hit_node n r t_min t_max
  end.

(** ** RealtimeRayTracer::ray_color (raytracing.cpp) *)

Fixpoint ray_color_rec (bvh_world : option rt_bvh) (fuel : nat)
    (r : rt_ray) (g : rng) : rt_color * rng :=
  match fuel with
  | O => (black, g)
  | S fuel =>
      match bvh_world with
      | None => (black, g)
      | Some b =>
          match rt_bvh_hit b r (Fin 0.001) rt_infinity with
          | Some rec =>
              match scatter (rec_mat rec) r (rec_p rec) (rec_normal rec) g with
              | (Some (attenuation, scattered), g') =>
                  let (c, g'') := ray_color_rec bvh_world fuel scattered g' in
                  (vmul attenuation c, g'')
              | (None, g') => (black, g')
              end
          | None => (black, g)
          end
      end
  end.

(** [depth] is an [int]; the recursion stops at [depth <= 0]. *)
Definition ray_color (bvh_world : option rt_bvh) (r : rt_ray) (depth : Z)
    (g : rng) : rt_color * rng :=
  ray_color_rec bvh_world (Z.to_nat depth) r g.

End Primitives.
(** ** Predicates on primitives, records and materials *)

(** Equality of vectors up to the value of the rationals. *)
Definition veq (u v : rt_vec3) : Prop :=
  deq (vx u) (vx v) /\ deq (vy u) (vy v) /\ deq (vz u) (vz v).

Section Worlds.
Context {rng : Type}.

Definition material_of (object : @rt_hittable rng) : rt_material :=
  match object with
  | Triangle tri => tri_mat tri
  | Sphere s => sph_mat s
  end.

(** A triangle with finite vertex and edges (the worlds that
    [convert_scene] builds hold triangles only). *)
Definition finite_triangle (object : @rt_hittable rng) : Prop :=
  match object with
  | Triangle tri => tri_finite tri
  | Sphere _ => False
  end.

(** Whenever the material scatters, the attenuation is finite. *)
Definition finite_attenuation (m : @rt_material rng) : Prop :=
  forall r_in hit_point normal g attenuation scattered g',
    scatter m r_in hit_point normal g = (Some (attenuation, scattered), g') ->
    vfinite attenuation = true.

(** The state of the loop of [rt_hittable_list::hit]: no hit yet and the
    bound of the call, or the record of the closest hit so far and its
    distance. *)
Definition loop_state (t_max : double)
    (st : option (@rt_hit_record rng) * double) : Prop :=
  match fst st with
  | None => snd st = t_max
  | Some rec =>
      snd st = rec_t rec /\ is_fin (rec_t rec) = true /\
      dgt (rec_t rec) t_max = false
  end.

End Worlds.


End RayTracer.

(* ====================================================================== *)
(** * The mesh store: Model (model.h, model.cpp) *)
(* ====================================================================== *)

Module Mesh.
Import Numerics.
#[local] Open Scope Q_scope.

(** Modelled from the spec: geometry.h is not among the sources.  [Vec3f]
    is its three-component float vector with component-wise addition,
    subtraction and scaling by a float (spec, data model: fixed-size float
    vectors with standard algebra). *)
Record Vec3f : Type := mk_Vec3f { v3x : Q; v3y : Q; v3z : Q }.

Definition vec_add (a b : Vec3f) : Vec3f :=
  mk_Vec3f (v3x a + v3x b) (v3y a + v3y b) (v3z a + v3z b).

Definition vec_sub (a b : Vec3f) : Vec3f :=
  mk_Vec3f (v3x a - v3x b) (v3y a - v3y b) (v3z a - v3z b).

Definition vec_scale (a : Vec3f) (f : Q) : Vec3f :=
  mk_Vec3f (v3x a * f) (v3y a * f) (v3z a * f).

(** Equality of vectors up to the value of the rationals. *)
Definition vec_eq (a b : Vec3f) : Prop :=
  v3x a == v3x b /\ v3y a == v3y b /\ v3z a == v3z b.

(** The fields the animation and blend-shape methods touch (faces, normals,
    texture coordinates and texture maps are left out). *)
Record Model : Type := mk_Model {
  verts_ : list Vec3f;
  originalVerts_ : list Vec3f;
  hasBackup_ : bool;
  blendShapes : gmap string (list Vec3f);
  blendWeights : gmap string Q
}.

Definition set_verts (m : Model) (v : list Vec3f) : Model :=
  {| verts_ := v; originalVerts_ := originalVerts_ m;
     hasBackup_ := hasBackup_ m;
     blendShapes := blendShapes m; blendWeights := blendWeights m |}.

Definition setVertex (m : Model) (i : Z) (newPos : Vec3f) : option Model :=
  if (0 <=? i)%Z && (to_size_t i <? Z.of_nat (List.length (verts_ m)))%Z
  then
    match vec_write (verts_ m) (to_size_t i) newPos with
    | Some v => Some (set_verts m v)
    | None => None
    end
  else Some m.

Definition updateVertex (m : Model) (index : Z) (offset : Vec3f) : option Model :=
  if (0 <=? index)%Z && (to_size_t index <? Z.of_nat (List.length (verts_ m)))%Z
  then
    match vec_read (verts_ m) (to_size_t index) with
    | Some old =>
        match vec_write (verts_ m) (to_size_t index) (vec_add old offset) with
        | Some v => Some (set_verts m v)
        | None => None
        end
    | None => None
    end
  else Some m.

Definition backupOriginalVertices (m : Model) : Model :=
  {| verts_ := verts_ m; originalVerts_ := verts_ m; hasBackup_ := true;
     blendShapes := blendShapes m; blendWeights := blendWeights m |}.

Definition resetVertices (m : Model) : Model :=
  if hasBackup_ m then set_verts m (originalVerts_ m) else m.

Definition restoreOriginalVertices (m : Model) : Model :=
  if hasBackup_ m then set_verts m (originalVerts_ m) else m.

Definition addBlendShape (m : Model) (name : string)
    (targetVertices : list Vec3f) : Model :=
  if negb (List.length targetVertices =? List.length (verts_ m))%nat then m
  else
    {| verts_ := verts_ m; originalVerts_ := originalVerts_ m;
       hasBackup_ := hasBackup_ m;
       blendShapes := <[name := targetVertices]> (blendShapes m);
       blendWeights := <[name := 0]> (blendWeights m) |}.

Definition setBlendWeight (m : Model) (shapeName : string) (weight : Q) : Model :=
  match blendShapes m !! shapeName with
  | Some _ =>
      {| verts_ := verts_ m; originalVerts_ := originalVerts_ m;
         hasBackup_ := hasBackup_ m;
         blendShapes := blendShapes m;
         blendWeights :=
           <[shapeName := fmax 0 (fmin 1 weight)]> (blendWeights m) |}
  | None => m
  end.

(** The inner loop of [applyBlendShapes] for one shape: index [i] runs over
    [verts_] and reads [targetVerts[i]] and [originalVerts_[i]]. *)
Fixpoint blend_one (orig target verts : list Vec3f) (weight : Q)
    : option (list Vec3f) :=
  match verts with
  | [] => Some []
  | v :: verts' =>
      match orig, target with
      | o :: orig', t :: target' =>
          match blend_one orig' target' verts' weight with
          | Some rest =>
              Some (vec_add v (vec_scale (vec_sub t o) weight) :: rest)
          | None => None
          end
      | _, _ => None
      end
  end.

(** The outer loop over the shapes.  [blendWeights[name]] reads 0 for a name
    without a weight. *)
Fixpoint blend_all (orig : list Vec3f) (weights : gmap string Q)
    (shapes : list (string * list Vec3f)) (verts : list Vec3f)
    : option (list Vec3f) :=
  match shapes with
  | [] => Some verts
  | (name, targetVerts) :: shapes' =>
      let weight := default 0 (weights !! name) in
      if Qltb 0 weight then
        match blend_one orig targetVerts verts weight with
        | Some verts' => blend_all orig weights shapes' verts'
        | None => None
        end
      else blend_all orig weights shapes' verts
  end.

(** [applyBlendShapes].  The shapes are visited in the order of
    [map_to_list] (the source visits them in key order; the sums agree up to
    the order of the additions).  [blendWeights[name]] also enters a weight
    0 for a shape that has none. *)
Definition applyBlendShapes (m : Model) : option Model :=
  let m := if hasBackup_ m then m else backupOriginalVertices m in
  match blend_all (originalVerts_ m) (blendWeights m)
          (map_to_list (blendShapes m)) (originalVerts_ m) with
  | Some verts =>
      Some {| verts_ := verts; originalVerts_ := originalVerts_ m;
              hasBackup_ := hasBackup_ m;
              blendShapes := blendShapes m;
              blendWeights :=
                blendWeights m ∪ ((fun _ => 0) <$> blendShapes m) |}
  | None => None
  end.

(** Every stored weight is in [0,1]. *)
Definition weights_clamped (m : Model) : Prop :=
  forall name w, blendWeights m !! name = Some w -> 0 <= w <= 1.


(** A shape name whose weight, if any, is not positive: [applyBlendShapes]
    skips it. *)
Definition idle (weights : gmap string Q) (name : string) : Prop :=
  forall w, weights !! name = Some w -> w <= 0.

(** ** The rest of the blend-shape interface *)

(** The constructor [Model(filename)] after the file is read: [loaded] is
    the vertex list of the file, [None] when the file cannot be opened (the
    constructor then returns before it makes the backup).  Faces, normals
    and textures are not among the fields of [Model] above. *)
Definition Model_new (loaded : option (list Vec3f)) : Model :=
  match loaded with
  | None => mk_Model [] [] false ∅ ∅
  | Some verts => backupOriginalVertices (mk_Model verts [] false ∅ ∅)
  end.

Definition hasBlendShape (m : Model) (name : string) : bool :=
  match blendShapes m !! name with
  | Some _ => true
  | None => false
  end.

(** The loop [for (auto &weight : blendWeights) weight.second = 0.0f]. *)
Definition zero_weights (m : Model) : Model :=
  {| verts_ := verts_ m; originalVerts_ := originalVerts_ m;
     hasBackup_ := hasBackup_ m;
     blendShapes := blendShapes m;
     blendWeights := (fun _ => 0) <$> blendWeights m |}.

Definition clearAllBlendWeights (m : Model) : option Model :=
  applyBlendShapes (zero_weights m).

(** [setExpressionByName]; for a name that is no blend shape the source
    prints the list of shapes and changes nothing more. *)
Definition setExpressionByName (m : Model) (name : string) (intensity : Q)
    : option Model :=
  match clearAllBlendWeights m with
  | None => None
  | Some m =>
      if hasBlendShape m name
      then applyBlendShapes (setBlendWeight m name intensity)
      else Some m
  end.

Definition blendBetweenExpressions (m : Model) (from to : string) (t : Q)
    : option Model :=
  if negb (hasBlendShape m from) || negb (hasBlendShape m to) then Some m
  else
    let m := zero_weights m in
    let fromWeight := 1 - t in
    let toWeight := t in
    applyBlendShapes
      (setBlendWeight (setBlendWeight m from fromWeight) to toWeight).

Definition saveCurrentStateAsBlendShape (m : Model) (name : string) : Model :=
  addBlendShape m name (verts_ m).

(** The calls of the animation and blend-shape interface, and a sequence of
    them run on a model; [None] stands for an access outside a vector. *)
Inductive mesh_call : Type :=
| call_setVertex (i : Z) (newPos : Vec3f)
| call_updateVertex (index : Z) (offset : Vec3f)
| call_resetVertices
| call_backupOriginalVertices
| call_restoreOriginalVertices
| call_addBlendShape (name : string) (targetVertices : list Vec3f)
| call_setBlendWeight (shapeName : string) (weight : Q)
| call_applyBlendShapes
| call_clearAllBlendWeights
| call_setExpressionByName (name : string) (intensity : Q)
| call_blendBetweenExpressions (from to : string) (t : Q)
| call_saveCurrentStateAsBlendShape (name : string).

Definition run_call (c : mesh_call) (m : Model) : option Model :=
  match c with
  | call_setVertex i newPos => setVertex m i newPos
  | call_updateVertex index offset => updateVertex m index offset
  | call_resetVertices => Some (resetVertices m)
  | call_backupOriginalVertices => Some (backupOriginalVertices m)
  | call_restoreOriginalVertices => Some (restoreOriginalVertices m)
  | call_addBlendShape name targetVertices =>
      Some (addBlendShape m name targetVertices)
  | call_setBlendWeight shapeName weight =>
      Some (setBlendWeight m shapeName weight)
  | call_applyBlendShapes => applyBlendShapes m
  | call_clearAllBlendWeights => clearAllBlendWeights m
  | call_setExpressionByName name intensity =>
      setExpressionByName m name intensity
  | call_blendBetweenExpressions from to t =>
      blendBetweenExpressions m from to t
  | call_saveCurrentStateAsBlendShape name =>
      Some (saveCurrentStateAsBlendShape m name)
  end.

Fixpoint run_calls (cs : list mesh_call) (m : Model) : option Model :=
  match cs with
  | [] => Some m
  | c :: cs' =>
      match run_call c m with
      | Some m' => run_calls cs' m'
      | None => None
      end
  end.

(** The indices of a call are values of [int]. *)
Definition int_call (c : mesh_call) : Prop :=
  match c with
  | call_setVertex i _ => is_int i
  | call_updateVertex index _ => is_int index
  | _ => True
  end.

(** The backup, when there is one, and every blend-shape target have as
    many vertices as the mesh. *)
Definition well_sized (m : Model) : Prop :=
  (hasBackup_ m = true ->
   List.length (originalVerts_ m) = List.length (verts_ m)) /\
  (forall name target, blendShapes m !! name = Some target ->
     List.length target = List.length (verts_ m)).

(** The blend formula of vertex [i] with original position [o]: the sum of
    weight * (target[i] - o) over the shapes. *)
Definition weighted_offsets (weights : gmap string Q)
    (shapes : list (string * list Vec3f)) (i : nat) (o : Vec3f) : Vec3f :=
  fold_right
    (fun shape acc =>
       match snd shape !! i with
       | Some t =>
           vec_add acc
             (vec_scale (vec_sub t o) (default 0 (weights !! fst shape)))
       | None => acc
       end)
    (mk_Vec3f 0 0 0) shapes.

(** Linear interpolation between two positions. *)
Definition vec_lerp (a b : Vec3f) (t : Q) : Vec3f :=
  vec_add (vec_scale a (1 - t)) (vec_scale b t).

End Mesh.

(* ====================================================================== *)
(** * The scene graph: SceneNode and Scene (SceneNode.cpp, Scene.cpp) *)
(* ====================================================================== *)

Module SceneGraph.
#[local] Open Scope string_scope.

(** A node owns its children.  [node_id] stands for the node's address
    (pointers to nodes are compared by it) and [parent] is the non-owning
    back-reference.  Transforms, the model pointer and the node type are
    left out: the methods below do not touch them. *)
#[local] Unset Elimination Schemes.
Inductive SceneNode : Type :=
| mk_SceneNode (node_id : positive) (name : string)
               (visible selected : bool)
               (parent : option positive)
               (children : list SceneNode).
#[local] Set Elimination Schemes.

Definition node_id (n : SceneNode) : positive :=
  match n with mk_SceneNode i _ _ _ _ _ => i end.
Definition name (n : SceneNode) : string :=
  match n with mk_SceneNode _ s _ _ _ _ => s end.
Definition visible (n : SceneNode) : bool :=
  match n with mk_SceneNode _ _ v _ _ _ => v end.
Definition selected (n : SceneNode) : bool :=
  match n with mk_SceneNode _ _ _ s _ _ => s end.
Definition parent (n : SceneNode) : option positive :=
  match n with mk_SceneNode _ _ _ _ p _ => p end.
Definition children (n : SceneNode) : list SceneNode :=
  match n with mk_SceneNode _ _ _ _ _ c => c end.

Definition set_parent (p : option positive) (n : SceneNode) : SceneNode :=
  mk_SceneNode (node_id n) (name n) (visible n) (selected n) p (children n).

Definition set_children (c : list SceneNode) (n : SceneNode) : SceneNode :=
  mk_SceneNode (node_id n) (name n) (visible n) (selected n) (parent n) c.

(** The constructor: visible, not selected, no parent, no children. *)
Definition SceneNode_new (addr : positive) (nodeName : string) : SceneNode :=
  mk_SceneNode addr nodeName true false None [].

Definition addChild (n child : SceneNode) : SceneNode :=
  set_children (children n ++ [set_parent (Some (node_id n)) child])%list n.

(** [std::find_if] over the children by name. *)
Definition findChild (n : SceneNode) (childName : string) : option SceneNode :=
  List.find (fun c => String.eqb (name c) childName) (children n).

(** [removeChild]: the first child of that name leaves the list (its
    parent pointer is cleared); the result pairs it with the node. *)
Fixpoint remove_first (childName : string) (l : list SceneNode)
    : option SceneNode * list SceneNode :=
  match l with
  | [] => (None, [])
  | c :: l' =>
      if String.eqb (name c) childName then (Some (set_parent None c), l')
      else let (r, l'') := remove_first childName l' in (r, c :: l'')
  end.

Definition removeChild (n : SceneNode) (childName : string)
    : option SceneNode * SceneNode :=
  let (r, l) := remove_first childName (children n) in (r, set_children l n).

(** [findDescendant]: the direct children first, then each subtree. *)
Fixpoint findDescendant (n : SceneNode) (nodeName : string) : option SceneNode :=
  match n with
  | mk_SceneNode _ _ _ _ _ cs =>
      match List.find (fun c => String.eqb (name c) nodeName) cs with
      | Some c => Some c
      | None =>
          (fix search (l : list SceneNode) : option SceneNode :=
             match l with
             | [] => None
             | c :: l' =>
                 match findDescendant c nodeName with
                 | Some found => Some found
                 | None => search l'
                 end
             end) cs
      end
  end.

(** [p->removeChild(childName)] for the node [p] of address [pid] inside
    the tree below [n]. *)
Fixpoint removeChild_at (pid : positive) (childName : string) (n : SceneNode)
    : SceneNode :=
  if Pos.eqb (node_id n) pid then snd (removeChild n childName)
  else
    match n with
    | mk_SceneNode i s v sel p cs =>
        mk_SceneNode i s v sel p (List.map (removeChild_at pid childName) cs)
    end.

Record Scene : Type := mk_Scene {
  rootNode : SceneNode;
  selectedNode : option positive;
  nodeCounter : Z
}.

(** The constructor; [addr] is the address of the new root. *)
Definition Scene_new (addr : positive) : Scene :=
  mk_Scene (SceneNode_new addr "Root") None 0.

Definition findNode (s : Scene) (nodeName : string) : option SceneNode :=
  if String.eqb (name (rootNode s)) nodeName then Some (rootNode s)
  else findDescendant (rootNode s) nodeName.

Definition deleteNode (s : Scene) (nodeName : string) : bool * Scene :=
  if String.eqb nodeName "Root" then (false, s)
  else
    match findNode s nodeName with
    | None => (false, s)
    | Some node =>
        match parent node with
        | None => (false, s)
        | Some pid =>
            let sel :=
              match selectedNode s with
              | Some a => if Pos.eqb a (node_id node) then None else Some a
              | None => None
              end in
            (true,
             mk_Scene (removeChild_at pid nodeName (rootNode s)) sel
                      (nodeCounter s))
        end
    end.

(** A sequence of [deleteNode] calls. *)
Definition deleteNodes (names : list string) (s : Scene) : Scene :=
  fold_left (fun s nodeName => snd (deleteNode s nodeName)) names s.

(** The nodes of a tree, parents first. *)
Fixpoint nodes (n : SceneNode) : list SceneNode :=
  match n with
  | mk_SceneNode _ _ _ _ _ cs =>
      n :: (fix go (l : list SceneNode) : list SceneNode :=
              match l with
              | [] => []
              | c :: l' => (nodes c ++ go l')%list
              end) cs
  end.

(** The second loop of [findDescendant]: each subtree in turn. *)
Fixpoint search_subtrees (nodeName : string) (l : list SceneNode)
    : option SceneNode :=
  match l with
  | [] => None
  | c :: l' =>
      match findDescendant c nodeName with
      | Some found => Some found
      | None => search_subtrees nodeName l'
      end
  end.

(** [generateUniqueName]: the candidates [baseName], [baseName_1],
    [baseName_2], ... are tried until [findNode] fails; [std::to_string]
    is the decimal rendering [pretty].  [fuel] bounds the iterations of
    the while loop. *)
Fixpoint unique_name_loop (fuel : nat) (s : Scene)
    (baseName candidate : string) (suffix : Z) : option string :=
  match findNode s candidate with
  | None => Some candidate
  | Some _ =>
      match fuel with
      | O => None
      | S fuel' =>
          unique_name_loop fuel' s baseName
            (baseName ++ "_" ++ pretty suffix) (suffix + 1)
      end
  end.

Definition generateUniqueName (s : Scene) (baseName : string) : option string :=
  unique_name_loop (List.length (nodes (rootNode s))) s baseName baseName 1.

(** [createEmptyNode]; [addr] is the address of the node that
    [std::make_unique] allocates, the result is that pointer and the
    scene. *)
Definition createEmptyNode (addr : positive) (s : Scene) (nodeName : string)
    : option (positive * Scene) :=
  let finalName := if String.eqb nodeName "" then "Empty" else nodeName in
  match generateUniqueName s finalName with
  | None => None
  | Some finalName =>
      Some (addr,
            mk_Scene (addChild (rootNode s) (SceneNode_new addr finalName))
                     (selectedNode s) (nodeCounter s))
  end.

(** ** The state predicates of the scene graph *)

(** The addresses and the names of the nodes of a tree, and both. *)
Definition ids (n : SceneNode) : list positive := List.map node_id (nodes n).
Definition names (n : SceneNode) : list string := List.map name (nodes n).
Definition label (n : SceneNode) : positive * string := (node_id n, name n).
Definition labels (n : SceneNode) : list (positive * string) :=
  List.map label (nodes n).

(** Every child points back to the node that holds it. *)
Fixpoint parents_ok (n : SceneNode) : bool :=
  match n with
  | mk_SceneNode i _ _ _ _ cs =>
      forallb (fun c =>
                 match parent c with
                 | Some p => Pos.eqb p i
                 | None => false
                 end && parents_ok c) cs
  end.

(** What [Scene()] establishes and [addChild] keeps: a root "Root" without
    parent, distinct addresses, parent pointers that match the tree. *)
Definition well_formed (s : Scene) : Prop :=
  name (rootNode s) = "Root" /\ parent (rootNode s) = None /\
  NoDup (ids (rootNode s)) /\ parents_ok (rootNode s) = true.

(** The candidate that [generateUniqueName] tries in round [k]. *)
Definition candidate (baseName : string) (k : nat) : string :=
  match k with
  | O => baseName
  | S _ => baseName ++ "_" ++ pretty (Z.of_nat k)
  end.

End SceneGraph.

(* ====================================================================== *)
(** * Images (tgaimage.h) *)
(* ====================================================================== *)

Module Image.

(** Modelled from the spec: tgaimage.h is not among the sources.  A
    [TGAColor] is four bytes in the order blue, green, red, alpha, read and
    written with [operator[]]; a [TGAImage] is a width, a height and the
    pixels, [set] and [get] refuse coordinates outside the image and
    [clear] zeroes every pixel (spec, control flow: the ray tracer writes
    its tiles into a lower-resolution buffer that is blended into the
    framebuffer). *)
Record TGAColor : Type := mk_bgra { bgra0 : Z; bgra1 : Z; bgra2 : Z; bgra3 : Z }.

(** [TGAColor(R, G, B)]. *)
Definition TGAColor_rgb (R G B : Z) : TGAColor := mk_bgra B G R 255.

Definition channel (c : TGAColor) (i : Z) : Z :=
  if i =? 0 then bgra0 c else if i =? 1 then bgra1 c
  else if i =? 2 then bgra2 c else bgra3 c.

Definition set_channel (c : TGAColor) (i : Z) (v : Z) : TGAColor :=
  if i =? 0 then mk_bgra v (bgra1 c) (bgra2 c) (bgra3 c)
  else if i =? 1 then mk_bgra (bgra0 c) v (bgra2 c) (bgra3 c)
  else if i =? 2 then mk_bgra (bgra0 c) (bgra1 c) v (bgra3 c)
  else mk_bgra (bgra0 c) (bgra1 c) (bgra2 c) v.

Definition zero_pixel : TGAColor := mk_bgra 0 0 0 0.

(** The map holds the pixels written since the last [clear]; every other
    pixel reads as zero. *)
Record TGAImage : Type := mk_image {
  img_width : Z;
  img_height : Z;
  img_data : gmap (Z * Z) TGAColor
}.

Definition TGAImage_new (w h : Z) : TGAImage := mk_image w h ∅.

Definition in_image (img : TGAImage) (x y : Z) : bool :=
  (0 <=? x) && (0 <=? y) && (x <? img_width img) && (y <? img_height img).

Definition img_set (img : TGAImage) (x y : Z) (c : TGAColor) : TGAImage :=
  if in_image img x y
  then mk_image (img_width img) (img_height img) (<[(x, y) := c]> (img_data img))
  else img.

Definition img_get (img : TGAImage) (x y : Z) : TGAColor :=
  if in_image img x y then default zero_pixel (img_data img !! (x, y))
  else zero_pixel.

Definition img_clear (img : TGAImage) : TGAImage :=
  mk_image (img_width img) (img_height img) ∅.

(** Pixel (x, y) has been written since the image was last cleared. *)
Definition written (img : TGAImage) (x y : Z) : Prop :=
  is_Some (img_data img !! (x, y)).

(** [b] has the size of [a] and every pixel written in [a]. *)
Definition extends (a b : TGAImage) : Prop :=
  img_width b = img_width a /\ img_height b = img_height a /\
  forall x y, written a x y -> written b x y.

End Image.

(* ====================================================================== *)
(** * The second-pass shader: ShadowMappingShader::fragment (shaders.h) *)
(* ====================================================================== *)

Module Shaders.
Import Numerics Image.
#[local] Open Scope Q_scope.

(** The fixed depth bias and the two shadow factors. *)
Definition shadow_bias : Q := 43.34.

(** The shadow test.  [sb_p] is the fragment in shadow-buffer coordinates
    after the division by its last component, as (x, y, depth).  [None]
    stands for a read outside [shadowbuffer]. *)
Definition shadow_term (shadowbuffer : list Q) (width height : Z)
    (sb_p : Q * Q * Q) : option Q :=
  let '(px, py, pz) := sb_p in
  let shadow_x := float_to_int px in
  let shadow_y := float_to_int py in
  if ((0 <=? shadow_x) && (shadow_x <? width) &&
      (0 <=? shadow_y) && (shadow_y <? height))%Z
  then
    let idx := (shadow_x + shadow_y * width)%Z in
    match vec_read shadowbuffer (to_size_t idx) with
    | Some stored =>
        Some (0.3 + 0.7 * (if Qle_bool pz (stored + shadow_bias) then 1 else 0))
    | None => None
    end
  else Some 1.

(** The fragment's remapped coordinates fall inside the shadow buffer. *)
Definition in_shadow_buffer (width height : Z) (sb_p : Q * Q * Q) : Prop :=
  (0 <= float_to_int (fst (fst sb_p)) < width /\
   0 <= float_to_int (snd (fst sb_p)) < height)%Z.

(** The light depth stored for the fragment's pixel. *)
Definition stored_depth (shadowbuffer : list Q) (width : Z) (sb_p : Q * Q * Q)
    : option Q :=
  vec_read shadowbuffer
    (to_size_t (float_to_int (fst (fst sb_p)) +
                float_to_int (snd (fst sb_p)) * width)).

(** One colour channel of the lit path. *)
Definition shade_channel (c : TGAColor) (i : Z) (shadow diff spec : Q) : Z :=
  float_to_int
    (fmin (20 + inject_Z (channel c i) * shadow * (0.8 * diff + 0.3 * spec)) 255).

(** [fragment].  The texture coordinates [uv], the texture sample [c] and
    the lighting terms [diff] and [spec] (computed with the normal map) are
    inputs; [color] is the in/out parameter. *)
Definition fragment (shadowbuffer : list Q) (width height : Z)
    (sb_p : Q * Q * Q) (uv : Q * Q) (c : TGAColor) (diff spec : Q)
    (color : TGAColor) : option TGAColor :=
  match shadow_term shadowbuffer width height sb_p with
  | None => None
  | Some shadow =>
      if Qltb (fst uv) 0 || Qltb 1 (fst uv) || Qltb (snd uv) 0 || Qltb 1 (snd uv)
      then Some (TGAColor_rgb 255 0 255)
      else if ((bgra0 c =? 0) && (bgra1 c =? 0) && (bgra2 c =? 0))%Z
      then Some (TGAColor_rgb 0 255 0)
      else
        Some (fold_left
                (fun col i => set_channel col i (shade_channel c i shadow diff spec))
                [0; 1; 2]%Z color)
  end.

(** [DepthShader::fragment], the first pass: the write to [shadowbuffer].
    [p] is the interpolated point as (x, y, depth); the grey value that the
    method also stores in [color] is left out.  [None] stands for an access
    outside [shadowbuffer]. *)
Definition depth_fragment (shadowbuffer : list Q) (width height : Z)
    (p : Q * Q * Q) : option (list Q) :=
  let '(px, py, pz) := p in
  let x := float_to_int px in
  let y := float_to_int py in
  if ((0 <=? x) && (x <? width) && (0 <=? y) && (y <? height))%Z
  then
    let idx := (x + y * width)%Z in
    match vec_read shadowbuffer (to_size_t idx) with
    | Some stored => vec_write shadowbuffer (to_size_t idx) (fmin stored pz)
    | None => None
    end
  else Some shadowbuffer.

(** The first pass over the fragments that the rasteriser produces. *)
Definition depth_pass (width height : Z) (ps : list (Q * Q * Q))
    (shadowbuffer : list Q) : option (list Q) :=
  fold_left
    (fun acc p =>
       match acc with
       | Some b => depth_fragment b width height p
       | None => None
       end) ps (Some shadowbuffer).

(** The pixel of a point, as an index of the buffer. *)
Definition pixel_index (width : Z) (p : Q * Q * Q) : Z :=
  (float_to_int (fst (fst p)) + float_to_int (snd (fst p)) * width)%Z.

(** [shadowbuffer.resize(width * height)], with the product an [int]. *)
Definition buffer_sized (shadowbuffer : list Q) (width height : Z) : Prop :=
  (0 <= width /\ 0 <= height /\ width * height < 2 ^ 31 /\
   Z.of_nat (List.length shadowbuffer) = width * height)%Z.

(** The point [p] falls on pixel [j] of the buffer. *)
Definition on_pixel (width height : Z) (j : nat) (p : Q * Q * Q) : Prop :=
  in_shadow_buffer width height p /\ Z.to_nat (pixel_index width p) = j.

End Shaders.

(* ====================================================================== *)
(** * The real-time tile scheduler: RealtimeRayTracer (raytracing.cpp) *)
(* ====================================================================== *)

Module Realtime.
Import Numerics Image.
#[local] Open Scope Z_scope.

(** The state of the scheduler.  The scene, its BVH, the camera pose and the
    blend strength are left out; [samples_per_pixel] and [max_depth] are the
    two camera settings the quality level controls. *)
Record RealtimeRayTracer : Type := mk_RealtimeRayTracer {
  rt_width : Z;
  rt_height : Z;
  tile_size : Z;
  current_tile_x : Z;
  current_tile_y : Z;
  total_tiles_x : Z;
  total_tiles_y : Z;
  is_active : bool;
  rt_framebuffer : TGAImage;
  progress_overlay : TGAImage;
  world_needs_update : bool;
  quality_level : Z;
  show_progress_overlay : bool;
  adaptive_quality : bool;
  average_frame_time : Q;
  performance_samples : Z;
  show_tile_boundaries : bool;
  samples_per_pixel : Z;
  max_depth : Z
}.

(** Field updates. *)
Definition set_cursor (x y : Z) (s : RealtimeRayTracer) : RealtimeRayTracer :=
  {| rt_width := rt_width s; rt_height := rt_height s;
     tile_size := tile_size s; current_tile_x := x; current_tile_y := y;
     total_tiles_x := total_tiles_x s; total_tiles_y := total_tiles_y s;
     is_active := is_active s; rt_framebuffer := rt_framebuffer s;
     progress_overlay := progress_overlay s;
     world_needs_update := world_needs_update s;
     quality_level := quality_level s;
     show_progress_overlay := show_progress_overlay s;
     adaptive_quality := adaptive_quality s;
     average_frame_time := average_frame_time s;
     performance_samples := performance_samples s;
     show_tile_boundaries := show_tile_boundaries s;
     samples_per_pixel := samples_per_pixel s; max_depth := max_depth s |}.

Definition set_framebuffer (fb : TGAImage) (s : RealtimeRayTracer) : RealtimeRayTracer :=
  {| rt_width := rt_width s; rt_height := rt_height s;
     tile_size := tile_size s; current_tile_x := current_tile_x s;
     current_tile_y := current_tile_y s; total_tiles_x := total_tiles_x s;
     total_tiles_y := total_tiles_y s; is_active := is_active s;
     rt_framebuffer := fb; progress_overlay := progress_overlay s;
     world_needs_update := world_needs_update s;
     quality_level := quality_level s;
     show_progress_overlay := show_progress_overlay s;
     adaptive_quality := adaptive_quality s;
     average_frame_time := average_frame_time s;
     performance_samples := performance_samples s;
     show_tile_boundaries := show_tile_boundaries s;
     samples_per_pixel := samples_per_pixel s; max_depth := max_depth s |}.

Definition set_overlay (ov : TGAImage) (s : RealtimeRayTracer) : RealtimeRayTracer :=
  {| rt_width := rt_width s; rt_height := rt_height s;
     tile_size := tile_size s; current_tile_x := current_tile_x s;
     current_tile_y := current_tile_y s; total_tiles_x := total_tiles_x s;
     total_tiles_y := total_tiles_y s; is_active := is_active s;
     rt_framebuffer := rt_framebuffer s; progress_overlay := ov;
     world_needs_update := world_needs_update s;
     quality_level := quality_level s;
     show_progress_overlay := show_progress_overlay s;
     adaptive_quality := adaptive_quality s;
     average_frame_time := average_frame_time s;
     performance_samples := performance_samples s;
     show_tile_boundaries := show_tile_boundaries s;
     samples_per_pixel := samples_per_pixel s; max_depth := max_depth s |}.

Definition set_quality_level (q : Z) (s : RealtimeRayTracer) : RealtimeRayTracer :=
  {| rt_width := rt_width s; rt_height := rt_height s;
     tile_size := tile_size s; current_tile_x := current_tile_x s;
     current_tile_y := current_tile_y s; total_tiles_x := total_tiles_x s;
     total_tiles_y := total_tiles_y s; is_active := is_active s;
     rt_framebuffer := rt_framebuffer s;
     progress_overlay := progress_overlay s;
     world_needs_update := world_needs_update s; quality_level := q;
     show_progress_overlay := show_progress_overlay s;
     adaptive_quality := adaptive_quality s;
     average_frame_time := average_frame_time s;
     performance_samples := performance_samples s;
     show_tile_boundaries := show_tile_boundaries s;
     samples_per_pixel := samples_per_pixel s; max_depth := max_depth s |}.

Definition set_settings (spp depth ts : Z) (s : RealtimeRayTracer) : RealtimeRayTracer :=
  {| rt_width := rt_width s; rt_height := rt_height s; tile_size := ts;
     current_tile_x := current_tile_x s;
     current_tile_y := current_tile_y s; total_tiles_x := total_tiles_x s;
     total_tiles_y := total_tiles_y s; is_active := is_active s;
     rt_framebuffer := rt_framebuffer s;
     progress_overlay := progress_overlay s;
     world_needs_update := world_needs_update s;
     quality_level := quality_level s;
     show_progress_overlay := show_progress_overlay s;
     adaptive_quality := adaptive_quality s;
     average_frame_time := average_frame_time s;
     performance_samples := performance_samples s;
     show_tile_boundaries := show_tile_boundaries s;
     samples_per_pixel := spp; max_depth := depth |}.

Definition set_totals (tx ty : Z) (s : RealtimeRayTracer) : RealtimeRayTracer :=
  {| rt_width := rt_width s; rt_height := rt_height s;
     tile_size := tile_size s; current_tile_x := current_tile_x s;
     current_tile_y := current_tile_y s; total_tiles_x := tx;
     total_tiles_y := ty; is_active := is_active s;
     rt_framebuffer := rt_framebuffer s;
     progress_overlay := progress_overlay s;
     world_needs_update := world_needs_update s;
     quality_level := quality_level s;
     show_progress_overlay := show_progress_overlay s;
     adaptive_quality := adaptive_quality s;
     average_frame_time := average_frame_time s;
     performance_samples := performance_samples s;
     show_tile_boundaries := show_tile_boundaries s;
     samples_per_pixel := samples_per_pixel s; max_depth := max_depth s |}.

Definition set_active (b : bool) (s : RealtimeRayTracer) : RealtimeRayTracer :=
  {| rt_width := rt_width s; rt_height := rt_height s;
     tile_size := tile_size s; current_tile_x := current_tile_x s;
     current_tile_y := current_tile_y s; total_tiles_x := total_tiles_x s;
     total_tiles_y := total_tiles_y s; is_active := b;
     rt_framebuffer := rt_framebuffer s;
     progress_overlay := progress_overlay s;
     world_needs_update := world_needs_update s;
     quality_level := quality_level s;
     show_progress_overlay := show_progress_overlay s;
     adaptive_quality := adaptive_quality s;
     average_frame_time := average_frame_time s;
     performance_samples := performance_samples s;
     show_tile_boundaries := show_tile_boundaries s;
     samples_per_pixel := samples_per_pixel s; max_depth := max_depth s |}.

Definition set_adaptive (b : bool) (s : RealtimeRayTracer) : RealtimeRayTracer :=
  {| rt_width := rt_width s; rt_height := rt_height s;
     tile_size := tile_size s; current_tile_x := current_tile_x s;
     current_tile_y := current_tile_y s; total_tiles_x := total_tiles_x s;
     total_tiles_y := total_tiles_y s; is_active := is_active s;
     rt_framebuffer := rt_framebuffer s;
     progress_overlay := progress_overlay s;
     world_needs_update := world_needs_update s;
     quality_level := quality_level s;
     show_progress_overlay := show_progress_overlay s;
     adaptive_quality := b; average_frame_time := average_frame_time s;
     performance_samples := performance_samples s;
     show_tile_boundaries := show_tile_boundaries s;
     samples_per_pixel := samples_per_pixel s; max_depth := max_depth s |}.

Definition set_show_overlay (b : bool) (s : RealtimeRayTracer) : RealtimeRayTracer :=
  {| rt_width := rt_width s; rt_height := rt_height s;
     tile_size := tile_size s; current_tile_x := current_tile_x s;
     current_tile_y := current_tile_y s; total_tiles_x := total_tiles_x s;
     total_tiles_y := total_tiles_y s; is_active := is_active s;
     rt_framebuffer := rt_framebuffer s;
     progress_overlay := progress_overlay s;
     world_needs_update := world_needs_update s;
     quality_level := quality_level s; show_progress_overlay := b;
     adaptive_quality := adaptive_quality s;
     average_frame_time := average_frame_time s;
     performance_samples := performance_samples s;
     show_tile_boundaries := show_tile_boundaries s;
     samples_per_pixel := samples_per_pixel s; max_depth := max_depth s |}.

Definition set_show_boundaries (b : bool) (s : RealtimeRayTracer) : RealtimeRayTracer :=
  {| rt_width := rt_width s; rt_height := rt_height s;
     tile_size := tile_size s; current_tile_x := current_tile_x s;
     current_tile_y := current_tile_y s; total_tiles_x := total_tiles_x s;
     total_tiles_y := total_tiles_y s; is_active := is_active s;
     rt_framebuffer := rt_framebuffer s;
     progress_overlay := progress_overlay s;
     world_needs_update := world_needs_update s;
     quality_level := quality_level s;
     show_progress_overlay := show_progress_overlay s;
     adaptive_quality := adaptive_quality s;
     average_frame_time := average_frame_time s;
     performance_samples := performance_samples s;
     show_tile_boundaries := b; samples_per_pixel := samples_per_pixel s;
     max_depth := max_depth s |}.

Definition set_world_dirty (b : bool) (s : RealtimeRayTracer) : RealtimeRayTracer :=
  {| rt_width := rt_width s; rt_height := rt_height s;
     tile_size := tile_size s; current_tile_x := current_tile_x s;
     current_tile_y := current_tile_y s; total_tiles_x := total_tiles_x s;
     total_tiles_y := total_tiles_y s; is_active := is_active s;
     rt_framebuffer := rt_framebuffer s;
     progress_overlay := progress_overlay s; world_needs_update := b;
     quality_level := quality_level s;
     show_progress_overlay := show_progress_overlay s;
     adaptive_quality := adaptive_quality s;
     average_frame_time := average_frame_time s;
     performance_samples := performance_samples s;
     show_tile_boundaries := show_tile_boundaries s;
     samples_per_pixel := samples_per_pixel s; max_depth := max_depth s |}.

Definition set_performance (avg : Q) (n : Z) (s : RealtimeRayTracer) : RealtimeRayTracer :=
  {| rt_width := rt_width s; rt_height := rt_height s;
     tile_size := tile_size s; current_tile_x := current_tile_x s;
     current_tile_y := current_tile_y s; total_tiles_x := total_tiles_x s;
     total_tiles_y := total_tiles_y s; is_active := is_active s;
     rt_framebuffer := rt_framebuffer s;
     progress_overlay := progress_overlay s;
     world_needs_update := world_needs_update s;
     quality_level := quality_level s;
     show_progress_overlay := show_progress_overlay s;
     adaptive_quality := adaptive_quality s; average_frame_time := avg;
     performance_samples := n;
     show_tile_boundaries := show_tile_boundaries s;
     samples_per_pixel := samples_per_pixel s; max_depth := max_depth s |}.

(** C++ integer division truncates. *)
Definition tiles_for (extent ts : Z) : Z := Z.quot (extent + ts - 1) ts.

Definition update_quality_settings (s : RealtimeRayTracer) : RealtimeRayTracer :=
  let s :=
    if quality_level s =? 1 then set_settings 1 2 32 s
    else if quality_level s =? 2 then set_settings 1 3 16 s
    else if quality_level s =? 3 then set_settings 2 4 8 s
    else if quality_level s =? 4 then set_settings 4 6 8 s
    else s in
  set_totals (tiles_for (rt_width s) (tile_size s))
             (tiles_for (rt_height s) (tile_size s)) s.

Definition reset_tiles (s : RealtimeRayTracer) : RealtimeRayTracer :=
  let s := set_cursor 0 0 s in
  let s := set_framebuffer (img_clear (rt_framebuffer s)) s in
  if show_progress_overlay s
  then set_overlay (img_clear (progress_overlay s)) s
  else s.

(** The constructor. *)
Definition RealtimeRayTracer_new (render_width render_height : Z)
    : RealtimeRayTracer :=
  let w := Z.quot render_width 2 in
  let h := Z.quot render_height 2 in
  update_quality_settings
    {| rt_width := w; rt_height := h; tile_size := 16;
       current_tile_x := 0; current_tile_y := 0;
       total_tiles_x := tiles_for w 16; total_tiles_y := tiles_for h 16;
       is_active := false;
       rt_framebuffer := img_clear (TGAImage_new w h);
       progress_overlay := img_clear (TGAImage_new render_width render_height);
       world_needs_update := true;
       quality_level := 2;
       show_progress_overlay := true; adaptive_quality := false;
       average_frame_time := 16.67%Q; performance_samples := 0;
       show_tile_boundaries := false;
       samples_per_pixel := 0; max_depth := 0 |}.

Definition toggle (s : RealtimeRayTracer) : RealtimeRayTracer :=
  let s := set_active (negb (is_active s)) s in
  if is_active s then reset_tiles s else s.

Definition increase_quality (s : RealtimeRayTracer) : RealtimeRayTracer :=
  if quality_level s <? 4
  then reset_tiles (update_quality_settings (set_quality_level (quality_level s + 1) s))
  else s.

Definition decrease_quality (s : RealtimeRayTracer) : RealtimeRayTracer :=
  if 1 <? quality_level s
  then reset_tiles (update_quality_settings (set_quality_level (quality_level s - 1) s))
  else s.

Definition toggle_progress_overlay (s : RealtimeRayTracer) : RealtimeRayTracer :=
  let s := set_show_overlay (negb (show_progress_overlay s)) s in
  if negb (show_progress_overlay s)
  then set_overlay (img_clear (progress_overlay s)) s
  else s.

Definition toggle_adaptive_quality (s : RealtimeRayTracer) : RealtimeRayTracer :=
  set_adaptive (negb (adaptive_quality s)) s.

Definition toggle_tile_boundaries (s : RealtimeRayTracer) : RealtimeRayTracer :=
  set_show_boundaries (negb (show_tile_boundaries s)) s.

Definition mark_scene_dirty (s : RealtimeRayTracer) : RealtimeRayTracer :=
  reset_tiles (set_world_dirty true s).

Definition advance_tile (s : RealtimeRayTracer) : RealtimeRayTracer :=
  let x := current_tile_x s + 1 in
  if total_tiles_x s <=? x then
    let y := current_tile_y s + 1 in
    if total_tiles_y s <=? y then set_cursor 0 0 s else set_cursor 0 y s
  else set_cursor x (current_tile_y s) s.

Definition update_performance_stats (tile_time : Q) (s : RealtimeRayTracer)
    : RealtimeRayTracer :=
  let n := performance_samples s + 1 in
  let alpha := (1 / inject_Z (Z.min 60 n))%Q in
  set_performance
    (average_frame_time s * (1 - alpha) + tile_time * alpha)%Q n s.

Definition target_tile_time : Q := 2.

Definition adjust_quality_based_on_performance (s : RealtimeRayTracer)
    : RealtimeRayTracer :=
  if Qltb (target_tile_time * 2) (average_frame_time s) && (1 <? quality_level s)
  then decrease_quality s
  else if Qltb (average_frame_time s) (target_tile_time * 0.5)
          && (quality_level s <? 4)
  then increase_quality s
  else s.

(** [for (int i = lo; i < hi; i++)]. *)
Definition for_range {S : Type} (lo hi : Z) (body : S -> Z -> S) (init : S) : S :=
  fold_left body (seqZ lo (hi - lo)) init.

Section Tiles.

(** The colour the path tracer computes for a pixel of the low-resolution
    buffer (camera set-up, sampling and [ray_color]). *)
Variable shade : RealtimeRayTracer -> Z -> Z -> TGAColor.

Definition ray_trace_tile_enhanced (start_x start_y end_x end_y : Z)
    (s : RealtimeRayTracer) : RealtimeRayTracer :=
  set_framebuffer
    (for_range start_y end_y
       (fun fb y =>
          for_range start_x end_x (fun fb x => img_set fb x y (shade s x y)) fb)
       (rt_framebuffer s)) s.

Definition update_progress_overlay (start_x start_y end_x end_y : Z)
    (s : RealtimeRayTracer) : RealtimeRayTracer :=
  let main_width := img_width (progress_overlay s) in
  let main_height := img_height (progress_overlay s) in
  let main_start_x := Z.quot (start_x * main_width) (rt_width s) in
  let main_start_y := Z.quot (start_y * main_height) (rt_height s) in
  let main_end_x := Z.quot (end_x * main_width) (rt_width s) in
  let main_end_y := Z.quot (end_y * main_height) (rt_height s) in
  let overlay_color := TGAColor_rgb 0 50 0 in
  let ov :=
    for_range main_start_y main_end_y
      (fun ov y =>
         for_range main_start_x main_end_x
           (fun ov x =>
              if (0 <=? x) && (x <? main_width) && (0 <=? y) && (y <? main_height)
              then img_set ov x y overlay_color else ov) ov)
      (progress_overlay s) in
  let ov :=
    if show_tile_boundaries s then
      let boundary_color := TGAColor_rgb 100 100 0 in
      let ov :=
        for_range main_start_x main_end_x
          (fun ov x =>
             let ov :=
               if (0 <=? main_start_y) && (main_start_y <? main_height)
               then img_set ov x main_start_y boundary_color else ov in
             if (0 <=? main_end_y - 1) && (main_end_y - 1 <? main_height)
             then img_set ov x (main_end_y - 1) boundary_color else ov) ov in
      for_range main_start_y main_end_y
        (fun ov y =>
           let ov :=
             if (0 <=? main_start_x) && (main_start_x <? main_width)
             then img_set ov main_start_x y boundary_color else ov in
           if (0 <=? main_end_x - 1) && (main_end_x - 1 <? main_width)
           then img_set ov (main_end_x - 1) y boundary_color else ov) ov
    else ov in
  set_overlay ov s.

(** The tile step of [render_one_tile]: trace the tile under the cursor,
    mark it in the overlay, move the cursor. *)
Definition render_tile (s : RealtimeRayTracer) : RealtimeRayTracer :=
  if current_tile_y s <? total_tiles_y s then
    let tile_start_x := current_tile_x s * tile_size s in
    let tile_start_y := current_tile_y s * tile_size s in
    let tile_end_x := Z.min (tile_start_x + tile_size s) (rt_width s) in
    let tile_end_y := Z.min (tile_start_y + tile_size s) (rt_height s) in
    let s := ray_trace_tile_enhanced tile_start_x tile_start_y
                                     tile_end_x tile_end_y s in
    let s :=
      if show_progress_overlay s
      then update_progress_overlay tile_start_x tile_start_y
                                   tile_end_x tile_end_y s
      else s in
    advance_tile s
  else s.

(** [render_one_tile]; [tile_time] is the duration the clock measures for
    the tile step, in milliseconds. *)
Definition render_one_tile (tile_time : Q) (s : RealtimeRayTracer)
    : RealtimeRayTracer :=
  if negb (is_active s) then s
  else
    let s := render_tile s in
    let s := update_performance_stats tile_time s in
    if adaptive_quality s then adjust_quality_based_on_performance s else s.

(** One call per measured tile time. *)
Definition render_tiles (tile_times : list Q) (s : RealtimeRayTracer)
    : RealtimeRayTracer :=
  fold_left (fun s t => render_one_tile t s) tile_times s.

End Tiles.

(** ** The state predicates of the scheduler *)

(** What the constructor and [update_quality_settings] establish and every
    method keeps. *)
Definition consistent (s : RealtimeRayTracer) : Prop :=
  0 < rt_width s /\ 0 < rt_height s /\ 0 < tile_size s /\
  total_tiles_x s = tiles_for (rt_width s) (tile_size s) /\
  total_tiles_y s = tiles_for (rt_height s) (tile_size s) /\
  img_width (rt_framebuffer s) = rt_width s /\
  img_height (rt_framebuffer s) = rt_height s.





(** The geometry does not change from [s] to [s']. *)
Definition same_grid (s s' : RealtimeRayTracer) : Prop :=
  rt_width s' = rt_width s /\ rt_height s' = rt_height s /\
  tile_size s' = tile_size s /\
  total_tiles_x s' = total_tiles_x s /\ total_tiles_y s' = total_tiles_y s.

(** ** The state predicates of the quality controller *)

(** The smoothing factor of the moving average after [n] samples. *)
Definition alpha (n : Z) : Q := (1 / inject_Z (Z.min 60 n))%Q.

(** A tile time above twice the target, and one below half of it. *)
Definition slow (t : Q) : Prop := (target_tile_time * 2 < t)%Q.
Definition fast (t : Q) : Prop := (t < target_tile_time * 0.5)%Q.

(** The controller is running: tracer active, adaptive quality on, level in
    range, sample counter not negative. *)
Definition controlled (s : RealtimeRayTracer) : Prop :=
  is_active s = true /\ adaptive_quality s = true /\
  1 <= quality_level s <= 4 /\ 0 <= performance_samples s.

(** The moving average is already on the side of the band the tile times
    are on (as it is at the first sample, which replaces the average). *)
Definition settled_slow (s : RealtimeRayTracer) : Prop :=
  performance_samples s = 0 \/ slow (average_frame_time s).
Definition settled_fast (s : RealtimeRayTracer) : Prop :=
  performance_samples s = 0 \/ fast (average_frame_time s).

(** ** The public interface as a sequence of calls *)

Inductive tracer_call : Type :=
| call_toggle
| call_increase_quality
| call_decrease_quality
| call_toggle_progress_overlay
| call_toggle_adaptive_quality
| call_toggle_tile_boundaries
| call_reset_tiles
| call_mark_scene_dirty
| call_render_one_tile (tile_time : Q).

Section Calls.
Variable shade : RealtimeRayTracer -> Z -> Z -> TGAColor.

Definition run_tracer_call (s : RealtimeRayTracer) (c : tracer_call)
    : RealtimeRayTracer :=
  match c with
  | call_toggle => toggle s
  | call_increase_quality => increase_quality s
  | call_decrease_quality => decrease_quality s
  | call_toggle_progress_overlay => toggle_progress_overlay s
  | call_toggle_adaptive_quality => toggle_adaptive_quality s
  | call_toggle_tile_boundaries => toggle_tile_boundaries s
  | call_reset_tiles => reset_tiles s
  | call_mark_scene_dirty => mark_scene_dirty s
  | call_render_one_tile tile_time => render_one_tile shade tile_time s
  end.

Definition run_tracer_calls (calls : list tracer_call) (s : RealtimeRayTracer)
    : RealtimeRayTracer :=
  fold_left run_tracer_call calls s.

End Calls.

(** The settings of a quality level: samples per pixel, depth, tile size. *)
Definition level_settings (level : Z) : Z * Z * Z :=
  if level =? 1 then (1, 2, 32)
  else if level =? 2 then (1, 3, 16)
  else if level =? 3 then (2, 4, 8)
  else (4, 6, 8).

(** The grid fits the buffer, the level is one of the four, the settings
    are those of the level and the cursor is on a tile of the grid. *)
Definition on_grid (s : RealtimeRayTracer) : Prop :=
  consistent s /\ 1 <= quality_level s <= 4 /\
  (samples_per_pixel s, max_depth s, tile_size s)
    = level_settings (quality_level s) /\
  0 <= current_tile_x s < total_tiles_x s /\
  0 <= current_tile_y s < total_tiles_y s.

End Realtime.

(* ====================================================================== *)
(** * Colours: ColorConversion (unified_math.h), rt_camera::write_color
      (ray_tracer_integration.h) *)
(* ====================================================================== *)

Module ColorConversion.
Import Numerics RayTracer Image.

Definition linear_to_gamma (linear_component : double) : double :=
  if dgt linear_component d0 then dsqrt linear_component else d0.

(** [static_cast<int>] of a floating-point value truncates; it is undefined
    for NaN and the infinities ([None]). *)
Definition double_to_int (a : double) : option Z :=
  match a with
  | Fin q => Some (float_to_int q)
  | _ => None
  end.

(** One channel of [rt_color_to_tga]:
    [static_cast<int>(std::max(0.0f, std::min(0.999f, r)) * 255)] with
    [r = linear_to_gamma(c)] (the cast of [r] to float rounds, which is not
    modelled). *)
Definition channel_byte (c : double) : option Z :=
  let r := linear_to_gamma c in
  double_to_int (dmul (dmax (Fin 0) (dmin (Fin 0.999) r)) (Fin 255)).

Definition rt_color_to_tga (c : rt_color) : option TGAColor :=
  match channel_byte (vx c), channel_byte (vy c), channel_byte (vz c) with
  | Some rbyte, Some gbyte, Some bbyte => Some (TGAColor_rgb rbyte gbyte bbyte)
  | _, _, _ => None
  end.



(** A component that is not a positive number: zero, negative or NaN. *)
Definition not_positive (c : double) : Prop := dgt c d0 = false.

End ColorConversion.

(* ====================================================================== *)
(** * One pixel of the real-time path tracer and the blend into the
      framebuffer (raytracing.cpp) *)
(* ====================================================================== *)

Module PathTracer.
Import Numerics RayTracer Image ColorConversion Realtime.

Section Pixel.
Context {rng : Type}.

(** The primary ray of sample [sample] of pixel (x, y): the camera set-up
    of [ray_trace_tile_enhanced] (which uses [std::tan]) and the jitter
    drawn from [random_double] are a parameter. *)
Variable primary_ray : Z -> Z -> Z -> rng -> rt_ray * rng.

(** The loop over the samples of one pixel. *)
Fixpoint sample_loop (bvh_world : option (@rt_bvh rng)) (max_depth : Z)
    (x y : Z) (samples : list Z) (pixel_color : rt_color) (g : rng)
    : rt_color * rng :=
  match samples with
  | [] => (pixel_color, g)
  | sample :: samples' =>
      let (r, g) := primary_ray x y sample g in
      let (c, g) := ray_color bvh_world r max_depth g in
      sample_loop bvh_world max_depth x y samples' (vadd pixel_color c) g
  end.

(** The body of the pixel loop of [ray_trace_tile_enhanced]: the colour
    that is stored at (x, y). *)
Definition trace_pixel (bvh_world : option (@rt_bvh rng))
    (samples_per_pixel max_depth : Z) (x y : Z) (g : rng)
    : option TGAColor * rng :=
  let (pixel_color, g) :=
    sample_loop bvh_world max_depth x y (seqZ 0 samples_per_pixel) black g in
  let pixel_color := vdiv pixel_color (Fin (inject_Z samples_per_pixel)) in
  (rt_color_to_tga pixel_color, g).

End Pixel.

(** ** blend_with_framebuffer *)

(** [has_rt_data]: one of the three colour channels is above 0. *)
Definition has_data (c : TGAColor) : bool :=
  (0 <? channel c 0) || (0 <? channel c 1) || (0 <? channel c 2).

(** [int(rt * current_blend + raster * (1.0f - current_blend))]. *)
Definition blend_channel (rt raster : Z) (current_blend : Q) : Z :=
  float_to_int
    (inject_Z rt * current_blend + inject_Z raster * (1 - current_blend))%Q.

(** The body of the two loops for the pixel (x, y) of the main
    framebuffer.  [blend_strength] is a field of the tracer that the record
    of the scheduler above leaves out; it is passed in. *)
Definition blend_pixel (blend_strength : Q) (s : RealtimeRayTracer)
    (main_framebuffer : TGAImage) (x y : Z) : TGAImage :=
  let main_width := img_width main_framebuffer in
  let main_height := img_height main_framebuffer in
  let rt_x := Z.quot (x * rt_width s) main_width in
  let rt_y := Z.quot (y * rt_height s) main_height in
  let rt_x := Z.max 0 (Z.min (rt_width s - 1) rt_x) in
  let rt_y := Z.max 0 (Z.min (rt_height s - 1) rt_y) in
  let rt_color := img_get (rt_framebuffer s) rt_x rt_y in
  let raster_color := img_get main_framebuffer x y in
  let main_framebuffer :=
    if has_data rt_color then
      let current_blend :=
        if quality_level s =? 1 then (blend_strength * 0.6)%Q
        else blend_strength in
      img_set main_framebuffer x y
        (TGAColor_rgb
           (blend_channel (channel rt_color 2) (channel raster_color 2)
                          current_blend)
           (blend_channel (channel rt_color 1) (channel raster_color 1)
                          current_blend)
           (blend_channel (channel rt_color 0) (channel raster_color 0)
                          current_blend))
    else main_framebuffer in
  if show_progress_overlay s then
    let overlay_color := img_get (progress_overlay s) x y in
    if has_data overlay_color then
      let current_color := img_get main_framebuffer x y in
      img_set main_framebuffer x y
        (TGAColor_rgb
           (Z.min 255 (channel current_color 2
                       + Z.quot (channel overlay_color 2) 4))
           (Z.min 255 (channel current_color 1
                       + Z.quot (channel overlay_color 1) 4))
           (Z.min 255 (channel current_color 0
                       + Z.quot (channel overlay_color 0) 4)))
    else main_framebuffer
  else main_framebuffer.

Definition blend_with_framebuffer (blend_strength : Q) (s : RealtimeRayTracer)
    (main_framebuffer : TGAImage) : TGAImage :=
  if negb (is_active s) then main_framebuffer
  else
    for_range 0 (img_height main_framebuffer)
      (fun fb y =>
         for_range 0 (img_width main_framebuffer)
           (fun fb x => blend_pixel blend_strength s fb x y) fb)
      main_framebuffer.

(** [adjust_blend_strength] on the blend strength. *)
Definition adjust_blend_strength (blend_strength delta : Q) : Q :=
  fmax 0 (fmin 1 (blend_strength + delta)).

(** The three colour channels are bytes. *)
Definition byte_color (c : TGAColor) : Prop :=
  0 <= channel c 0 <= 255 /\ 0 <= channel c 1 <= 255 /\ 0 <= channel c 2 <= 255.

(** Every pixel of the image has byte channels. *)
Definition all_bytes (img : TGAImage) : Prop :=
  forall x y, byte_color (img_get img x y).

End PathTracer.

(* ====================================================================== *)
(** * The animation clock: Animation (Engine.h) *)
(* ====================================================================== *)

Module Animation.
Import Numerics.
#[local] Open Scope Q_scope.

Record Animation : Type := mk_Animation {
  duration : Q;
  loop : bool;
  playing : bool;
  currentTime : Q
}.

(** The constructor, with its defaults spelled out by the caller. *)
Definition Animation_new (dur : Q) (shouldLoop : bool) : Animation :=
  mk_Animation dur shouldLoop false 0.

Definition play (a : Animation) : Animation :=
  mk_Animation (duration a) (loop a) true 0.

Definition pause (a : Animation) : Animation :=
  mk_Animation (duration a) (loop a) false (currentTime a).

Definition stop (a : Animation) : Animation :=
  mk_Animation (duration a) (loop a) false 0.

(** C [fmod] for a divisor that is not zero: what is left of [x] after the
    whole multiples of [y], with the quotient truncated towards zero. *)
Definition fmod (x y : Q) : Q := x - inject_Z (float_to_int (x / y)) * y.

Definition update (deltaTime : Q) (a : Animation) : Animation :=
  if negb (playing a) then a
  else
    let t := currentTime a + deltaTime in
    if Qle_bool (duration a) t then
      if loop a then mk_Animation (duration a) (loop a) (playing a)
                                  (fmod t (duration a))
      else mk_Animation (duration a) (loop a) false (duration a)
    else mk_Animation (duration a) (loop a) (playing a) t.

Definition getProgress (a : Animation) : Q := currentTime a / duration a.

(** The calls of the interface. *)
Inductive clock_call : Type :=
| call_play
| call_pause
| call_stop
| call_update (deltaTime : Q).

Definition run_clock_call (a : Animation) (c : clock_call) : Animation :=
  match c with
  | call_play => play a
  | call_pause => pause a
  | call_stop => stop a
  | call_update deltaTime => update deltaTime a
  end.

Definition run_clock_calls (calls : list clock_call) (a : Animation)
    : Animation :=
  fold_left run_clock_call calls a.

(** Time does not run backwards. *)
Definition forward_call (c : clock_call) : Prop :=
  match c with
  | call_update deltaTime => 0 <= deltaTime
  | _ => True
  end.

End Animation.

(* ====================================================================== *)
(** * Concrete inputs *)
(* ====================================================================== *)

Module Examples.
Import Numerics.

(** ** Ray tracer *)
Section RayTracerInputs.
Import RayTracer.

Definition V (a b c : Q) : rt_vec3 := mk_vec3 (Fin a) (Fin b) (Fin c).

(** A sampler that always draws the same direction, on a generator without
    state. *)
Definition fixed_sampler (g : unit) : rt_vec3 * unit := (V 0 0 1, g).

Definition matte : @rt_material unit :=
  rt_lambertian fixed_sampler (V 0.7 0.3 0.3).

(** A material that absorbs every ray. *)
Definition absorber : @rt_material unit :=
  mk_material (fun _ _ _ g => (None, g)).

(** A triangle with a vertex on the corner (0,0,0) of its bounding box and
    a ray that touches the box in that corner only. *)
Definition corner_triangle : @rt_triangle unit :=
  rt_triangle_new (V 0 0 0) (V 1 0 1) (V 0 1 1) matte.
Definition corner_ray : rt_ray := mk_ray (V (-1) 1 (-1)) (V 1 (-1) 1).


(** A sphere of radius zero, a ray through its centre and one beside it. *)
Definition point_sphere : @rt_sphere unit :=
  mk_rt_sphere (V 0 0 5) (Fin 0) matte.
Definition axis_ray : rt_ray := mk_ray (V 0 0 0) (V 0 0 1).

(** A wall across the z axis at distance 2, and the world that holds it. *)
Definition wall (m : @rt_material unit) : @rt_triangle unit :=
  rt_triangle_new (V (-1) (-1) 2) (V 3 (-1) 2) (V (-1) 3 2) m.
Definition wall_world (m : @rt_material unit) : option (@rt_bvh unit) :=
  Some (build_bvh [Triangle (wall m)]).
Definition back_ray : rt_ray := mk_ray (V 0 0 0) (V 0 0 (-1)).

(** A second wall behind the first one, at distance 5, and the two in a
    list with the far one first. *)
Definition far_wall (m : @rt_material unit) : @rt_triangle unit :=
  rt_triangle_new (V (-1) (-1) 5) (V 3 (-1) 5) (V (-1) 3 5) m.
Definition two_walls : list (@rt_hittable unit) :=
  [Triangle (far_wall matte); Triangle (wall matte)].

End RayTracerInputs.

(** ** Mesh *)
Section MeshInputs.
Import Mesh.
#[local] Open Scope Q_scope.
#[local] Open Scope string_scope.

Definition two_verts : Model :=
  mk_Model [mk_Vec3f 0 0 0; mk_Vec3f 1 1 1] [mk_Vec3f 0 0 0; mk_Vec3f 1 1 1]
           true ∅ ∅.

Definition smile_target : list Vec3f := [mk_Vec3f 0 1 0; mk_Vec3f 1 2 1].

(** The model with the shape "smile" at the weight that [setBlendWeight]
    makes of 5. *)
Definition smiling : Model :=
  setBlendWeight (addBlendShape two_verts "smile" smile_target) "smile" 5.

(** A mesh of two vertices as the constructor leaves it, and a session on
    it: a vertex is moved, the pose is saved as "raised", the mesh goes back
    to neutral and is then blended half-way. *)
Definition loaded_mesh : Model :=
  Model_new (Some [mk_Vec3f 0 0 0; mk_Vec3f 1 1 1]).

Definition editing_session : list mesh_call :=
  [call_setVertex 1 (mk_Vec3f 1 3 1);
   call_saveCurrentStateAsBlendShape "raised";
   call_setVertex 7 (mk_Vec3f 9 9 9);
   call_clearAllBlendWeights;
   call_setBlendWeight "raised" 0.5;
   call_applyBlendShapes].

(** The model with the shapes "smile" and "frown". *)
Definition two_shapes : Model :=
  addBlendShape (addBlendShape two_verts "smile" smile_target)
    "frown" [mk_Vec3f 0 (-1) 0; mk_Vec3f 1 0 1].

End MeshInputs.

(** ** Scene graph *)
Section SceneInputs.
Import SceneGraph.
#[local] Open Scope string_scope.

(** A node "head" holding a child "jaw", and a node "lamp"; "jaw" is
    selected. *)
Definition example_scene : Scene :=
  let jaw := SceneNode_new 3 "jaw" in
  let head := addChild (SceneNode_new 2 "head") jaw in
  let lamp := SceneNode_new 4 "lamp" in
  let root := addChild (addChild (SceneNode_new 1 "Root") head) lamp in
  mk_Scene root (Some 3%positive) 3.

(** The node "head" of the example scene, as the root holds it. *)
Definition example_head : SceneNode :=
  set_parent (Some 1%positive)
    (addChild (SceneNode_new 2 "head") (SceneNode_new 3 "jaw")).

(** The example scene with two more nodes named "head_1" and "head_2". *)
Definition crowded_scene : Scene :=
  mk_Scene (addChild (addChild (rootNode example_scene)
                               (SceneNode_new 5 "head_1"))
                     (SceneNode_new 6 "head_2"))
           (Some 3%positive) 3.

End SceneInputs.

(** ** Shadow buffer *)

(** A 2x2 shadow buffer. *)
Definition example_shadowbuffer : list Q := [100; 60; 100; 100]%Q.

(** Two fragments of the depth pass on pixel (1, 0) and one on (0, 1). *)
Definition depth_fragments : list (Q * Q * Q) :=
  [(1.5, 0.2, 80); (1.1, 0.9, 70); (0.3, 1.4, 90)]%Q.

(** ** Tile scheduler *)
Section RealtimeInputs.
Import Image Realtime.

Definition flat_shade (s : RealtimeRayTracer) (x y : Z) : TGAColor :=
  TGAColor_rgb 128 128 128.

(** A 64x64 render target: a 32x32 ray-traced buffer in 2x2 tiles of 16. *)
Definition fresh_tracer : RealtimeRayTracer :=
  toggle (RealtimeRayTracer_new 64 64).

Definition adaptive_tracer : RealtimeRayTracer :=
  toggle_adaptive_quality fresh_tracer.

(** Five fast tiles with adaptive quality off, then adaptive quality is
    switched on. *)
Definition lagging_tracer : RealtimeRayTracer :=
  toggle_adaptive_quality
    (render_tiles flat_shade [0.1; 0.1; 0.1; 0.1; 0.1]%Q fresh_tracer).

(** A session: the tracer is switched on, renders, the quality is raised by
    hand and adaptive quality takes over. *)
Definition tracer_session : list tracer_call :=
  [call_toggle; call_render_one_tile 3; call_increase_quality;
   call_render_one_tile 3; call_toggle_adaptive_quality;
   call_render_one_tile 9; call_render_one_tile 9; call_mark_scene_dirty;
   call_render_one_tile 0.2]%Q.

End RealtimeInputs.

(** ** Animation clock *)
Section AnimationInputs.
Import Animation.

(** A looping clock of 2 seconds driven for 0.75 s, 0.75 s and 3.25 s. *)
Definition clock_session : list clock_call :=
  [call_play; call_update 0.75; call_update 0.75; call_pause;
   call_update 10; call_play; call_update 4.75]%Q.

End AnimationInputs.

End Examples.

(* ====================================================================== *)
(** * Facts about the numeric model *)
(* ====================================================================== *)

Module NumericsFacts.
Import Numerics.

Lemma Qltb_true a b : Qltb a b = true <-> (a < b)%Q.
Proof.
  unfold Qltb. rewrite negb_true_iff. split.
  - intros H. apply Qnot_le_lt. intros Hle.
    apply Qle_bool_iff in Hle. congruence.
  - intros H. destruct (Qle_bool b a) eqn:E; [ | reflexivity ].
    apply Qle_bool_iff in E. lra.
Qed.

Lemma Qltb_false a b : Qltb a b = false <-> (b <= a)%Q.
Proof.
  unfold Qltb. rewrite negb_false_iff. apply Qle_bool_iff.
Qed.

Lemma to_size_t_nonneg_int i : is_int i -> 0 <= i -> to_size_t i = i.
Proof.
  unfold is_int, to_size_t. intros Hi Hpos.
  apply Z.mod_small. lia.
Qed.

Lemma vec_write_in_range {A} (v : list A) i x :
  0 <= i < Z.of_nat (List.length v) -> is_Some (vec_write v i x).
Proof.
  intros [Hlo Hhi]. unfold vec_write.
  apply Z.leb_le in Hlo. apply Z.ltb_lt in Hhi.
  rewrite Hlo, Hhi. simpl. eauto.
Qed.

Lemma vec_read_in_range {A} (v : list A) i :
  0 <= i < Z.of_nat (List.length v) -> is_Some (vec_read v i).
Proof.
  intros [Hlo Hhi]. unfold vec_read.
  assert (Hn : (Z.to_nat i < List.length v)%nat) by lia.
  apply Z.leb_le in Hlo. apply Z.ltb_lt in Hhi.
  rewrite Hlo, Hhi. simpl. apply lookup_lt_is_Some_2. exact Hn.
Qed.

End NumericsFacts.

(* ====================================================================== *)
(** * The mesh store *)
(* ====================================================================== *)

Module MeshFacts.
Import Numerics NumericsFacts Mesh Examples.
#[local] Open Scope Q_scope.

(** ** Vertex access *)

(** The guard of [setVertex] and [updateVertex] holds exactly for the
    indices of the vertex array. *)
Lemma vertex_guard m i :
  is_int i ->
  ((0 <=? i) && (to_size_t i <? Z.of_nat (List.length (verts_ m))))%Z = true <->
  (0 <= i < Z.of_nat (List.length (verts_ m)))%Z.
Proof.
  intros Hi. rewrite andb_true_iff, Z.leb_le, Z.ltb_lt. split.
  - intros [Hpos Hlt]. rewrite to_size_t_nonneg_int in Hlt by assumption. lia.
  - intros [Hpos Hlt]. rewrite to_size_t_nonneg_int by assumption. lia.
Qed.

(** C10.  For every [int] index, [setVertex] and [updateVertex] never read
    or write outside the vertex array (they always return a model), and for
    an index below 0 or not below the number of vertices they return the
    model unchanged. *)
Theorem vertex_access_bounds_checked (m : Model) (i : Z) (p : Vec3f) :
  is_int i ->
  (is_Some (setVertex m i p) /\ is_Some (updateVertex m i p)) /\
  ((i < 0 \/ Z.of_nat (List.length (verts_ m)) <= i)%Z ->
   setVertex m i p = Some m /\ updateVertex m i p = Some m).
Proof.
  intros Hi. pose proof (vertex_guard m i Hi) as Hg.
  unfold setVertex, updateVertex.
  destruct ((0 <=? i) && (to_size_t i <? Z.of_nat (List.length (verts_ m))))%Z
    eqn:Hguard.
  - assert (Hin : (0 <= i < Z.of_nat (List.length (verts_ m)))%Z)
      by (apply Hg; reflexivity).
    assert (Hsz : to_size_t i = i)
      by (apply to_size_t_nonneg_int; [ assumption | lia ]).
    rewrite Hsz. split; [ | lia ].
    destruct (vec_read_in_range (verts_ m) i Hin) as [old Hold].
    rewrite Hold.
    destruct (vec_write_in_range (verts_ m) i p Hin) as [v Hv].
    destruct (vec_write_in_range (verts_ m) i (vec_add old p) Hin) as [v' Hv'].
    rewrite Hv, Hv'. split; eauto.
  - split; [ split; eauto | intros _; split; reflexivity ].
Qed.

Lemma vertex_access_bounds_checked_witness :
  setVertex two_verts 5 (mk_Vec3f 2 2 2) = Some two_verts /\
  updateVertex two_verts (-1) (mk_Vec3f 2 2 2) = Some two_verts.
Proof.
  split.
  - apply (vertex_access_bounds_checked two_verts 5 (mk_Vec3f 2 2 2)).
    + unfold is_int. lia.
    + right. simpl. lia.
  - apply (vertex_access_bounds_checked two_verts (-1) (mk_Vec3f 2 2 2)).
    + unfold is_int. lia.
    + left. lia.
Defined.

(** For an [int] index inside the array, [setVertex] replaces exactly
    that vertex and [updateVertex] adds the offset to exactly that vertex. *)
Theorem vertex_access_in_range (m : Model) (i : Z) (p : Vec3f) :
  is_int i -> (0 <= i < Z.of_nat (List.length (verts_ m)))%Z ->
  exists old,
    verts_ m !! Z.to_nat i = Some old /\
    setVertex m i p = Some (set_verts m (<[Z.to_nat i := p]> (verts_ m))) /\
    updateVertex m i p =
      Some (set_verts m (<[Z.to_nat i := vec_add old p]> (verts_ m))).
Proof.
  intros Hi Hin.
  assert (Hguard : ((0 <=? i) &&
            (to_size_t i <? Z.of_nat (List.length (verts_ m))))%Z = true)
    by (apply vertex_guard; assumption).
  assert (Hsz : to_size_t i = i)
    by (apply to_size_t_nonneg_int; [ assumption | lia ]).
  destruct (lookup_lt_is_Some_2 (verts_ m) (Z.to_nat i)) as [old Hold]; [ lia | ].
  exists old. unfold setVertex, updateVertex. rewrite Hguard, Hsz.
  unfold vec_read, vec_write. rewrite Hsz in Hguard. rewrite Hguard, Hold.
  repeat split; reflexivity.
Qed.

Lemma vertex_access_in_range_witness :
  setVertex two_verts 1 (mk_Vec3f 2 2 2) =
  Some (set_verts two_verts (<[1%nat := mk_Vec3f 2 2 2]> (verts_ two_verts))).
Proof.
  destruct (vertex_access_in_range two_verts 1 (mk_Vec3f 2 2 2))
    as (old & _ & Hset & _).
  - unfold is_int. lia.
  - simpl. lia.
  - exact Hset.
Defined.

(** An index inside the array is written. *)
Example setVertex_in_range :
  setVertex two_verts 1 (mk_Vec3f 2 2 2) =
  Some (mk_Model [mk_Vec3f 0 0 0; mk_Vec3f 2 2 2]
                 [mk_Vec3f 0 0 0; mk_Vec3f 1 1 1] true ∅ ∅).
Proof. reflexivity. Qed.

(** ** Blend shapes *)

(** C9.  A target whose size differs from the vertex count is rejected: the
    model comes back as it was, blend shapes, weights and vertices
    included. *)
Theorem addBlendShape_rejects_size_mismatch (m : Model) (name : string)
    (targetVertices : list Vec3f) :
  List.length targetVertices <> List.length (verts_ m) ->
  addBlendShape m name targetVertices = m /\
  blendShapes (addBlendShape m name targetVertices) = blendShapes m /\
  blendWeights (addBlendShape m name targetVertices) = blendWeights m /\
  verts_ (addBlendShape m name targetVertices) = verts_ m.
Proof.
  intros Hne. unfold addBlendShape.
  apply Nat.eqb_neq in Hne. rewrite Hne. simpl. auto.
Qed.

Lemma addBlendShape_rejects_size_mismatch_witness :
  addBlendShape two_verts "smile" [mk_Vec3f 1 0 0] = two_verts.
Proof.
  apply (addBlendShape_rejects_size_mismatch two_verts "smile" [mk_Vec3f 1 0 0]).
  simpl. lia.
Defined.

(** The clamp of [setBlendWeight]. *)
Lemma clamp_unit (w : Q) : 0 <= fmax 0 (fmin 1 w) <= 1.
Proof.
  unfold fmax, fmin.
  destruct (Qltb w 1) eqn:E1.
  - apply Qltb_true in E1.
    destruct (Qltb 0 w) eqn:E2.
    + apply Qltb_true in E2. lra.
    + lra.
  - destruct (Qltb 0 1) eqn:E2; [ lra | ].
    apply Qltb_false in E2. lra.
Qed.

Lemma setBlendWeight_clamped m name w :
  weights_clamped m -> weights_clamped (setBlendWeight m name w).
Proof.
  intros Hm n x. unfold setBlendWeight.
  destruct (blendShapes m !! name); [ | apply Hm ].
  simpl. destruct (decide (name = n)) as [-> | Hne].
  - rewrite lookup_insert_eq. intros [= <-]. apply clamp_unit.
  - rewrite lookup_insert_ne by assumption. apply Hm.
Qed.

Lemma addBlendShape_clamped m name target :
  weights_clamped m -> weights_clamped (addBlendShape m name target).
Proof.
  intros Hm n x. unfold addBlendShape.
  destruct (negb _); [ apply Hm | ].
  simpl. destruct (decide (name = n)) as [-> | Hne].
  - rewrite lookup_insert_eq. intros [= <-]. lra.
  - rewrite lookup_insert_ne by assumption. apply Hm.
Qed.

Lemma idle_weight weights name :
  idle weights name -> Qltb 0 (default 0 (weights !! name)) = false.
Proof.
  intros H. apply Qltb_false.
  destruct (weights !! name) as [w | ] eqn:E; simpl.
  - apply H. exact E.
  - lra.
Qed.

Lemma blend_all_idle orig weights shapes verts :
  Forall (fun s => idle weights (fst s)) shapes ->
  blend_all orig weights shapes verts = Some verts.
Proof.
  induction 1 as [ | [name target] shapes Hidle _ IH ]; simpl.
  - reflexivity.
  - simpl in Hidle. rewrite (idle_weight _ _ Hidle). exact IH.
Qed.






(** The model of the witness, evaluated: the weight 5 is stored as 1 and
    the vertices land on the target; set back to -3 the weight is stored as
    0 and the vertices are the original ones. *)
Example smiling_applied :
  (verts_ <$> applyBlendShapes smiling)
  = Some [mk_Vec3f (0 + (0 - 0) * 1) (0 + (1 - 0) * 1) (0 + (0 - 0) * 1);
          mk_Vec3f (1 + (1 - 1) * 1) (1 + (2 - 1) * 1) (1 + (1 - 1) * 1)] /\
  (verts_ <$> applyBlendShapes (setBlendWeight smiling "smile" (-3)))
  = Some [mk_Vec3f 0 0 0; mk_Vec3f 1 1 1].
Proof. split; reflexivity. Qed.

End MeshFacts.

(* ====================================================================== *)
(** * The scene graph *)
(* ====================================================================== *)

Module SceneFacts.
Import SceneGraph Examples.
#[local] Open Scope string_scope.

(** [removeChild] and [removeChild_at] rebuild a node around a new list of
    children: address, name and parent pointer stay. *)
Lemma removeChild_at_header pid childName n :
  node_id (removeChild_at pid childName n) = node_id n /\
  name (removeChild_at pid childName n) = name n /\
  parent (removeChild_at pid childName n) = parent n.
Proof.
  destruct n as [i s v sel p cs]. simpl.
  destruct (Pos.eqb i pid).
  - unfold removeChild. simpl.
    destruct (remove_first childName cs). simpl. auto.
  - simpl. auto.
Qed.

Lemma deleteNode_root_header s nodeName :
  node_id (rootNode (snd (deleteNode s nodeName))) = node_id (rootNode s) /\
  name (rootNode (snd (deleteNode s nodeName))) = name (rootNode s) /\
  parent (rootNode (snd (deleteNode s nodeName))) = parent (rootNode s).
Proof.
  unfold deleteNode.
  destruct (String.eqb nodeName "Root"); [ simpl; auto | ].
  destruct (findNode s nodeName) as [node | ]; [ | simpl; auto ].
  destruct (parent node) as [pid | ]; [ | simpl; auto ].
  simpl. apply removeChild_at_header.
Qed.

Lemma deleteNodes_root_header names : forall s,
  node_id (rootNode (deleteNodes names s)) = node_id (rootNode s) /\
  name (rootNode (deleteNodes names s)) = name (rootNode s) /\
  parent (rootNode (deleteNodes names s)) = parent (rootNode s).
Proof.
  induction names as [ | n names IH ]; intros s.
  - simpl. auto.
  - unfold deleteNodes in *. simpl.
    destruct (IH (snd (deleteNode s n))) as (Hi & Hn & Hp).
    destruct (deleteNode_root_header s n) as (Hi' & Hn' & Hp').
    rewrite Hi, Hn, Hp. auto.
Qed.

(** C8.  In a scene whose root is named "Root" and has no parent,
    [deleteNode] returns false and the scene unchanged for the name "Root",
    for a name that no node has, and for any name that resolves to the
    root; and after any sequence of [deleteNode] calls the root is the same
    node, still named "Root" and still without a parent. *)
Theorem deleteNode_rejects_root_and_unknown (s : Scene) :
  name (rootNode s) = "Root" ->
  parent (rootNode s) = None ->
  deleteNode s "Root" = (false, s) /\
  (forall nodeName, findNode s nodeName = None ->
     deleteNode s nodeName = (false, s)) /\
  (forall nodeName, findNode s nodeName = Some (rootNode s) ->
     deleteNode s nodeName = (false, s)) /\
  (forall names,
     node_id (rootNode (deleteNodes names s)) = node_id (rootNode s) /\
     name (rootNode (deleteNodes names s)) = "Root" /\
     parent (rootNode (deleteNodes names s)) = None).
Proof.
  intros Hname Hparent. split; [ | split; [ | split ] ].
  - reflexivity.
  - intros nodeName Hfind. unfold deleteNode. rewrite Hfind.
    destruct (String.eqb nodeName "Root"); reflexivity.
  - intros nodeName Hfind. unfold deleteNode. rewrite Hfind, Hparent.
    destruct (String.eqb nodeName "Root"); reflexivity.
  - intros names.
    destruct (deleteNodes_root_header names s) as (Hi & Hn & Hp).
    rewrite Hi, Hn, Hp. auto.
Qed.

Lemma deleteNode_rejects_root_and_unknown_witness :
  deleteNode example_scene "Root" = (false, example_scene) /\
  deleteNode example_scene "tail" = (false, example_scene) /\
  name (rootNode (deleteNodes ["head"; "Root"; "lamp"; "jaw"] example_scene))
  = "Root".
Proof.
  pose proof (deleteNode_rejects_root_and_unknown example_scene eq_refl eq_refl)
    as (Hroot & Hunknown & _ & Hseq).
  split; [ exact Hroot | split ].
  - apply Hunknown. reflexivity.
  - apply (Hseq ["head"; "Root"; "lamp"; "jaw"]).
Defined.

(** A node that exists and is not the root is removed with its subtree. *)
Example deleteNode_removes_subtree :
  deleteNode example_scene "head" =
  (true, mk_Scene (mk_SceneNode 1 "Root" true false None
                     [mk_SceneNode 4 "lamp" true false (Some 1%positive) []])
                  (Some 3%positive) 3).
Proof. reflexivity. Qed.

End SceneFacts.

(* ====================================================================== *)
(** * The second-pass shader *)
(* ====================================================================== *)

Module ShaderFacts.
Import Numerics NumericsFacts Image Shaders Examples.
#[local] Open Scope Q_scope.

Lemma shadow_term_inside shadowbuffer width height sb_p stored :
  in_shadow_buffer width height sb_p ->
  stored_depth shadowbuffer width sb_p = Some stored ->
  shadow_term shadowbuffer width height sb_p =
  Some (0.3 + 0.7 * (if Qle_bool (snd sb_p) (stored + shadow_bias) then 1 else 0)).
Proof.
  destruct sb_p as [[px py] pz]. unfold in_shadow_buffer, stored_depth. simpl.
  intros [[Hx0 Hx1] [Hy0 Hy1]] Hstored.
  apply Z.leb_le in Hx0, Hy0. apply Z.ltb_lt in Hx1, Hy1.
  rewrite Hx0, Hx1, Hy0, Hy1. simpl. rewrite Hstored. reflexivity.
Qed.

(** The lit path of [fragment]: texture coordinates inside the unit square
    and a texture sample that is not black. *)
Lemma fragment_lit shadowbuffer width height sb_p shadow uv c diff spec color :
  shadow_term shadowbuffer width height sb_p = Some shadow ->
  0 <= fst uv <= 1 -> 0 <= snd uv <= 1 ->
  (bgra0 c <> 0 \/ bgra1 c <> 0 \/ bgra2 c <> 0)%Z ->
  exists out,
    fragment shadowbuffer width height sb_p uv c diff spec color = Some out /\
    forall i, (0 <= i < 3)%Z ->
      channel out i = shade_channel c i shadow diff spec.
Proof.
  intros Hterm [Hu0 Hu1] [Hv0 Hv1] Hc. unfold fragment. rewrite Hterm.
  assert (E1 : Qltb (fst uv) 0 = false) by (apply Qltb_false; assumption).
  assert (E2 : Qltb 1 (fst uv) = false) by (apply Qltb_false; assumption).
  assert (E3 : Qltb (snd uv) 0 = false) by (apply Qltb_false; assumption).
  assert (E4 : Qltb 1 (snd uv) = false) by (apply Qltb_false; assumption).
  rewrite E1, E2, E3, E4. simpl.
  assert (E5 : ((bgra0 c =? 0) && (bgra1 c =? 0) && (bgra2 c =? 0))%Z = false).
  { rewrite !andb_false_iff, !Z.eqb_neq. tauto. }
  rewrite E5. eexists. split; [ reflexivity | ].
  intros i Hi.
  assert (Hcases : (i = 0 \/ i = 1 \/ i = 2)%Z) by lia.
  destruct Hcases as [-> | [-> | ->]]; reflexivity.
Qed.



(** The same pixel with the fragment within the bias of the stored depth:
    fully lit, and the channels of the colour. *)
Example lit_fragment :
  fragment example_shadowbuffer 2 2 (1.5, 0.25, 103.34) (0.5, 0.5)
           (TGAColor_rgb 200 100 50) 1 0 (TGAColor_rgb 0 0 0)
  = Some (TGAColor_rgb 180 100 60).
Proof. reflexivity. Qed.

Example shadowed_fragment :
  fragment example_shadowbuffer 2 2 (1.5, 0.25, 103.35) (0.5, 0.5)
           (TGAColor_rgb 200 100 50) 1 0 (TGAColor_rgb 0 0 0)
  = Some (TGAColor_rgb 68 44 32).
Proof. reflexivity. Qed.

End ShaderFacts.

(* ====================================================================== *)
(** * The tile scheduler *)
(* ====================================================================== *)

Module TileFacts.
Import Numerics NumericsFacts Image Realtime Examples.

Lemma extends_refl a : extends a a.
Proof. unfold extends. auto. Qed.

Lemma extends_trans a b c : extends a b -> extends b c -> extends a c.
Proof.
  unfold extends. intros (Hw & Hh & Hab) (Hw' & Hh' & Hbc).
  repeat split; try congruence. auto.
Qed.

Lemma in_image_extends a b x y :
  extends a b -> in_image b x y = in_image a x y.
Proof.
  intros (Hw & Hh & _). unfold in_image. rewrite Hw, Hh. reflexivity.
Qed.

Lemma img_set_extends img x y c : extends img (img_set img x y c).
Proof.
  unfold extends, img_set. destruct (in_image img x y); simpl.
  - repeat split; try reflexivity. intros x' y'. unfold written. simpl.
    destruct (decide ((x, y) = (x', y'))) as [<- | Hne].
    + rewrite lookup_insert_eq. eauto.
    + rewrite lookup_insert_ne by assumption. auto.
  - auto.
Qed.

Lemma img_set_written img x y c :
  in_image img x y = true -> written (img_set img x y c) x y.
Proof.
  intros Hin. unfold img_set, written. rewrite Hin. simpl.
  rewrite lookup_insert_eq. eauto.
Qed.

(** One row of a tile: the inner loop over [x]. *)
Lemma row_written (col : Z -> TGAColor) (y : Z) (xs : list Z) : forall img,
  let img' := fold_left (fun fb x => img_set fb x y (col x)) xs img in
  extends img img' /\
  forall x, x ∈ xs -> in_image img x y = true -> written img' x y.
Proof.
  induction xs as [ | a xs IH ]; intros img; cbv zeta; simpl.
  - split; [ apply extends_refl | ]. intros x Hx. inversion Hx.
  - destruct (IH (img_set img a y (col a))) as [Hext Hw].
    pose proof (img_set_extends img a y (col a)) as Hstep.
    split; [ eapply extends_trans; eassumption | ].
    intros x Hx Hin. apply elem_of_cons in Hx as [-> | Hx].
    + destruct Hext as (_ & _ & Hkeep). apply Hkeep.
      apply img_set_written. exact Hin.
    + apply Hw; [ exact Hx | ].
      rewrite (in_image_extends _ _ _ _ Hstep). exact Hin.
Qed.

(** A tile: the outer loop over [y]. *)
Lemma rect_written (col : Z -> Z -> TGAColor) (xs ys : list Z) : forall img,
  let img' :=
    fold_left
      (fun fb y => fold_left (fun fb x => img_set fb x y (col x y)) xs fb)
      ys img in
  extends img img' /\
  forall x y, x ∈ xs -> y ∈ ys -> in_image img x y = true -> written img' x y.
Proof.
  induction ys as [ | b ys IH ]; intros img; cbv zeta; simpl.
  - split; [ apply extends_refl | ]. intros x y _ Hy. inversion Hy.
  - pose proof (row_written (fun x => col x b) b xs img) as [Hrow Hroww].
    cbv zeta in Hrow, Hroww.
    set (img1 := fold_left (fun fb x => img_set fb x b (col x b)) xs img) in *.
    destruct (IH img1) as [Hext Hw].
    split; [ eapply extends_trans; eassumption | ].
    intros x y Hx Hy Hin. apply elem_of_cons in Hy as [-> | Hy].
    + destruct Hext as (_ & _ & Hkeep). apply Hkeep. apply Hroww; assumption.
    + apply Hw; try assumption.
      rewrite (in_image_extends _ _ _ _ Hrow). exact Hin.
Qed.


(** ** The tile grid *)

Lemma tiles_for_ceiling extent ts :
  0 < ts -> 0 < extent -> tiles_for extent ts = (extent - 1) / ts + 1.
Proof.
  intros Hts He. unfold tiles_for.
  rewrite Z.quot_div_nonneg by lia.
  replace (extent + ts - 1) with (extent - 1 + 1 * ts) by lia.
  rewrite Z.div_add by lia. reflexivity.
Qed.





Section Scheduler.
Variable shade : RealtimeRayTracer -> Z -> Z -> TGAColor.

(** The tile step on the grid: geometry and flags stay, the tile under the
    cursor is traced, the cursor moves on. *)
Lemma render_tile_fields s :
  current_tile_y s < total_tiles_y s ->
  let s' := render_tile shade s in
  let sx := current_tile_x s * tile_size s in
  let sy := current_tile_y s * tile_size s in
  let ex := Z.min (sx + tile_size s) (rt_width s) in
  let ey := Z.min (sy + tile_size s) (rt_height s) in
  same_grid s s' /\
  is_active s' = is_active s /\ adaptive_quality s' = adaptive_quality s /\
  rt_framebuffer s' =
    fold_left
      (fun fb y => fold_left (fun fb x => img_set fb x y (shade s x y))
                             (seqZ sx (ex - sx)) fb)
      (seqZ sy (ey - sy)) (rt_framebuffer s) /\
  (current_tile_x s', current_tile_y s') =
    if total_tiles_x s <=? current_tile_x s + 1 then
      if total_tiles_y s <=? current_tile_y s + 1 then (0, 0)
      else (0, current_tile_y s + 1)
    else (current_tile_x s + 1, current_tile_y s).
Proof.
  intros Hrow. cbv zeta.
  unfold render_tile. apply Z.ltb_lt in Hrow. rewrite Hrow.
  unfold same_grid, advance_tile, ray_trace_tile_enhanced, for_range.
  cbn -[update_progress_overlay Z.mul Z.add Z.min Z.sub seqZ fold_left Z.leb].
  destruct (show_progress_overlay s);
    cbn -[Z.mul Z.add Z.min Z.sub seqZ fold_left Z.leb];
    destruct (total_tiles_x s <=? current_tile_x s + 1);
    try destruct (total_tiles_y s <=? current_tile_y s + 1);
    cbn -[Z.mul Z.add Z.min Z.sub seqZ fold_left Z.leb];
    auto 10.
Qed.


Lemma grid_positive s :
  consistent s -> 1 <= total_tiles_x s /\ 1 <= total_tiles_y s.
Proof.
  intros (Hw & Hh & Hts & Htx & Hty & _).
  rewrite Htx, Hty, !tiles_for_ceiling by lia.
  assert (0 <= (rt_width s - 1) / tile_size s) by (apply Z.div_pos; lia).
  assert (0 <= (rt_height s - 1) / tile_size s) by (apply Z.div_pos; lia).
  lia.
Qed.





End Scheduler.




End TileFacts.

(* ====================================================================== *)
(** * The adaptive-quality controller *)
(* ====================================================================== *)

Module QualityFacts.
Import Numerics NumericsFacts Image Realtime Examples.

Section Controller.
Variable shade : RealtimeRayTracer -> Z -> Z -> TGAColor.

(** The tile step leaves the controller's fields alone. *)
Lemma render_tile_controller s :
  quality_level (render_tile shade s) = quality_level s /\
  average_frame_time (render_tile shade s) = average_frame_time s /\
  performance_samples (render_tile shade s) = performance_samples s /\
  is_active (render_tile shade s) = is_active s /\
  adaptive_quality (render_tile shade s) = adaptive_quality s.
Proof.
  unfold render_tile, advance_tile.
  destruct (current_tile_y s <? total_tiles_y s); [ | auto ].
  cbn -[update_progress_overlay Z.mul Z.add Z.min].
  destruct (show_progress_overlay s);
    repeat match goal with |- context [if ?b then _ else _] => destruct b end;
    auto.
Qed.


Lemma alpha_range n : 1 <= n -> (0 < alpha n <= 1)%Q.
Proof.
  intros Hn. unfold alpha.
  assert (Hk : (1 <= inject_Z (Z.min 60 n))%Q).
  { change 1%Q with (inject_Z 1). rewrite <- Zle_Qle. lia. }
  set (a := inject_Z (Z.min 60 n)) in *.
  assert (Ha : (1 / a * a == 1)%Q) by (field; lra).
  split.
  - apply Qlt_shift_div_l; lra.
  - apply Qle_shift_div_r; lra.
Qed.

Lemma alpha_first : (alpha 1 == 1)%Q.
Proof. reflexivity. Qed.

(** Quality never leaves [1, 4]. *)
Lemma increase_quality_level s :
  quality_level (increase_quality s) =
  if quality_level s <? 4 then quality_level s + 1 else quality_level s.
Proof.
  unfold increase_quality.
  destruct (quality_level s <? 4); [ | reflexivity ].
  unfold reset_tiles, update_quality_settings.
  repeat match goal with |- context [if ?b then _ else _] => destruct b end;
    reflexivity.
Qed.

Lemma decrease_quality_level s :
  quality_level (decrease_quality s) =
  if 1 <? quality_level s then quality_level s - 1 else quality_level s.
Proof.
  unfold decrease_quality.
  destruct (1 <? quality_level s); [ | reflexivity ].
  unfold reset_tiles, update_quality_settings.
  repeat match goal with |- context [if ?b then _ else _] => destruct b end;
    reflexivity.
Qed.

Lemma change_quality_controller s :
  (average_frame_time (increase_quality s) = average_frame_time s /\
   performance_samples (increase_quality s) = performance_samples s /\
   is_active (increase_quality s) = is_active s /\
   adaptive_quality (increase_quality s) = adaptive_quality s) /\
  (average_frame_time (decrease_quality s) = average_frame_time s /\
   performance_samples (decrease_quality s) = performance_samples s /\
   is_active (decrease_quality s) = is_active s /\
   adaptive_quality (decrease_quality s) = adaptive_quality s).
Proof.
  unfold increase_quality, decrease_quality, reset_tiles, update_quality_settings.
  split;
    repeat match goal with |- context [if ?b then _ else _] => destruct b end;
    auto.
Qed.

(** What one call does to the controller when the tracer is active and
    adaptive quality is on. *)
Lemma render_one_tile_controller t s :
  is_active s = true -> adaptive_quality s = true ->
  let avg := (average_frame_time s * (1 - alpha (performance_samples s + 1))
              + t * alpha (performance_samples s + 1))%Q in
  let s' := render_one_tile shade t s in
  average_frame_time s' = avg /\
  performance_samples s' = performance_samples s + 1 /\
  is_active s' = true /\ adaptive_quality s' = true /\
  quality_level s' =
    if Qltb (target_tile_time * 2) avg && (1 <? quality_level s)
    then quality_level s - 1
    else if Qltb avg (target_tile_time * 0.5) && (quality_level s <? 4)
    then quality_level s + 1
    else quality_level s.
Proof.
  intros Hact Hadapt. cbv zeta.
  destruct (render_tile_controller s) as (Hq & Havg & Hn & Ha & Had).
  unfold render_one_tile. rewrite Hact. simpl negb. cbv iota.
  set (s1 := render_tile shade s) in *.
  assert (Had2 : adaptive_quality (update_performance_stats t s1) = true).
  { unfold update_performance_stats. simpl. congruence. }
  rewrite Had2.
  unfold adjust_quality_based_on_performance.
  assert (Hq2 : quality_level (update_performance_stats t s1) = quality_level s).
  { unfold update_performance_stats. simpl. congruence. }
  assert (Havg2 : average_frame_time (update_performance_stats t s1) =
                  (average_frame_time s * (1 - alpha (performance_samples s + 1))
                   + t * alpha (performance_samples s + 1))%Q).
  { unfold update_performance_stats, alpha. simpl. rewrite Havg, Hn. reflexivity. }
  assert (Hn2 : performance_samples (update_performance_stats t s1) =
                performance_samples s + 1).
  { unfold update_performance_stats. simpl. congruence. }
  assert (Ha2 : is_active (update_performance_stats t s1) = true).
  { unfold update_performance_stats. simpl. congruence. }
  set (s2 := update_performance_stats t s1) in *.
  destruct (change_quality_controller s2) as
    ((Hi1 & Hi2 & Hi3 & Hi4) & (Hd1 & Hd2 & Hd3 & Hd4)).
  rewrite Havg2, Hq2.
  destruct (Qltb (target_tile_time * 2) _ && (1 <? quality_level s)) eqn:Hslow.
  - rewrite decrease_quality_level, Hq2, Hd1, Hd2, Hd3, Hd4.
    apply andb_true_iff in Hslow as [_ Hgt]. rewrite Hgt. auto.
  - destruct (Qltb _ (target_tile_time * 0.5) && (quality_level s <? 4)) eqn:Hfast.
    + rewrite increase_quality_level, Hq2, Hi1, Hi2, Hi3, Hi4.
      apply andb_true_iff in Hfast as [_ Hlt]. rewrite Hlt. auto.
    + auto.
Qed.


Lemma average_stays_slow avg t n :
  0 <= n -> (n = 0 \/ slow avg) -> slow t ->
  slow (avg * (1 - alpha (n + 1)) + t * alpha (n + 1))%Q.
Proof.
  unfold slow, target_tile_time. intros Hn Hsettled Ht.
  destruct Hsettled as [-> | Havg].
  - change (0 + 1) with 1. pose proof alpha_first as Ha.
    set (a := alpha 1) in *. nra.
  - destruct (alpha_range (n + 1)) as [Ha0 Ha1]; [ lia | ].
    set (a := alpha (n + 1)) in *. nra.
Qed.

Lemma average_stays_fast avg t n :
  0 <= n -> (n = 0 \/ fast avg) -> fast t ->
  fast (avg * (1 - alpha (n + 1)) + t * alpha (n + 1))%Q.
Proof.
  unfold fast, target_tile_time. intros Hn Hsettled Ht.
  destruct Hsettled as [-> | Havg].
  - change (0 + 1) with 1. pose proof alpha_first as Ha.
    set (a := alpha 1) in *. nra.
  - destruct (alpha_range (n + 1)) as [Ha0 Ha1]; [ lia | ].
    set (a := alpha (n + 1)) in *. nra.
Qed.

Lemma slow_step t s :
  controlled s -> settled_slow s -> slow t ->
  controlled (render_one_tile shade t s) /\
  settled_slow (render_one_tile shade t s) /\
  quality_level (render_one_tile shade t s) = Z.max 1 (quality_level s - 1).
Proof.
  intros (Hact & Hadapt & Hq & Hn) Hsettled Ht.
  destruct (render_one_tile_controller t s Hact Hadapt)
    as (Havg & Hn' & Hact' & Hadapt' & Hq').
  pose proof (average_stays_slow _ _ _ Hn Hsettled Ht) as Hslow.
  rewrite <- Havg in Hslow.
  assert (Hcmp : Qltb (target_tile_time * 2)
                   (average_frame_time (render_one_tile shade t s)) = true)
    by (apply Qltb_true; exact Hslow).
  rewrite <- Havg, Hcmp in Hq'. simpl andb in Hq'.
  assert (Hlevel : quality_level (render_one_tile shade t s) =
                   Z.max 1 (quality_level s - 1)).
  { rewrite Hq'. destruct (1 <? quality_level s) eqn:E.
    - apply Z.ltb_lt in E. lia.
    - apply Z.ltb_ge in E.
      assert (Hnot : Qltb (average_frame_time (render_one_tile shade t s))
                       (target_tile_time * 0.5) = false).
      { apply Qltb_false. unfold slow, target_tile_time in *. lra. }
      rewrite Hnot. simpl. lia. }
  split; [ | split ].
  - unfold controlled. rewrite Hact', Hadapt', Hn', Hlevel. lia.
  - right. exact Hslow.
  - exact Hlevel.
Qed.

Lemma fast_step t s :
  controlled s -> settled_fast s -> fast t ->
  controlled (render_one_tile shade t s) /\
  settled_fast (render_one_tile shade t s) /\
  quality_level (render_one_tile shade t s) = Z.min 4 (quality_level s + 1).
Proof.
  intros (Hact & Hadapt & Hq & Hn) Hsettled Ht.
  destruct (render_one_tile_controller t s Hact Hadapt)
    as (Havg & Hn' & Hact' & Hadapt' & Hq').
  pose proof (average_stays_fast _ _ _ Hn Hsettled Ht) as Hfast.
  rewrite <- Havg in Hfast.
  assert (Hnot : Qltb (target_tile_time * 2)
                   (average_frame_time (render_one_tile shade t s)) = false).
  { apply Qltb_false. unfold fast, target_tile_time in *. lra. }
  assert (Hcmp : Qltb (average_frame_time (render_one_tile shade t s))
                   (target_tile_time * 0.5) = true)
    by (apply Qltb_true; exact Hfast).
  rewrite <- Havg, Hnot, Hcmp in Hq'. simpl andb in Hq'.
  assert (Hlevel : quality_level (render_one_tile shade t s) =
                   Z.min 4 (quality_level s + 1)).
  { rewrite Hq'. destruct (quality_level s <? 4) eqn:E.
    - apply Z.ltb_lt in E. lia.
    - apply Z.ltb_ge in E. lia. }
  split; [ | split ].
  - unfold controlled. rewrite Hact', Hadapt', Hn', Hlevel. lia.
  - right. exact Hfast.
  - exact Hlevel.
Qed.

Lemma slow_run times : forall s,
  controlled s -> settled_slow s -> Forall slow times ->
  quality_level (render_tiles shade times s) =
  Z.max 1 (quality_level s - Z.of_nat (List.length times)).
Proof.
  induction times as [ | t times IH ]; intros s Hc Hs Hall.
  - simpl. destruct Hc as (_ & _ & Hq & _). lia.
  - apply Forall_cons in Hall as [Ht Hall].
    destruct (slow_step t s Hc Hs Ht) as (Hc' & Hs' & Hq').
    change (render_tiles shade (t :: times) s)
      with (render_tiles shade times (render_one_tile shade t s)).
    rewrite (IH _ Hc' Hs' Hall), Hq'. simpl List.length. lia.
Qed.

Lemma fast_run times : forall s,
  controlled s -> settled_fast s -> Forall fast times ->
  quality_level (render_tiles shade times s) =
  Z.min 4 (quality_level s + Z.of_nat (List.length times)).
Proof.
  induction times as [ | t times IH ]; intros s Hc Hs Hall.
  - simpl. destruct Hc as (_ & _ & Hq & _). lia.
  - apply Forall_cons in Hall as [Ht Hall].
    destruct (fast_step t s Hc Hs Ht) as (Hc' & Hs' & Hq').
    change (render_tiles shade (t :: times) s)
      with (render_tiles shade times (render_one_tile shade t s)).
    rewrite (IH _ Hc' Hs' Hall), Hq'. simpl List.length. lia.
Qed.

(** C4 (amended).  With the tracer active and adaptive quality on: a call
    keeps the level in 1..4; it lowers the level (by one) only when the
    moving average is above 2 x 2 ms and raises it (by one) only when the
    average is below 0.5 x 2 ms; and once the moving average itself is on
    the slow side (as at the first sample), [n] slow tile times take the
    level to max(1, level - n), one step down per call and never up; on
    the fast side [n] fast tile times take it to min(4, level + n). *)
Theorem adaptive_quality_band (s : RealtimeRayTracer) (t : Q) :
  controlled s ->
  let s' := render_one_tile shade t s in
  1 <= quality_level s' <= 4 /\
  (quality_level s' < quality_level s ->
   slow (average_frame_time s') /\ quality_level s' = quality_level s - 1) /\
  (quality_level s < quality_level s' ->
   fast (average_frame_time s') /\ quality_level s' = quality_level s + 1) /\
  (forall times, settled_slow s -> Forall slow times ->
     quality_level (render_tiles shade times s) =
     Z.max 1 (quality_level s - Z.of_nat (List.length times))) /\
  (forall times, settled_fast s -> Forall fast times ->
     quality_level (render_tiles shade times s) =
     Z.min 4 (quality_level s + Z.of_nat (List.length times))).
Proof.
  intros Hc. pose proof Hc as (Hact & Hadapt & Hq & Hn). cbv zeta.
  destruct (render_one_tile_controller t s Hact Hadapt)
    as (Havg & _ & _ & _ & Hq').
  rewrite <- Havg in Hq'.
  set (s' := render_one_tile shade t s) in *.
  destruct (Qltb (target_tile_time * 2) (average_frame_time s')) eqn:Hslow;
    destruct (1 <? quality_level s) eqn:Hfloor;
    destruct (Qltb (average_frame_time s') (target_tile_time * 0.5)) eqn:Hfast;
    destruct (quality_level s <? 4) eqn:Hceil;
    simpl in Hq';
    try apply Qltb_true in Hslow; try apply Qltb_true in Hfast;
    try apply Qltb_false in Hslow; try apply Qltb_false in Hfast;
    try apply Z.ltb_lt in Hfloor; try apply Z.ltb_lt in Hceil;
    try apply Z.ltb_ge in Hfloor; try apply Z.ltb_ge in Hceil;
    (split; [ lia | split; [ | split; [ | split ] ] ]);
    try (intros; unfold slow, fast; split; [ assumption || lia | lia ]);
    try (intros; lia);
    try (intros times Hs Hall; apply slow_run; assumption);
    try (intros times Hs Hall; apply fast_run; assumption).
Qed.

End Controller.

Lemma adaptive_quality_band_witness :
  quality_level (render_tiles flat_shade [5; 5; 5]%Q adaptive_tracer) = 1 /\
  quality_level (render_tiles flat_shade [0.5; 0.5; 0.5]%Q adaptive_tracer) = 4.
Proof.
  assert (Hc : controlled adaptive_tracer).
  { unfold controlled. vm_compute. intuition congruence. }
  pose proof (adaptive_quality_band flat_shade adaptive_tracer 5%Q Hc)
    as (_ & _ & _ & Hslow & Hfast).
  split.
  - rewrite (Hslow [5; 5; 5]%Q).
    + reflexivity.
    + left. reflexivity.
    + repeat constructor.
  - rewrite (Hfast [0.5; 0.5; 0.5]%Q).
    + reflexivity.
    + left. reflexivity.
    + repeat constructor.
Defined.

(** C4, as stated, fails while the moving average lags: after five fast
    tiles rendered with adaptive quality off the average is 0.1 ms; with
    adaptive quality then switched on, a slow tile of 4.1 ms leaves the
    average below 1 ms and the level goes up from 2 to 3. *)
Lemma slow_tile_raises_quality :
  is_active lagging_tracer = true /\ adaptive_quality lagging_tracer = true /\
  slow 4.1%Q /\
  quality_level lagging_tracer = 2 /\
  quality_level (render_one_tile flat_shade 4.1%Q lagging_tracer) = 3.
Proof.
  repeat match goal with |- _ /\ _ => split end;
    vm_compute; reflexivity.
Qed.

End QualityFacts.

(* ====================================================================== *)
(** * The ray tracer *)
(* ====================================================================== *)

Module RayTracerFacts.
Import Numerics NumericsFacts RayTracer Examples.

(** A vector of finite components. *)
Lemma vfinite_inv v :
  vfinite v = true -> exists a b c, v = mk_vec3 (Fin a) (Fin b) (Fin c).
Proof.
  destruct v as [[a| | | ] [b| | | ] [c| | | ]]; simpl; try discriminate.
  intros _. eauto.
Qed.

Section Degenerate.
Context {rng : Type}.





(** A hit of a finite triangle by a finite ray: the determinant the test
    divides by is not zero, and the distance and the point are finite. *)
Lemma triangle_hit_finite (tri : @rt_triangle rng) r t_min t_max rec :
  tri_finite tri -> ray_finite r ->
  rt_triangle_hit tri r t_min t_max = Some rec ->
  (exists q, tri_det tri r = Fin q /\ ~ (q == 0)%Q) /\
  is_fin (rec_t rec) = true /\ vfinite (rec_p rec) = true.
Proof.
  intros (Hv0 & He1 & He2) (Ho & Hd) Hhit.
  destruct (vfinite_inv _ Hv0) as (x0 & y0 & z0 & E0).
  destruct (vfinite_inv _ He1) as (a1 & b1 & c1 & E1).
  destruct (vfinite_inv _ He2) as (a2 & b2 & c2 & E2).
  destruct (vfinite_inv _ Ho) as (ox & oy & oz & Eo).
  destruct (vfinite_inv _ Hd) as (dx & dy & dz & Ed).
  unfold rt_triangle_hit in Hhit. unfold tri_det.
  rewrite E0, E1, E2, Eo, Ed in Hhit. rewrite E1, E2, Ed.
  cbn [cross dot vsub vx vy vz dmul dsub dadd dneg] in Hhit |- *.
  match type of Hhit with context [dgt (Fin ?qa) _] => set (a := qa) in * end.
  unfold dgt, EPSILON in Hhit. cbn [dneg dlt] in Hhit.
  destruct (Qltb (Qopp 0.00000001) a && Qltb a 0.00000001) eqn:Hguard; [ discriminate | ].
  assert (Ha : ~ (a == 0)%Q).
  { intros Hz. apply andb_false_iff in Hguard as [H | H];
      apply Qltb_false in H; lra. }
  split; [ exists a; split; [ reflexivity | exact Ha ] | ].
  unfold ddiv, d1 in Hhit. fold d1 in Hhit.
  assert (Hne : Qeq_bool a 0 = false).
  { destruct (Qeq_bool a 0) eqn:E; [ | reflexivity ].
    apply Qeq_bool_iff in E. contradiction. }
  rewrite Hne in Hhit. cbn [dmul dadd] in Hhit.
  repeat match type of Hhit with
         | (if ?b then None else _) = Some _ =>
             destruct b; [ discriminate | ]
         end.
  injection Hhit as <-. unfold set_face_normal, ray_at. simpl.
  rewrite Eo, Ed. split; reflexivity.
Qed.

(** ** Spheres of radius zero *)






End Degenerate.



(** C1 fails on the corner ray: the brute-force loop finds the hit at
    t = 1, the BVH built from the same list reports none. *)
Lemma bvh_misses_corner_hit :
  (exists rec,
     rt_hittable_list_hit [Triangle corner_triangle] corner_ray
       (Fin 0.001) rt_infinity = Some rec /\
     deq (rec_t rec) (Fin 1)) /\
  rt_bvh_hit (build_bvh [Triangle corner_triangle]) corner_ray
    (Fin 0.001) rt_infinity = None.
Proof.
  split.
  - eexists. split; [ vm_compute; reflexivity | reflexivity ].
  - vm_compute. reflexivity.
Qed.


(** The box of a sphere is not padded: the sphere of radius zero that the
    ray along the axis hits in the brute-force loop is lost in the BVH. *)
Example bvh_misses_point_sphere :
  (exists rec,
     rt_hittable_list_hit [Sphere point_sphere] axis_ray
       (Fin 0.001) rt_infinity = Some rec /\
     deq (rec_t rec) (Fin 5)) /\
  rt_bvh_hit (build_bvh [Sphere point_sphere]) axis_ray
    (Fin 0.001) rt_infinity = None.
Proof.
  split.
  - eexists. split; [ vm_compute; reflexivity | reflexivity ].
  - vm_compute. reflexivity.
Qed.

(** ** What the BVH does guarantee *)

Section Bvh.
Context {rng : Type}.
Implicit Types (objects : list (@rt_hittable rng)) (r : rt_ray).

Lemma sort_insert_In axis (x o : @rt_hittable rng) l :
  In o (sort_insert axis x l) <-> o = x \/ In o l.
Proof.
  induction l as [ | y l IH ]; simpl.
  - intuition congruence.
  - destruct (box_less axis y x); simpl; rewrite ?IH; intuition congruence.
Qed.

Lemma sort_by_axis_In axis (o : @rt_hittable rng) l :
  In o (sort_by_axis axis l) <-> In o l.
Proof.
  induction l as [ | y l IH ]; simpl.
  - reflexivity.
  - unfold sort_by_axis in *. simpl. rewrite sort_insert_In, IH.
    intuition congruence.
Qed.

Lemma sort_insert_length axis (x : @rt_hittable rng) l :
  List.length (sort_insert axis x l) = S (List.length l).
Proof.
  induction l as [ | y l IH ]; simpl; [ reflexivity | ].
  destruct (box_less axis y x); simpl; [ rewrite IH | ]; reflexivity.
Qed.

Lemma sort_by_axis_length axis (l : list (@rt_hittable rng)) :
  List.length (sort_by_axis axis l) = List.length l.
Proof.
  induction l as [ | y l IH ]; simpl; [ reflexivity | ].
  unfold sort_by_axis in *. simpl. rewrite sort_insert_length, IH. reflexivity.
Qed.

(** The recursion of [build_tree] ends: a fuel of the length of the slice
    is enough, on every slice that is not empty. *)
Lemma build_tree_total : forall fuel objects,
  objects <> [] -> (List.length objects <= fuel)%nat ->
  exists node, build_tree fuel objects = Some node.
Proof.
  induction fuel as [ | fuel IH ]; intros objects Hne Hlen.
  - destruct objects; [ contradiction | simpl in Hlen; lia ].
  - destruct objects as [ | first [ | second rest ] ]; [ contradiction | | ].
    + eexists. reflexivity.
    + cbn [build_tree].
      set (objs := first :: second :: rest) in *.
      set (axis := longest_axis _).
      set (mid := (List.length objs / 2)%nat).
      assert (Hn : (2 <= List.length objs)%nat) by (unfold objs; simpl; lia).
      assert (Hmid1 : (1 <= mid)%nat).
      { unfold mid. apply Nat.div_le_lower_bound; lia. }
      assert (Hmid2 : (mid < List.length objs)%nat).
      { unfold mid. apply Nat.div_lt; lia. }
      destruct (IH (firstn mid (sort_by_axis axis objs))) as (l & Hl).
      { intros E. apply (f_equal (@List.length _)) in E.
        rewrite length_firstn, sort_by_axis_length in E.
        change (List.length (@nil (@rt_hittable rng))) with O in E. lia. }
      { rewrite length_firstn, sort_by_axis_length. lia. }
      destruct (IH (skipn mid (sort_by_axis axis objs))) as (rt & Hr).
      { intros E. apply (f_equal (@List.length _)) in E.
        rewrite length_skipn, sort_by_axis_length in E.
        change (List.length (@nil (@rt_hittable rng))) with O in E. lia. }
      { rewrite length_skipn, sort_by_axis_length. lia. }
      rewrite Hl, Hr. eexists. reflexivity.
Qed.

(** A record reported by a subtree comes from one of the objects the
    subtree was built from, and that object is hit on the whole interval. *)
Lemma hit_node_sound : forall fuel objects node,
  build_tree fuel objects = Some node ->
  forall r t_min t_max rec,
    hit_node node r t_min t_max = Some rec ->
    (exists o, In o objects /\ hit o r t_min t_max <> None) /\
    (exists o bound, In o objects /\ hit o r t_min bound = Some rec).
Proof.
  induction fuel as [ | fuel IH ]; intros objects node Hbuild; [ discriminate | ].
  destruct objects as [ | first [ | second rest ] ]; [ discriminate | | ].
  - injection Hbuild as <-. intros r t_min t_max rec Hhit.
    cbn [hit_node] in Hhit.
    destruct (negb (aabb_hit _ r t_min t_max)); [ discriminate | ].
    split.
    + exists first. split; [ left; reflexivity | congruence ].
    + exists first, t_max. split; [ left; reflexivity | exact Hhit ].
  - cbn [build_tree] in Hbuild.
    set (objs := first :: second :: rest) in *.
    set (axis := longest_axis _) in Hbuild.
    set (mid := (List.length objs / 2)%nat) in Hbuild.
    destruct (build_tree fuel (firstn mid (sort_by_axis axis objs)))
      as [ l | ] eqn:Hl; [ | discriminate ].
    destruct (build_tree fuel (skipn mid (sort_by_axis axis objs)))
      as [ rt | ] eqn:Hr; [ | discriminate ].
    injection Hbuild as <-.
    assert (Hleft : forall o, In o (firstn mid (sort_by_axis axis objs)) -> In o objs).
    { intros o Ho. apply (sort_by_axis_In axis).
      rewrite <- (firstn_skipn mid). apply in_or_app. left. exact Ho. }
    assert (Hright : forall o, In o (skipn mid (sort_by_axis axis objs)) -> In o objs).
    { intros o Ho. apply (sort_by_axis_In axis).
      rewrite <- (firstn_skipn mid). apply in_or_app. right. exact Ho. }
    intros r t_min t_max rec Hhit. cbn [hit_node] in Hhit.
    destruct (negb (aabb_hit _ r t_min t_max)); [ discriminate | ].
    destruct (hit_node l r t_min t_max) as [ rec_l | ] eqn:Hhl.
    + destruct (IH _ _ Hl r t_min t_max rec_l Hhl) as ((o & Ho & Hhit_o) & (o' & b' & Ho' & Hrec')).
      split; [ exists o; split; [ apply Hleft; exact Ho | exact Hhit_o ] | ].
      destruct (hit_node rt r t_min (rec_t rec_l)) as [ rec_r | ] eqn:Hhr.
      * injection Hhit as <-.
        destruct (IH _ _ Hr r t_min _ rec_r Hhr) as (_ & (o2 & b2 & Ho2 & Hrec2)).
        exists o2, b2. split; [ apply Hright; exact Ho2 | exact Hrec2 ].
      * injection Hhit as <-.
        exists o', b'. split; [ apply Hleft; exact Ho' | exact Hrec' ].
    + destruct (hit_node rt r t_min t_max) as [ rec_r | ] eqn:Hhr; [ | discriminate ].
      injection Hhit as <-.
      destruct (IH _ _ Hr r t_min t_max rec_r Hhr) as ((o & Ho & Hhit_o) & (o' & b' & Ho' & Hrec')).
      split.
      * exists o. split; [ apply Hright; exact Ho | exact Hhit_o ].
      * exists o', b'. split; [ apply Hright; exact Ho' | exact Hrec' ].
Qed.

(** Once the brute-force loop has a hit it keeps one. *)
Lemma list_hit_keeps r t_min objects : forall rec closest,
  fst (fold_left (list_hit_step r t_min) objects (Some rec, closest)) <> None.
Proof.
  induction objects as [ | o objects IH ]; intros rec closest; simpl.
  - discriminate.
  - unfold list_hit_step at 2. simpl.
    destruct (hit o r t_min closest); apply IH.
Qed.

Lemma list_hit_finds r t_min t_max objects :
  (exists o, In o objects /\ hit o r t_min t_max <> None) ->
  rt_hittable_list_hit objects r t_min t_max <> None.
Proof.
  unfold rt_hittable_list_hit.
  induction objects as [ | o objects IH ]; intros (o' & Hin & Hhit).
  - destruct Hin.
  - simpl. unfold list_hit_step at 2. simpl.
    destruct (hit o r t_min t_max) as [ rec | ] eqn:Ho.
    + apply list_hit_keeps.
    + apply IH. exists o'. split; [ | exact Hhit ].
      destruct Hin as [ <- | Hin ]; [ contradiction | exact Hin ].
Qed.

(** [build_bvh] builds a tree for every list that is not empty. *)
Theorem build_bvh_total objects :
  objects <> [] -> exists node, root (build_bvh objects) = Some node.
Proof.
  intros Hne. destruct objects as [ | o objects ]; [ contradiction | ].
  unfold build_bvh. cbn [root]. apply build_tree_total; [ discriminate | lia ].
Qed.

(** The BVH reports no hit that the brute-force loop over the same objects
    would not report: whenever the BVH finds a hit, so does the loop, and
    the record of the BVH is the record of one of the objects. *)
Theorem bvh_hit_is_list_hit objects r (t_min t_max : double) rec :
  rt_bvh_hit (build_bvh objects) r t_min t_max = Some rec ->
  rt_hittable_list_hit objects r t_min t_max <> None /\
  exists o bound, In o objects /\ hit o r t_min bound = Some rec.
Proof.
  unfold rt_bvh_hit, build_bvh.
  destruct objects as [ | first rest ]; [ discriminate | ].
  cbn [root].
  destruct (build_tree _ _) as [ node | ] eqn:Hbuild; [ | discriminate ].
  intros Hhit.
  destruct (hit_node_sound _ _ _ Hbuild r t_min t_max rec Hhit) as (Hsome & Hrec).
  split; [ apply list_hit_finds; exact Hsome | exact Hrec ].
Qed.

End Bvh.

Lemma build_bvh_total_witness :
  exists node, root (build_bvh [Triangle (wall matte)]) = Some node.
Proof. apply (build_bvh_total [Triangle (wall matte)]). discriminate. Defined.

Lemma bvh_hit_is_list_hit_witness :
  rt_hittable_list_hit [Triangle (wall matte)] axis_ray (Fin 0.001) rt_infinity
  <> None.
Proof.
  eapply proj1.
  eapply (bvh_hit_is_list_hit [Triangle (wall matte)] axis_ray
            (Fin 0.001) rt_infinity).
  reflexivity.
Defined.

(** The four outcomes of [ray_color] on the wall. *)
Example ray_color_depth_zero :
  ray_color (wall_world matte) axis_ray 0 tt = (black, tt).
Proof. reflexivity. Qed.

Example ray_color_miss :
  ray_color (wall_world matte) back_ray 3 tt = (black, tt).
Proof. vm_compute. reflexivity. Qed.

Example ray_color_absorbed :
  ray_color (wall_world absorber) axis_ray 3 tt = (black, tt).
Proof. vm_compute. reflexivity. Qed.

Example ray_color_scattered :
  fst (ray_color (wall_world matte) axis_ray 1 tt) = vmul (V 0.7 0.3 0.3) black.
Proof. vm_compute. reflexivity. Qed.

End RayTracerFacts.

(* ====================================================================== *)
(** * Blend shapes and expressions: the whole interface of Model *)
(* ====================================================================== *)

Module MeshBlendFacts.
Import Numerics NumericsFacts Mesh Examples MeshFacts.
#[local] Open Scope Q_scope.

(** ** Sizes *)

Lemma blend_one_length orig target weight : forall verts verts',
  blend_one orig target verts weight = Some verts' ->
  List.length verts' = List.length verts.
Proof.
  revert target. induction orig as [ | o orig IH ]; intros target verts verts'.
  - destruct verts; simpl; [ intros [= <-]; reflexivity | discriminate ].
  - destruct verts as [ | v verts ]; simpl; [ intros [= <-]; reflexivity | ].
    destruct target as [ | t target ]; [ discriminate | ].
    destruct (blend_one orig target verts weight) as [ rest | ] eqn:E;
      [ | discriminate ].
    intros [= <-]. simpl. f_equal. exact (IH _ _ _ E).
Qed.

Lemma blend_one_total orig target weight : forall verts,
  (List.length verts <= List.length orig)%nat ->
  (List.length verts <= List.length target)%nat ->
  exists verts', blend_one orig target verts weight = Some verts'.
Proof.
  revert target. induction orig as [ | o orig IH ]; intros target verts Ho Ht.
  - destruct verts; simpl in *; [ eauto | lia ].
  - destruct verts as [ | v verts ]; simpl in *; [ eauto | ].
    destruct target as [ | t target ]; simpl in *; [ lia | ].
    destruct (IH target verts) as [rest Hrest]; [ lia | lia | ].
    rewrite Hrest. eauto.
Qed.

Lemma blend_all_total orig weights shapes : forall verts,
  Forall (fun s => List.length (snd s) = List.length orig) shapes ->
  List.length verts = List.length orig ->
  exists verts', blend_all orig weights shapes verts = Some verts' /\
                 List.length verts' = List.length orig.
Proof.
  induction shapes as [ | [name target] shapes IH ]; intros verts Hall Hlen.
  - simpl. eauto.
  - apply Forall_cons in Hall as [Ht Hall]. simpl in Ht. simpl.
    destruct (Qltb 0 (default 0 (weights !! name))).
    + destruct (blend_one_total orig target (default 0 (weights !! name)) verts)
        as [verts1 H1]; [ lia | lia | ].
      rewrite H1. apply IH; [ exact Hall | ].
      rewrite (blend_one_length _ _ _ _ _ H1). exact Hlen.
    + apply IH; assumption.
Qed.

Lemma shapes_sized m n :
  (forall name target, blendShapes m !! name = Some target ->
     List.length target = n) ->
  Forall (fun s => List.length (snd s) = n) (map_to_list (blendShapes m)).
Proof.
  intros H. apply Forall_forall. intros [name target] Hin.
  apply elem_of_map_to_list in Hin. simpl. eauto.
Qed.

(** [applyBlendShapes] on a well-sized model. *)
Lemma applyBlendShapes_sized m :
  well_sized m ->
  exists m', applyBlendShapes m = Some m' /\ well_sized m' /\
    hasBackup_ m' = true /\ blendShapes m' = blendShapes m /\
    originalVerts_ m' = (if hasBackup_ m then originalVerts_ m else verts_ m) /\
    blendWeights m' = blendWeights m ∪ ((fun _ => 0) <$> blendShapes m).
Proof.
  intros [Hback Hshapes]. unfold applyBlendShapes.
  destruct (hasBackup_ m) eqn:Hb.
  - destruct (blend_all_total (originalVerts_ m) (blendWeights m)
               (map_to_list (blendShapes m)) (originalVerts_ m))
      as (verts & Hv & Hlen); [ | reflexivity | ].
    { apply shapes_sized. intros name target Ht.
      rewrite (Hshapes _ _ Ht). symmetry. apply Hback. reflexivity. }
    rewrite Hv. eexists. split; [ reflexivity | ]. simpl.
    repeat split; try reflexivity; try exact Hb.
    + intros _. simpl. lia.
    + simpl. intros name target Ht. rewrite (Hshapes _ _ Ht), Hlen.
      symmetry. apply Hback. reflexivity.
  - simpl.
    destruct (blend_all_total (verts_ m) (blendWeights m)
               (map_to_list (blendShapes m)) (verts_ m))
      as (verts & Hv & Hlen); [ | reflexivity | ].
    { apply shapes_sized. exact Hshapes. }
    rewrite Hv. eexists. split; [ reflexivity | ]. simpl.
    repeat split; try reflexivity.
    + intros _. simpl. lia.
    + simpl. intros name target Ht. rewrite (Hshapes _ _ Ht), Hlen.
      reflexivity.
Qed.

Lemma applyBlendShapes_clamped m m' :
  weights_clamped m -> applyBlendShapes m = Some m' -> weights_clamped m'.
Proof.
  intros Hm. unfold applyBlendShapes.
  set (m0 := if hasBackup_ m then m else backupOriginalVertices m).
  assert (Hw : blendWeights m0 = blendWeights m)
    by (unfold m0; destruct (hasBackup_ m); reflexivity).
  destruct (blend_all _ _ _ _); [ | discriminate ].
  intros [= <-] name w. simpl. rewrite Hw.
  rewrite lookup_union_Some_raw. intros [H | [_ H]].
  - exact (Hm _ _ H).
  - rewrite lookup_fmap in H.
    destruct (blendShapes m0 !! name); simpl in H; [ | discriminate ].
    injection H as <-. lra.
Qed.

Lemma zero_weights_sized m : well_sized m -> well_sized (zero_weights m).
Proof. intros H. exact H. Qed.

Lemma zero_weights_lookup m name w :
  blendWeights (zero_weights m) !! name = Some w -> w = 0.
Proof.
  simpl. rewrite lookup_fmap.
  destruct (blendWeights m !! name); simpl; [ | discriminate ].
  intros [= <-]. reflexivity.
Qed.

Lemma zero_weights_clamped m : weights_clamped (zero_weights m).
Proof.
  intros name w H. apply zero_weights_lookup in H. subst w. lra.
Qed.

Lemma setBlendWeight_sized m name w :
  well_sized m -> well_sized (setBlendWeight m name w).
Proof.
  intros H. unfold setBlendWeight.
  destruct (blendShapes m !! name); exact H.
Qed.

Lemma addBlendShape_sized m name target :
  well_sized m -> well_sized (addBlendShape m name target).
Proof.
  intros [Hback Hshapes]. unfold addBlendShape.
  destruct (List.length target =? List.length (verts_ m))%nat eqn:E; simpl;
    [ | split; assumption ].
  apply Nat.eqb_eq in E. split; [ exact Hback | ]. simpl.
  intros n t. destruct (decide (name = n)) as [-> | Hne].
  - rewrite lookup_insert_eq. intros [= <-]. exact E.
  - rewrite lookup_insert_ne by assumption. apply Hshapes.
Qed.

Lemma set_verts_sized m v :
  well_sized m -> List.length v = List.length (verts_ m) ->
  well_sized (set_verts m v).
Proof.
  intros [Hback Hshapes] Hlen. split; simpl.
  - intros Hb. rewrite Hlen. apply Hback. exact Hb.
  - intros name target Ht. rewrite Hlen. exact (Hshapes _ _ Ht).
Qed.

Lemma setVertex_sized m i p m' :
  well_sized m -> setVertex m i p = Some m' ->
  well_sized m' /\ blendWeights m' = blendWeights m.
Proof.
  intros Hm. unfold setVertex.
  destruct (_ && _); [ | intros [= <-]; split; [ exact Hm | reflexivity ] ].
  unfold vec_write. destruct (_ && _); [ | discriminate ].
  intros [= <-]. split; [ | reflexivity ].
  apply set_verts_sized; [ exact Hm | ]. apply length_insert.
Qed.

Lemma updateVertex_sized m i p m' :
  well_sized m -> updateVertex m i p = Some m' ->
  well_sized m' /\ blendWeights m' = blendWeights m.
Proof.
  intros Hm. unfold updateVertex.
  destruct (_ && _); [ | intros [= <-]; split; [ exact Hm | reflexivity ] ].
  destruct (vec_read _ _); [ | discriminate ].
  unfold vec_write. destruct (_ && _); [ | discriminate ].
  intros [= <-]. split; [ | reflexivity ].
  apply set_verts_sized; [ exact Hm | ]. apply length_insert.
Qed.

Lemma reset_sized m : well_sized m -> well_sized (resetVertices m).
Proof.
  intros Hm. unfold resetVertices. destruct (hasBackup_ m) eqn:Hb; [ | exact Hm ].
  apply set_verts_sized; [ exact Hm | ]. apply Hm. exact Hb.
Qed.

Lemma backup_sized m : well_sized m -> well_sized (backupOriginalVertices m).
Proof. intros [_ Hshapes]. split; simpl; [ reflexivity | exact Hshapes ]. Qed.

Lemma clearAllBlendWeights_sized m :
  well_sized m ->
  exists m', clearAllBlendWeights m = Some m' /\ well_sized m' /\
             weights_clamped m' /\ blendShapes m' = blendShapes m.
Proof.
  intros Hm. unfold clearAllBlendWeights.
  destruct (applyBlendShapes_sized (zero_weights m) (zero_weights_sized m Hm))
    as (m' & Happly & Hs & _ & Hshapes & _).
  exists m'. split; [ exact Happly | ]. split; [ exact Hs | ].
  split; [ | exact Hshapes ].
  exact (applyBlendShapes_clamped _ _ (zero_weights_clamped m) Happly).
Qed.

Lemma vertex_access_returns m i p :
  is_int i -> is_Some (setVertex m i p) /\ is_Some (updateVertex m i p).
Proof.
  intros Hi. pose proof (vertex_guard m i Hi) as Hg.
  unfold setVertex, updateVertex.
  destruct ((0 <=? i) && (to_size_t i <? Z.of_nat (List.length (verts_ m))))%Z
    eqn:Hguard; [ | split; eauto ].
  assert (Hin : (0 <= i < Z.of_nat (List.length (verts_ m)))%Z)
    by (apply Hg; reflexivity).
  assert (Hsz : to_size_t i = i)
    by (apply to_size_t_nonneg_int; [ assumption | lia ]).
  rewrite Hsz.
  destruct (vec_read_in_range (verts_ m) i Hin) as [old Hold].
  rewrite Hold.
  destruct (vec_write_in_range (verts_ m) i p Hin) as [v Hv].
  destruct (vec_write_in_range (verts_ m) i (vec_add old p) Hin) as [v' Hv'].
  rewrite Hv, Hv'. split; eauto.
Qed.

Lemma run_call_keeps c m :
  well_sized m -> weights_clamped m -> int_call c ->
  exists m', run_call c m = Some m' /\ well_sized m' /\ weights_clamped m'.
Proof.
  intros Hs Hc Hint. destruct c; simpl in *.
  - destruct (vertex_access_returns m i newPos Hint) as [[m' Hm'] _].
    exists m'. destruct (setVertex_sized _ _ _ _ Hs Hm') as [Hs' Hw].
    split; [ exact Hm' | ]. split; [ exact Hs' | ].
    intros n w. rewrite Hw. apply Hc.
  - destruct (vertex_access_returns m index offset Hint) as [_ [m' Hm']].
    exists m'. destruct (updateVertex_sized _ _ _ _ Hs Hm') as [Hs' Hw].
    split; [ exact Hm' | ]. split; [ exact Hs' | ].
    intros n w. rewrite Hw. apply Hc.
  - eexists. split; [ reflexivity | ]. split; [ apply reset_sized; exact Hs | ].
    unfold resetVertices. destruct (hasBackup_ m); exact Hc.
  - eexists. split; [ reflexivity | ]. split; [ apply backup_sized; exact Hs | ].
    exact Hc.
  - eexists. split; [ reflexivity | ]. split; [ apply reset_sized; exact Hs | ].
    unfold restoreOriginalVertices. destruct (hasBackup_ m); exact Hc.
  - eexists. split; [ reflexivity | ].
    split; [ apply addBlendShape_sized | apply addBlendShape_clamped ]; assumption.
  - eexists. split; [ reflexivity | ].
    split; [ apply setBlendWeight_sized | apply setBlendWeight_clamped ]; assumption.
  - destruct (applyBlendShapes_sized m Hs) as (m' & Happly & Hs' & _).
    exists m'. split; [ exact Happly | ]. split; [ exact Hs' | ].
    exact (applyBlendShapes_clamped _ _ Hc Happly).
  - destruct (clearAllBlendWeights_sized m Hs) as (m' & Hclear & Hs' & Hc' & _).
    exists m'. split; [ exact Hclear | ]. split; assumption.
  - unfold setExpressionByName.
    destruct (clearAllBlendWeights_sized m Hs) as (m1 & Hclear & Hs1 & Hc1 & _).
    rewrite Hclear. destruct (hasBlendShape m1 name).
    + destruct (applyBlendShapes_sized _ (setBlendWeight_sized m1 name intensity Hs1))
        as (m' & Happly & Hs' & _).
      exists m'. split; [ exact Happly | ]. split; [ exact Hs' | ].
      exact (applyBlendShapes_clamped _ _
               (setBlendWeight_clamped m1 name intensity Hc1) Happly).
    + exists m1. split; [ reflexivity | ]. split; assumption.
  - unfold blendBetweenExpressions.
    destruct (negb (hasBlendShape m from) || negb (hasBlendShape m to)).
    + exists m. split; [ reflexivity | ]. split; assumption.
    + set (m2 := setBlendWeight (setBlendWeight (zero_weights m) from (1 - t)) to t).
      assert (Hs2 : well_sized m2)
        by (unfold m2; do 2 apply setBlendWeight_sized; apply zero_weights_sized;
            exact Hs).
      assert (Hc2 : weights_clamped m2)
        by (unfold m2; do 2 apply setBlendWeight_clamped; apply zero_weights_clamped).
      destruct (applyBlendShapes_sized m2 Hs2) as (m' & Happly & Hs' & _).
      exists m'. split; [ exact Happly | ]. split; [ exact Hs' | ].
      exact (applyBlendShapes_clamped _ _ Hc2 Happly).
  - eexists. split; [ reflexivity | ]. unfold saveCurrentStateAsBlendShape.
    split; [ apply addBlendShape_sized | apply addBlendShape_clamped ]; assumption.
Qed.

Lemma Model_new_sized loaded :
  well_sized (Model_new loaded) /\ weights_clamped (Model_new loaded).
Proof.
  destruct loaded as [verts | ]; simpl.
  - split; [ split; simpl; [ reflexivity | ] | ].
    + intros name target H. rewrite lookup_empty in H. discriminate.
    + intros name w H. simpl in H. rewrite lookup_empty in H. discriminate.
  - split; [ split; simpl; [ discriminate | ] | ].
    + intros name target H. rewrite lookup_empty in H. discriminate.
    + intros name w H. simpl in H. rewrite lookup_empty in H. discriminate.
Qed.

(** No sequence of calls of the animation and blend-shape interface reads
    or writes outside a vertex vector: on a model whose backup and targets
    have the size of the mesh (as a freshly constructed model has) every
    call returns, the sizes still agree afterwards and every stored weight
    is still in [0,1]. *)
Theorem mesh_calls_stay_in_bounds (calls : list mesh_call) (m : Model) :
  well_sized m -> weights_clamped m -> Forall int_call calls ->
  exists m', run_calls calls m = Some m' /\ well_sized m' /\ weights_clamped m'.
Proof.
  revert m. induction calls as [ | c calls IH ]; intros m Hs Hc Hint.
  - exists m. split; [ reflexivity | ]. split; assumption.
  - apply Forall_cons in Hint as [Hc0 Hint]. simpl.
    destruct (run_call_keeps c m Hs Hc Hc0) as (m1 & H1 & Hs1 & Hc1).
    rewrite H1. apply IH; assumption.
Qed.

Lemma mesh_calls_stay_in_bounds_witness :
  exists m', run_calls editing_session loaded_mesh = Some m' /\
             well_sized m' /\ weights_clamped m'.
Proof.
  apply (mesh_calls_stay_in_bounds editing_session loaded_mesh).
  - apply Model_new_sized.
  - apply Model_new_sized.
  - unfold editing_session. repeat constructor; unfold is_int; lia.
Defined.

(** ** Back to neutral *)

Lemma clearAllBlendWeights_result (m : Model) :
  exists m', clearAllBlendWeights m = Some m' /\
    verts_ m' = (if hasBackup_ m then originalVerts_ m else verts_ m) /\
    originalVerts_ m' = verts_ m' /\
    hasBackup_ m' = true /\
    blendShapes m' = blendShapes m /\
    (forall name w, blendWeights m' !! name = Some w -> w = 0) /\
    (forall name, is_Some (blendShapes m !! name) ->
       blendWeights m' !! name = Some 0).
Proof.
  unfold clearAllBlendWeights, applyBlendShapes.
  set (m0 := if hasBackup_ (zero_weights m) then zero_weights m
             else backupOriginalVertices (zero_weights m)).
  assert (Hw : blendWeights m0 = (fun _ => 0) <$> blendWeights m)
    by (unfold m0; destruct (hasBackup_ (zero_weights m)); reflexivity).
  assert (Hsh : blendShapes m0 = blendShapes m)
    by (unfold m0; destruct (hasBackup_ (zero_weights m)); reflexivity).
  assert (Ho : originalVerts_ m0 =
               if hasBackup_ m then originalVerts_ m else verts_ m)
    by (unfold m0; simpl; destruct (hasBackup_ m); reflexivity).
  assert (Hb : hasBackup_ m0 = true)
    by (unfold m0; simpl; destruct (hasBackup_ m) eqn:E; simpl; auto).
  rewrite blend_all_idle.
  - eexists. split; [ reflexivity | ]. simpl. rewrite Hw, Hsh.
    repeat split; try assumption.
    + intros name w. rewrite lookup_union_Some_raw, !lookup_fmap.
      intros [H | [_ H]].
      * destruct (blendWeights m !! name); simpl in H; [ | discriminate ].
        injection H as <-. reflexivity.
      * destruct (blendShapes m !! name); simpl in H; [ | discriminate ].
        injection H as <-. reflexivity.
    + intros name [target Ht]. rewrite lookup_union, !lookup_fmap, Ht. simpl.
      destruct (blendWeights m !! name); reflexivity.
  - apply Forall_forall. intros [name target] _ w. simpl. rewrite Hw, lookup_fmap.
    destruct (blendWeights m !! name); simpl; [ | discriminate ].
    intros [= <-]. lra.
Qed.

(** [clearAllBlendWeights] always returns, whatever the sizes of the
    targets: afterwards the mesh is at its original vertices (the current
    ones when there was no backup), a backup exists, the shapes are the
    same and every weight is 0. *)
Theorem clearAllBlendWeights_neutral (m : Model) :
  exists m', clearAllBlendWeights m = Some m' /\
    verts_ m' = (if hasBackup_ m then originalVerts_ m else verts_ m) /\
    originalVerts_ m' = verts_ m' /\
    hasBackup_ m' = true /\
    blendShapes m' = blendShapes m /\
    (forall name w, blendWeights m' !! name = Some w -> w = 0) /\
    (forall name, is_Some (blendShapes m !! name) ->
       blendWeights m' !! name = Some 0).
Proof. apply clearAllBlendWeights_result. Qed.

(** ** The blend formula *)

Lemma blend_one_lookup orig target weight : forall verts verts' i v o t,
  blend_one orig target verts weight = Some verts' ->
  verts !! i = Some v -> orig !! i = Some o -> target !! i = Some t ->
  verts' !! i = Some (vec_add v (vec_scale (vec_sub t o) weight)).
Proof.
  revert target. induction orig as [ | o0 orig IH ];
    intros target verts verts' i v o t Hb Hv Ho Ht.
  - destruct i; discriminate.
  - destruct verts as [ | v0 verts ]; [ destruct i; discriminate | ].
    destruct target as [ | t0 target ]; [ destruct i; discriminate | ].
    simpl in Hb.
    destruct (blend_one orig target verts weight) as [ rest | ] eqn:E;
      [ | discriminate ].
    injection Hb as <-. destruct i as [ | i ]; simpl in *.
    + injection Hv as <-. injection Ho as <-. injection Ht as <-. reflexivity.
    + exact (IH _ _ _ _ _ _ _ E Hv Ho Ht).
Qed.

Lemma vec_eq_refl a : vec_eq a a.
Proof. repeat split; reflexivity. Qed.

Lemma vec_eq_trans a b c : vec_eq a b -> vec_eq b c -> vec_eq a c.
Proof.
  intros (H1 & H2 & H3) (H4 & H5 & H6).
  repeat split; etransitivity; eassumption.
Qed.

Lemma vec_eq_sym a b : vec_eq a b -> vec_eq b a.
Proof. intros (H1 & H2 & H3). repeat split; symmetry; assumption. Qed.

Lemma vec_add_eq a a' b b' :
  vec_eq a a' -> vec_eq b b' -> vec_eq (vec_add a b) (vec_add a' b').
Proof.
  intros (H1 & H2 & H3) (H4 & H5 & H6). unfold vec_eq, vec_add; simpl.
  rewrite H1, H2, H3, H4, H5, H6. repeat split; reflexivity.
Qed.

Ltac vec_ring :=
  unfold vec_eq, vec_add, vec_sub, vec_scale, vec_lerp; simpl;
  repeat split; ring.

(** The loop over the shapes, read at one vertex. *)
Lemma blend_all_lookup orig weights shapes i o : forall verts verts' v,
  (forall name w, weights !! name = Some w -> 0 <= w) ->
  Forall (fun s => is_Some (snd s !! i)) shapes ->
  blend_all orig weights shapes verts = Some verts' ->
  orig !! i = Some o -> verts !! i = Some v ->
  exists v', verts' !! i = Some v' /\
             vec_eq v' (vec_add v (weighted_offsets weights shapes i o)).
Proof.
  intros verts verts' v Hpos. revert verts v.
  induction shapes as [ | [name target] shapes IH ];
    intros verts v Hall Hb Ho Hv; simpl in *.
  - injection Hb as <-. exists v. split; [ exact Hv | ]. vec_ring.
  - apply Forall_cons in Hall as [[t Ht] Hall]. simpl in Ht. rewrite Ht.
    destruct (Qltb 0 (default 0 (weights !! name))) eqn:Hw.
    + destruct (blend_one orig target verts _) as [ verts1 | ] eqn:H1;
        [ | discriminate ].
      pose proof (blend_one_lookup _ _ _ _ _ _ _ _ _ H1 Hv Ho Ht) as Hv1.
      destruct (IH _ _ Hall Hb Ho Hv1) as (v' & Hv' & Heq).
      exists v'. split; [ exact Hv' | ].
      eapply vec_eq_trans; [ exact Heq | ]. vec_ring.
    + destruct (IH _ _ Hall Hb Ho Hv) as (v' & Hv' & Heq).
      exists v'. split; [ exact Hv' | ].
      eapply vec_eq_trans; [ exact Heq | ].
      apply Qltb_false in Hw.
      assert (Hz : default 0 (weights !! name) == 0).
      { destruct (weights !! name) as [w | ] eqn:E; simpl in *; [ | reflexivity ].
        pose proof (Hpos _ _ E). lra. }
      unfold vec_eq, vec_add, vec_sub, vec_scale; simpl.
      rewrite Hz. repeat split; ring.
Qed.

Lemma targets_have i (m : Model) o :
  well_sized m -> hasBackup_ m = true -> originalVerts_ m !! i = Some o ->
  Forall (fun s => is_Some (snd s !! i)) (map_to_list (blendShapes m)).
Proof.
  intros [Hback Hshapes] Hb Ho. apply Forall_forall. intros [name target] Hin.
  apply elem_of_map_to_list in Hin. simpl.
  apply lookup_lt_is_Some_2. rewrite (Hshapes _ _ Hin), <- (Hback Hb).
  apply lookup_lt_is_Some_1. eauto.
Qed.

Lemma applyBlendShapes_lookup (m : Model) :
  well_sized m -> hasBackup_ m = true -> weights_clamped m ->
  exists m', applyBlendShapes m = Some m' /\
    List.length (verts_ m') = List.length (originalVerts_ m) /\
    forall i o, originalVerts_ m !! i = Some o ->
      exists v, verts_ m' !! i = Some v /\
        vec_eq v (vec_add o (weighted_offsets (blendWeights m)
                               (map_to_list (blendShapes m)) i o)).
Proof.
  intros Hs Hb Hc.
  destruct (applyBlendShapes_sized m Hs) as (m' & Happly & Hs' & Hb' & _ & Ho' & _).
  exists m'. split; [ exact Happly | ].
  rewrite Hb in Ho'. split.
  { destruct Hs' as [Hback' _]. rewrite <- Ho'. symmetry. apply Hback'. exact Hb'. }
  intros i o Ho.
  unfold applyBlendShapes in Happly. rewrite Hb in Happly.
  destruct (blend_all _ _ _ _) as [ verts | ] eqn:Hblend; [ | discriminate ].
  injection Happly as <-. simpl.
  apply (blend_all_lookup _ _ _ _ _ _ _ _
           (fun name w H => proj1 (Hc name w H))
           (targets_have i m o Hs Hb Ho) Hblend Ho Ho).
Qed.

(** The blend formula.  On a well-sized model with a backup and weights
    that are not negative, [applyBlendShapes] returns and every vertex is
    its original position plus the sum over the shapes of
    weight * (target - original). *)
Theorem applyBlendShapes_formula (m : Model) :
  well_sized m -> hasBackup_ m = true -> weights_clamped m ->
  exists m', applyBlendShapes m = Some m' /\
    List.length (verts_ m') = List.length (originalVerts_ m) /\
    forall i o, originalVerts_ m !! i = Some o ->
      exists v, verts_ m' !! i = Some v /\
        vec_eq v (vec_add o (weighted_offsets (blendWeights m)
                               (map_to_list (blendShapes m)) i o)).
Proof. apply applyBlendShapes_lookup. Qed.

Lemma applyBlendShapes_formula_witness :
  exists m', applyBlendShapes smiling = Some m' /\
    List.length (verts_ m') = List.length (originalVerts_ smiling) /\
    forall i o, originalVerts_ smiling !! i = Some o ->
      exists v, verts_ m' !! i = Some v /\
        vec_eq v (vec_add o (weighted_offsets (blendWeights smiling)
                               (map_to_list (blendShapes smiling)) i o)).
Proof.
  apply (applyBlendShapes_formula smiling).
  - unfold smiling. apply setBlendWeight_sized, addBlendShape_sized.
    split; [ reflexivity | ]. intros name target H. simpl in H.
    rewrite lookup_empty in H. discriminate.
  - reflexivity.
  - unfold smiling. apply setBlendWeight_clamped, addBlendShape_clamped.
    intros name w H. simpl in H. rewrite lookup_empty in H. discriminate.
Defined.

(** ** Sums over shapes with distinct names *)

Lemma weighted_offsets_zero weights shapes i o :
  Forall (fun s => default 0 (weights !! fst s) == 0) shapes ->
  vec_eq (weighted_offsets weights shapes i o) (mk_Vec3f 0 0 0).
Proof.
  induction 1 as [ | [name target] shapes Hz _ IH ]; simpl.
  - apply vec_eq_refl.
  - destruct (target !! i) as [t | ]; [ | exact IH ].
    simpl in Hz. destruct IH as (H1 & H2 & H3).
    unfold vec_eq, vec_add, vec_sub, vec_scale in *; simpl in *.
    rewrite H1, H2, H3, Hz. repeat split; ring.
Qed.

(** The weight of one name taken out of the sum. *)
Lemma weighted_offsets_split weights shapes name target i o t :
  NoDup (fst <$> shapes) -> (name, target) ∈ shapes -> target !! i = Some t ->
  vec_eq (weighted_offsets weights shapes i o)
         (vec_add (weighted_offsets (<[name := 0]> weights) shapes i o)
                  (vec_scale (vec_sub t o) (default 0 (weights !! name)))).
Proof.
  intros Hnd Hin Ht. induction shapes as [ | [n tg] shapes IH ].
  - inversion Hin.
  - simpl in Hnd. apply NoDup_cons in Hnd as [Hfresh Hnd].
    apply elem_of_cons in Hin as [Heq | Hin].
    + injection Heq as <- <-. simpl. rewrite Ht, lookup_insert_eq. simpl.
      assert (Hrest : weighted_offsets (<[name := 0]> weights) shapes i o
                      = weighted_offsets weights shapes i o).
      { clear IH Hnd. induction shapes as [ | [n' t'] shapes IH' ];
          [ reflexivity | ].
        simpl. rewrite lookup_insert_ne.
        - rewrite IH'; [ reflexivity | ].
          intros Hin'. apply Hfresh. simpl. right. exact Hin'.
        - intros ->. apply Hfresh. simpl. left. }
      rewrite Hrest. vec_ring.
    + assert (Hne : name <> n).
      { intros ->. apply Hfresh. apply list_elem_of_fmap.
        exists (n, target). split; [ reflexivity | exact Hin ]. }
      specialize (IH Hnd Hin). simpl. rewrite lookup_insert_ne by assumption.
      destruct (tg !! i) as [t' | ]; [ | exact IH ].
      destruct IH as (H1 & H2 & H3).
      unfold vec_eq, vec_add, vec_sub, vec_scale in *; simpl in *.
      rewrite H1, H2, H3. repeat split; ring.
Qed.

(** ** Expressions by name *)

Lemma clamp_value w : 0 <= w <= 1 -> fmax 0 (fmin 1 w) == w.
Proof.
  intros [Hlo Hhi]. unfold fmax, fmin.
  destruct (Qltb w 1) eqn:E1.
  - destruct (Qltb 0 w) eqn:E2; [ reflexivity | ].
    apply Qltb_false in E2. lra.
  - apply Qltb_false in E1. destruct (Qltb 0 1) eqn:E2; [ lra | ].
    apply Qltb_false in E2. lra.
Qed.

Lemma hasBlendShape_true m name :
  hasBlendShape m name = true <-> is_Some (blendShapes m !! name).
Proof.
  unfold hasBlendShape. destruct (blendShapes m !! name); split;
    intros H; try reflexivity; try discriminate; eauto.
  destruct H; discriminate.
Qed.

(** [setExpressionByName]: for a name that is no blend shape the mesh goes
    back to neutral; for a blend shape every vertex moves from its original
    position towards the target by the intensity clamped to [0,1], whatever
    the weights were before. *)
Theorem setExpressionByName_pose (m : Model) (name : string) (intensity : Q) :
  well_sized m -> hasBackup_ m = true ->
  (blendShapes m !! name = None ->
   setExpressionByName m name intensity = clearAllBlendWeights m) /\
  (forall target, blendShapes m !! name = Some target ->
   exists m', setExpressionByName m name intensity = Some m' /\
     List.length (verts_ m') = List.length (originalVerts_ m) /\
     forall i o t, originalVerts_ m !! i = Some o -> target !! i = Some t ->
       exists v, verts_ m' !! i = Some v /\
         vec_eq v (vec_add o (vec_scale (vec_sub t o)
                                (fmax 0 (fmin 1 intensity))))).
Proof.
  intros Hs Hb.
  destruct (clearAllBlendWeights_result m)
    as (m1 & Hclear & Hv1 & Ho1 & Hb1 & Hsh1 & Hw1 & Hw1').
  destruct (clearAllBlendWeights_sized m Hs) as (m1' & Hclear' & Hs1 & Hc1 & _).
  rewrite Hclear in Hclear'. injection Hclear' as <-.
  rewrite Hb in Hv1. unfold setExpressionByName. rewrite Hclear. split.
  - intros Hnone. unfold hasBlendShape. rewrite Hsh1, Hnone. reflexivity.
  - intros target Ht. unfold hasBlendShape. rewrite Hsh1, Ht.
    set (m2 := setBlendWeight m1 name intensity).
    assert (Hs2 : well_sized m2) by (apply setBlendWeight_sized; exact Hs1).
    assert (Hc2 : weights_clamped m2) by (apply setBlendWeight_clamped; exact Hc1).
    assert (Hb2 : hasBackup_ m2 = true).
    { unfold m2, setBlendWeight. destruct (blendShapes m1 !! name); exact Hb1. }
    assert (Ho2 : originalVerts_ m2 = originalVerts_ m).
    { unfold m2, setBlendWeight.
      destruct (blendShapes m1 !! name); simpl; rewrite Ho1; exact Hv1. }
    assert (Hsh2 : blendShapes m2 = blendShapes m).
    { unfold m2, setBlendWeight.
      destruct (blendShapes m1 !! name); simpl; exact Hsh1. }
    assert (Hw2 : blendWeights m2 =
                  <[name := fmax 0 (fmin 1 intensity)]> (blendWeights m1)).
    { unfold m2, setBlendWeight. rewrite Hsh1, Ht. reflexivity. }
    destruct (applyBlendShapes_lookup m2 Hs2 Hb2 Hc2) as (m' & Happly & Hlen & Hf).
    exists m'. split; [ exact Happly | ]. rewrite Ho2 in Hlen, Hf.
    split; [ exact Hlen | ].
    intros i o t Ho Hti. destruct (Hf i o Ho) as (v & Hv & Heq).
    exists v. split; [ exact Hv | ].
    eapply vec_eq_trans; [ exact Heq | ]. apply vec_add_eq; [ apply vec_eq_refl | ].
    rewrite Hsh2.
    eapply vec_eq_trans.
    { apply (weighted_offsets_split _ _ name target i o t).
      - apply NoDup_fst_map_to_list.
      - apply elem_of_map_to_list. exact Ht.
      - exact Hti. }
    rewrite Hw2, lookup_insert_eq. simpl.
    eapply vec_eq_trans.
    { apply vec_add_eq; [ | apply vec_eq_refl ].
      apply weighted_offsets_zero. apply Forall_forall. intros [n tg] _. simpl.
      destruct (decide (name = n)) as [<- | Hne].
      - rewrite lookup_insert_eq. reflexivity.
      - rewrite !lookup_insert_ne by assumption.
        destruct (blendWeights m1 !! n) as [w | ] eqn:E; simpl; [ | reflexivity ].
        rewrite (Hw1 _ _ E). reflexivity. }
    vec_ring.
Qed.

Lemma setExpressionByName_pose_witness :
  exists m', setExpressionByName smiling "smile" 0.5 = Some m' /\
    List.length (verts_ m') = List.length (originalVerts_ smiling).
Proof.
  assert (Hs : well_sized smiling).
  { unfold smiling. apply setBlendWeight_sized, addBlendShape_sized.
    split; [ reflexivity | ]. intros name target H. simpl in H.
    rewrite lookup_empty in H. discriminate. }
  destruct (setExpressionByName_pose smiling "smile" 0.5 Hs eq_refl) as [_ H].
  destruct (H smile_target eq_refl) as (m' & Hm' & Hlen & _).
  exists m'. split; assumption.
Defined.

(** [blendBetweenExpressions]: when one of the two names is no blend shape
    nothing changes; otherwise, for two different shapes and [t] in [0,1],
    every vertex is the linear interpolation (1 - t) * from + t * to of the
    two targets, whatever the weights were before. *)
Theorem blendBetweenExpressions_lerp (m : Model) (from to : string) (t : Q) :
  well_sized m -> hasBackup_ m = true ->
  (blendShapes m !! from = None \/ blendShapes m !! to = None ->
   blendBetweenExpressions m from to t = Some m) /\
  (forall source target,
   blendShapes m !! from = Some source -> blendShapes m !! to = Some target ->
   from <> to -> 0 <= t <= 1 ->
   exists m', blendBetweenExpressions m from to t = Some m' /\
     List.length (verts_ m') = List.length (originalVerts_ m) /\
     forall i a b, source !! i = Some a -> target !! i = Some b ->
       exists v, verts_ m' !! i = Some v /\ vec_eq v (vec_lerp a b t)).
Proof.
  intros Hs Hb. unfold blendBetweenExpressions, hasBlendShape. split.
  - intros [H | H]; rewrite H; simpl; [ reflexivity | ].
    destruct (blendShapes m !! from); reflexivity.
  - intros source target Hfrom Hto Hne Ht. rewrite Hfrom, Hto. simpl.
    set (m1 := setBlendWeight (zero_weights m) from (1 - t)).
    set (m2 := setBlendWeight m1 to t).
    assert (Hw1 : blendWeights m1 =
                  <[from := fmax 0 (fmin 1 (1 - t))]> ((fun _ => 0) <$> blendWeights m)).
    { unfold m1, setBlendWeight. simpl. rewrite Hfrom. reflexivity. }
    assert (Hsh1 : blendShapes m1 = blendShapes m).
    { unfold m1, setBlendWeight. simpl. rewrite Hfrom. reflexivity. }
    assert (Hw2 : blendWeights m2 =
                  <[to := fmax 0 (fmin 1 t)]> (blendWeights m1)).
    { unfold m2, setBlendWeight. rewrite Hsh1, Hto. reflexivity. }
    assert (Hsh2 : blendShapes m2 = blendShapes m).
    { unfold m2, setBlendWeight. rewrite Hsh1, Hto. reflexivity. }
    assert (Ho2 : originalVerts_ m2 = originalVerts_ m).
    { unfold m2, setBlendWeight. rewrite Hsh1, Hto. simpl.
      unfold m1, setBlendWeight. simpl. rewrite Hfrom. reflexivity. }
    assert (Hb2 : hasBackup_ m2 = true).
    { unfold m2, setBlendWeight. rewrite Hsh1, Hto. simpl.
      unfold m1, setBlendWeight. simpl. rewrite Hfrom. exact Hb. }
    assert (Hs2 : well_sized m2).
    { unfold m2, m1. do 2 apply setBlendWeight_sized. exact Hs. }
    assert (Hc2 : weights_clamped m2).
    { unfold m2, m1. do 2 apply setBlendWeight_clamped. apply zero_weights_clamped. }
    destruct (applyBlendShapes_lookup m2 Hs2 Hb2 Hc2) as (m' & Happly & Hlen & Hf).
    exists m'. split; [ exact Happly | ]. rewrite Ho2 in Hlen, Hf.
    split; [ exact Hlen | ].
    intros i a b Ha Hbi.
    assert (Hi : (i < List.length (originalVerts_ m))%nat).
    { destruct Hs as [Hback Hshapes].
      rewrite (Hback Hb), <- (Hshapes _ _ Hfrom).
      apply lookup_lt_is_Some_1. eauto. }
    destruct (lookup_lt_is_Some_2 _ _ Hi) as [o Ho].
    destruct (Hf i o Ho) as (v & Hv & Heq).
    exists v. split; [ exact Hv | ].
    eapply vec_eq_trans; [ exact Heq | ]. rewrite Hsh2.
    assert (Hsplit_to := weighted_offsets_split (blendWeights m2)
              (map_to_list (blendShapes m)) to target i o b
              (NoDup_fst_map_to_list _)
              (proj2 (elem_of_map_to_list _ _ _) Hto) Hbi).
    assert (Hsplit_from := weighted_offsets_split (<[to := 0]> (blendWeights m2))
              (map_to_list (blendShapes m)) from source i o a
              (NoDup_fst_map_to_list _)
              (proj2 (elem_of_map_to_list _ _ _) Hfrom) Ha).
    assert (Hzero : vec_eq (weighted_offsets
                       (<[from := 0]> (<[to := 0]> (blendWeights m2)))
                       (map_to_list (blendShapes m)) i o) (mk_Vec3f 0 0 0)).
    { apply weighted_offsets_zero. apply Forall_forall. intros [n tg] _. simpl.
      destruct (decide (from = n)) as [<- | Hn1];
        [ rewrite lookup_insert_eq; reflexivity | ].
      rewrite lookup_insert_ne by assumption.
      destruct (decide (to = n)) as [<- | Hn2];
        [ rewrite lookup_insert_eq; reflexivity | ].
      rewrite lookup_insert_ne by assumption.
      rewrite Hw2, lookup_insert_ne by assumption.
      rewrite Hw1, lookup_insert_ne by assumption.
      rewrite lookup_fmap.
      destruct (blendWeights m !! n); reflexivity. }
    assert (Hwto : default 0 (blendWeights m2 !! to) == t).
    { rewrite Hw2, lookup_insert_eq. simpl. apply clamp_value. exact Ht. }
    assert (Hwfrom : default 0 (<[to := 0]> (blendWeights m2) !! from) == 1 - t).
    { rewrite lookup_insert_ne by congruence.
      rewrite Hw2, lookup_insert_ne by congruence.
      rewrite Hw1, lookup_insert_eq. simpl. apply clamp_value. lra. }
    destruct Hsplit_to as (A1 & A2 & A3).
    destruct Hsplit_from as (B1 & B2 & B3).
    destruct Hzero as (C1 & C2 & C3).
    unfold vec_eq, vec_add, vec_sub, vec_scale, vec_lerp in *; simpl in *.
    rewrite A1, A2, A3, B1, B2, B3, C1, C2, C3, Hwto, Hwfrom.
    repeat split; ring.
Qed.

Lemma two_shapes_sized : well_sized two_shapes.
Proof.
  unfold two_shapes. do 2 apply addBlendShape_sized.
  split; [ reflexivity | ]. intros name target H. simpl in H.
  rewrite lookup_empty in H. discriminate.
Qed.

Lemma blendBetweenExpressions_lerp_witness :
  exists m', blendBetweenExpressions two_shapes "smile" "frown" 0.25 = Some m' /\
    List.length (verts_ m') = List.length (originalVerts_ two_shapes).
Proof.
  destruct (blendBetweenExpressions_lerp two_shapes "smile" "frown" 0.25
              two_shapes_sized eq_refl) as [_ H].
  destruct (H smile_target [mk_Vec3f 0 (-1) 0; mk_Vec3f 1 0 1])
    as (m' & Hm' & Hlen & _).
  - reflexivity.
  - reflexivity.
  - discriminate.
  - lra.
  - exists m'. split; assumption.
Defined.



End MeshBlendFacts.

(* ====================================================================== *)
(** * Ray-object intersection: triangles and lists *)
(* ====================================================================== *)

Module HitFacts.
Import Numerics NumericsFacts RayTracer Examples RayTracerFacts.


Section Hits.
Context {rng : Type}.

(** ** The triangle test *)

(** The record of a hit does not depend on the upper bound: the test with
    another bound fails exactly when the distance is above that bound. *)
Lemma triangle_hit_bound (tri : @rt_triangle rng) r t_min c rec :
  rt_triangle_hit tri r t_min c = Some rec ->
  forall c', rt_triangle_hit tri r t_min c' =
             if dgt (rec_t rec) c' then None else Some rec.
Proof.
  unfold rt_triangle_hit.
  destruct (dgt _ _ && dlt _ _); [ discriminate | ].
  destruct (dlt _ d0 || dgt _ d1); [ discriminate | ].
  destruct (dlt _ d0 || dgt _ d1); [ discriminate | ].
  match goal with
  | |- (if dlt ?t _ || _ then _ else _) = _ -> _ => set (tt := t)
  end.
  destruct (dlt tt t_min) eqn:Elo; [ discriminate | ].
  destruct (dgt tt c) eqn:Ehi; [ discriminate | ].
  simpl. intros [= <-] c'. simpl. reflexivity.
Qed.

Lemma triangle_hit_not_above (tri : @rt_triangle rng) r t_min c rec :
  rt_triangle_hit tri r t_min c = Some rec -> dgt (rec_t rec) c = false.
Proof.
  intros H. pose proof (triangle_hit_bound tri r t_min c rec H c) as H'.
  rewrite H in H'. destruct (dgt (rec_t rec) c); [ discriminate | reflexivity ].
Qed.

(** Moeller-Trumbore is sound and complete.  For a finite triangle and a
    finite ray: a reported hit lies on the ray at a distance that is neither
    below [t_min] nor above [t_max], and at that distance the ray is inside
    the triangle, at v0 + u * edge1 + v * edge2 with u, v >= 0 and
    u + v <= 1; the record carries the triangle's material.  Conversely,
    when the determinant is at least epsilon away from zero and the ray is
    inside the triangle at a distance t of the interval, a hit at a
    distance of value t is reported. *)
Theorem triangle_hit_correct (tri : @rt_triangle rng) (r : rt_ray)
    (t_min t_max : double) :
  tri_finite tri -> ray_finite r ->
  (forall rec, rt_triangle_hit tri r t_min t_max = Some rec ->
     dlt (rec_t rec) t_min = false /\ dgt (rec_t rec) t_max = false /\
     rec_p rec = ray_at r (rec_t rec) /\ rec_mat rec = tri_mat tri /\
     exists t u v : Q,
       rec_t rec = Fin t /\ (0 <= u)%Q /\ (0 <= v)%Q /\ (u + v <= 1)%Q /\
       veq (ray_at r (Fin t))
           (vadd (tri_v0 tri)
                 (vadd (vscale (Fin u) (tri_edge1 tri))
                       (vscale (Fin v) (tri_edge2 tri))))) /\
  (forall (a t u v : Q),
     tri_det tri r = Fin a ->
     (a <= - (0.00000001) \/ 0.00000001 <= a)%Q ->
     (0 <= u)%Q -> (0 <= v)%Q -> (u + v <= 1)%Q ->
     dlt (Fin t) t_min = false -> dgt (Fin t) t_max = false ->
     veq (ray_at r (Fin t))
         (vadd (tri_v0 tri)
               (vadd (vscale (Fin u) (tri_edge1 tri))
                     (vscale (Fin v) (tri_edge2 tri)))) ->
     exists rec, rt_triangle_hit tri r t_min t_max = Some rec /\
                 deq (rec_t rec) (Fin t)).
Proof.
  intros (Hv0 & He1 & He2) (Ho & Hd).
  destruct (vfinite_inv _ Hv0) as (x0 & y0 & z0 & E0).
  destruct (vfinite_inv _ He1) as (a1 & b1 & c1 & E1).
  destruct (vfinite_inv _ He2) as (a2 & b2 & c2 & E2).
  destruct (vfinite_inv _ Ho) as (ox & oy & oz & Eo).
  destruct (vfinite_inv _ Hd) as (dx & dy & dz & Ed).
  split.
  - intros rec Hhit.
    pose proof (triangle_hit_not_above _ _ _ _ _ Hhit) as Hup.
    unfold rt_triangle_hit in Hhit.
    rewrite E0, E1, E2, Eo, Ed in Hhit.
    cbn [cross dot vsub vx vy vz dmul dsub dadd dneg] in Hhit.
    match type of Hhit with context [dgt (Fin ?qa) _] => set (a := qa) in * end.
    unfold dgt, EPSILON in Hhit. cbn [dneg dlt] in Hhit.
    destruct (Qltb (Qopp 0.00000001) a && Qltb a 0.00000001) eqn:Hguard;
      [ discriminate | ].
    assert (Ha : ~ (a == 0)%Q).
    { intros Hz. apply andb_false_iff in Hguard as [H | H];
        apply Qltb_false in H; lra. }
    unfold ddiv, d1 in Hhit. fold d1 in Hhit.
    assert (Hne : Qeq_bool a 0 = false).
    { destruct (Qeq_bool a 0) eqn:E; [ | reflexivity ].
      apply Qeq_bool_iff in E. contradiction. }
    rewrite Hne in Hhit. cbn [dmul dadd] in Hhit.
    match type of Hhit with
    | (if dlt (Fin ?qu) d0 || _ then _ else _) = _ => set (u := qu) in *
    end.
    unfold d0, d1 in Hhit. cbn [dlt] in Hhit.
    destruct (Qltb u 0 || Qltb 1 u) eqn:Hu; [ discriminate | ].
    match type of Hhit with
    | (if Qltb ?qv 0%Q || _ then _ else _) = _ => set (v := qv) in *
    end.
    destruct (Qltb v 0 || Qltb 1 (u + v)) eqn:Hv; [ discriminate | ].
    match type of Hhit with
    | context [dlt t_max (Fin ?qt)] => set (t := qt) in *
    end.
    change (match t_min with
            | Fin y => Qltb t y
            | PInf => true
            | _ => false
            end) with (dlt (Fin t) t_min) in Hhit.
    destruct (dlt (Fin t) t_min) eqn:Hlo; [ discriminate | ].
    destruct (dlt t_max (Fin t)) eqn:Hhi; [ discriminate | ].
    simpl in Hhit. injection Hhit as <-.
    unfold set_face_normal. cbn [rec_t rec_p rec_mat].
    split; [ exact Hlo | ]. split; [ exact Hhi | ].
    split; [ reflexivity | ]. split; [ reflexivity | ].
    exists t, u, v. split; [ reflexivity | ].
    apply orb_false_iff in Hu as [Hu1 Hu2]. apply orb_false_iff in Hv as [Hv1 Hv2].
    apply Qltb_false in Hu1, Hu2, Hv1, Hv2.
    split; [ exact Hu1 | ]. split; [ exact Hv1 | ]. split; [ exact Hv2 | ].
    unfold ray_at, veq. rewrite E0, E1, E2, Eo, Ed.
    cbn [vadd vscale vx vy vz dmul dadd deq].
    unfold t, u, v, a. repeat split; field; exact Ha.
  - intros a t u v Hdet Haway Hu Hv Huv Hlo Hhi Hpoint.
    unfold tri_det in Hdet. unfold ray_at, veq in Hpoint.
    unfold rt_triangle_hit. rewrite E0, E1, E2, Eo, Ed in *.
    cbn [cross dot vsub vadd vscale vx vy vz dmul dsub dadd dneg deq]
      in Hdet, Hpoint |- *.
    injection Hdet as Hdet. destruct Hpoint as (Px & Py & Pz).
    (* the offset of the origin from v0 *)
    assert (Sx : (ox + - x0 == u * a1 + v * a2 - t * dx)%Q) by lra.
    assert (Sy : (oy + - y0 == u * b1 + v * b2 - t * dy)%Q) by lra.
    assert (Sz : (oz + - z0 == u * c1 + v * c2 - t * dz)%Q) by lra.
    set (sx := (ox + - x0)%Q) in *. set (sy := (oy + - y0)%Q) in *.
    set (sz := (oz + - z0)%Q) in *.
    rewrite Hdet.
    assert (Ha : ~ (a == 0)%Q) by lra.
    unfold dgt, EPSILON. cbn [dneg dlt].
    assert (Hguard : Qltb (Qopp 0.00000001) a && Qltb a 0.00000001 = false).
    { apply andb_false_iff. destruct Haway as [H | H];
        [ left | right ]; apply Qltb_false; lra. }
    rewrite Hguard.
    unfold ddiv, d1. fold d1.
    assert (Hne : Qeq_bool a 0 = false).
    { destruct (Qeq_bool a 0) eqn:E; [ | reflexivity ].
      apply Qeq_bool_iff in E. contradiction. }
    rewrite Hne. cbn [dmul dadd]. unfold d0, d1. cbn [dlt].
    match goal with
    | |- context [if Qltb ?qu 0%Q || _ then _ else _] => set (u' := qu)
    end.
    assert (Eu : (u' == u)%Q).
    { unfold u'. rewrite Sx, Sy, Sz. rewrite <- Hdet. field.
      rewrite Hdet. exact Ha. }
    assert (Hu' : Qltb u' 0 || Qltb 1 u' = false).
    { apply orb_false_iff. split; apply Qltb_false; lra. }
    rewrite Hu'.
    match goal with
    | |- context [if Qltb ?qv 0%Q || _ then _ else _] =>
        set (v' := qv)
    end.
    assert (Ev : (v' == v)%Q).
    { unfold v'. rewrite Sx, Sy, Sz. rewrite <- Hdet. field.
      rewrite Hdet. exact Ha. }
    assert (Hv' : Qltb v' 0 || Qltb 1 (u' + v') = false).
    { apply orb_false_iff. split; apply Qltb_false; lra. }
    rewrite Hv'.
    match goal with
    | |- context [dlt t_max (Fin ?qt)] => set (t' := qt)
    end.
    change (match t_min with
            | Fin y => Qltb t' y
            | PInf => true
            | _ => false
            end) with (dlt (Fin t') t_min).
    assert (Et : (t' == t)%Q).
    { unfold t'. rewrite Sx, Sy, Sz. rewrite <- Hdet. field.
      rewrite Hdet. exact Ha. }
    assert (Hlo' : dlt (Fin t') t_min = false).
    { destruct t_min as [m | | | ]; simpl in *; try reflexivity; try discriminate.
      apply Qltb_false. apply Qltb_false in Hlo. lra. }
    assert (Hhi' : dlt t_max (Fin t') = false).
    { unfold dgt in Hhi.
      destruct t_max as [m | | | ]; simpl in *; try reflexivity; try discriminate.
      apply Qltb_false. apply Qltb_false in Hhi. lra. }
    rewrite Hlo', Hhi'. simpl. eexists. split; [ reflexivity | ].
    simpl. exact Et.
Qed.

(** ** The brute-force loop *)

Lemma finite_triangle_hit (o : @rt_hittable rng) r t_min c rec :
  finite_triangle o -> ray_finite r -> hit o r t_min c = Some rec ->
  is_fin (rec_t rec) = true /\ dgt (rec_t rec) c = false /\
  forall c', hit o r t_min c' = if dgt (rec_t rec) c' then None else Some rec.
Proof.
  destruct o as [tri | s]; simpl; [ | contradiction ].
  intros Htri Hray Hhit. split; [ | split ].
  - apply (triangle_hit_finite tri r t_min c rec Htri Hray Hhit).
  - exact (triangle_hit_not_above _ _ _ _ _ Hhit).
  - exact (triangle_hit_bound _ _ _ _ _ Hhit).
Qed.

(** Order facts on finite distances. *)
Lemma fin_not_above_trans a b c :
  is_fin a = true -> is_fin b = true ->
  dgt a b = false -> dgt b c = false -> dgt a c = false.
Proof.
  destruct a as [x | | | ], b as [y | | | ]; try discriminate.
  intros _ _. unfold dgt. destruct c as [z | | | ]; simpl; try reflexivity;
    try discriminate.
  intros H1 H2. apply Qltb_false in H1, H2. apply Qltb_false. lra.
Qed.

Lemma fin_not_below_trans a b c :
  is_fin a = true -> is_fin b = true -> is_fin c = true ->
  dlt b a = false -> dlt c b = false -> dlt c a = false.
Proof.
  destruct a as [x | | | ], b as [y | | | ], c as [z | | | ]; try discriminate.
  intros _ _ _. simpl. intros H1 H2.
  apply Qltb_false in H1, H2. apply Qltb_false. lra.
Qed.

Lemma fin_above_not_below a b c :
  is_fin a = true -> is_fin b = true -> is_fin c = true ->
  dgt a b = true -> dlt b c = false -> dlt a c = false.
Proof.
  destruct a as [x | | | ], b as [y | | | ], c as [z | | | ]; try discriminate.
  intros _ _ _. unfold dgt. simpl. intros H1 H2.
  apply Qltb_true in H1. apply Qltb_false in H2. apply Qltb_false. lra.
Qed.

Lemma fin_not_below_refl a : is_fin a = true -> dlt a a = false.
Proof.
  destruct a as [x | | | ]; try discriminate. intros _. simpl.
  apply Qltb_false. lra.
Qed.

Lemma list_hit_loop r t_min t_max :
  forall (objects : list (@rt_hittable rng)) st,
  Forall finite_triangle objects -> ray_finite r -> loop_state t_max st ->
  match fst (fold_left (list_hit_step r t_min) objects st) with
  | None =>
      fst st = None /\
      forall o, In o objects -> hit o r t_min t_max = None
  | Some rec =>
      is_fin (rec_t rec) = true /\
      (fst st = Some rec \/
       exists o, In o objects /\ hit o r t_min t_max = Some rec) /\
      (forall rec0, fst st = Some rec0 -> dlt (rec_t rec0) (rec_t rec) = false) /\
      (forall o rec_o, In o objects -> hit o r t_min t_max = Some rec_o ->
         dlt (rec_t rec_o) (rec_t rec) = false)
  end.
Proof.
  induction objects as [ | o objects IH ]; intros [orec c] Hall Hray Hst;
    unfold loop_state in Hst; cbn [fst snd] in Hst.
  - simpl. destruct orec as [rec | ].
    + destruct Hst as (_ & Hfin & _). simpl in *.
      split; [ exact Hfin | ]. split; [ left; reflexivity | ].
      split; [ | intros o rec_o [] ].
      intros rec0 [= <-]. apply fin_not_below_refl. exact Hfin.
    + split; [ reflexivity | intros o [] ].
  - apply Forall_cons in Hall as [Ho Hall]. simpl fold_left.
    unfold list_hit_step at 2. cbn [snd].
    destruct (hit o r t_min c) as [rec1 | ] eqn:Hhit.
    + (* the object is hit below the bound *)
      destruct (finite_triangle_hit o r t_min c rec1 Ho Hray Hhit)
        as (Hfin1 & Hup1 & Hbound1).
      assert (Hmax1 : dgt (rec_t rec1) t_max = false).
      { destruct orec as [rec0 | ]; simpl in Hst.
        - destruct Hst as (-> & Hfin0 & Hmax0).
          exact (fin_not_above_trans _ _ _ Hfin1 Hfin0 Hup1 Hmax0).
        - subst c. exact Hup1. }
      assert (Hfull1 : hit o r t_min t_max = Some rec1).
      { rewrite (Hbound1 t_max), Hmax1. reflexivity. }
      specialize (IH (Some rec1, rec_t rec1) Hall Hray).
      destruct (fst (fold_left (list_hit_step r t_min) objects
                       (Some rec1, rec_t rec1))) as [rec | ].
      * destruct IH as (Hfin & Hfrom & Hprev & Hrest).
        { unfold loop_state. cbn [fst snd]. repeat split; assumption. }
        split; [ exact Hfin | ]. split; [ | split ].
        -- right. destruct Hfrom as [[= <-] | (o' & Hin & Ho')].
           ++ exists o. split; [ left; reflexivity | exact Hfull1 ].
           ++ exists o'. split; [ right; exact Hin | exact Ho' ].
        -- intros rec0 E. simpl in E. subst orec. simpl in Hst.
           destruct Hst as (-> & Hfin0 & _).
           apply (fin_not_below_trans _ (rec_t rec1) _ Hfin Hfin1 Hfin0).
           ++ apply Hprev. reflexivity.
           ++ exact Hup1.
        -- intros o' rec_o [<- | Hin] Ho'.
           ++ rewrite Hfull1 in Ho'. injection Ho' as <-.
              apply Hprev. reflexivity.
           ++ exact (Hrest o' rec_o Hin Ho').
      * destruct IH as [E _]; [ | discriminate ].
        unfold loop_state. cbn [fst snd]. repeat split; assumption.
    + (* the object is missed below the bound *)
      specialize (IH (orec, c) Hall Hray Hst).
      destruct (fst (fold_left (list_hit_step r t_min) objects (orec, c)))
        as [rec | ].
      * destruct IH as (Hfin & Hfrom & Hprev & Hrest).
        split; [ exact Hfin | ]. split; [ | split ].
        -- destruct Hfrom as [E | (o' & Hin & Ho')]; [ left; exact E | ].
           right. exists o'. split; [ right; exact Hin | exact Ho' ].
        -- exact Hprev.
        -- intros o' rec_o [<- | Hin] Ho'; [ | exact (Hrest o' rec_o Hin Ho') ].
           destruct (finite_triangle_hit o r t_min t_max rec_o Ho Hray Ho')
             as (Hfin_o & _ & Hbound_o).
           rewrite (Hbound_o c) in Hhit.
           destruct (dgt (rec_t rec_o) c) eqn:Hgt; [ | discriminate ].
           destruct orec as [rec0 | ]; simpl in Hst.
           ++ destruct Hst as (-> & Hfin0 & _).
              apply (fin_above_not_below _ (rec_t rec0) _ Hfin_o Hfin0 Hfin Hgt).
              apply Hprev. reflexivity.
           ++ subst c.
              rewrite (proj1 (proj2 (finite_triangle_hit o r t_min t_max rec_o
                                       Ho Hray Ho'))) in Hgt. discriminate.
      * destruct IH as [E Hnone]. split; [ exact E | ].
        intros o' [<- | Hin]; [ | exact (Hnone o' Hin) ].
        simpl in E. subst orec. simpl in Hst. subst c. exact Hhit.
Qed.

(** The closest valid hit wins.  Over a list of finite triangles the
    brute-force loop reports no hit exactly when no triangle is hit in the
    interval; otherwise its record is the record of one of the triangles,
    and no triangle of the list is hit at a smaller distance. *)
Theorem closest_hit_wins (objects : list (@rt_hittable rng)) (r : rt_ray)
    (t_min t_max : double) :
  Forall finite_triangle objects -> ray_finite r ->
  match rt_hittable_list_hit objects r t_min t_max with
  | None => forall o, In o objects -> hit o r t_min t_max = None
  | Some rec =>
      (exists o, In o objects /\ hit o r t_min t_max = Some rec) /\
      forall o rec_o, In o objects -> hit o r t_min t_max = Some rec_o ->
        dlt (rec_t rec_o) (rec_t rec) = false
  end.
Proof.
  intros Hall Hray. unfold rt_hittable_list_hit.
  pose proof (list_hit_loop r t_min t_max objects (None, t_max) Hall Hray eq_refl)
    as H.
  destruct (fst (fold_left (list_hit_step r t_min) objects (None, t_max)))
    as [rec | ].
  - destruct H as (_ & Hfrom & _ & Hrest). split; [ | exact Hrest ].
    destruct Hfrom as [E | H]; [ discriminate | exact H ].
  - apply H.
Qed.

End Hits.

Lemma triangle_hit_correct_witness :
  exists rec, rt_triangle_hit (wall matte) axis_ray (Fin 0.001) rt_infinity
              = Some rec /\ deq (rec_t rec) (Fin 2).
Proof.
  destruct (triangle_hit_correct (wall matte) axis_ray (Fin 0.001) rt_infinity)
    as [_ Hcomplete].
  - repeat split; reflexivity.
  - split; reflexivity.
  - apply (Hcomplete (-16)%Q 2%Q 0.25%Q 0.25%Q).
    + vm_compute. reflexivity.
    + left. lra.
    + lra.
    + lra.
    + lra.
    + reflexivity.
    + reflexivity.
    + repeat split; vm_compute; reflexivity.
Defined.

Lemma closest_hit_wins_witness :
  match rt_hittable_list_hit two_walls axis_ray (Fin 0.001) rt_infinity with
  | None => forall o, In o two_walls ->
      hit o axis_ray (Fin 0.001) rt_infinity = None
  | Some rec =>
      (exists o, In o two_walls /\
                 hit o axis_ray (Fin 0.001) rt_infinity = Some rec) /\
      forall o rec_o, In o two_walls ->
        hit o axis_ray (Fin 0.001) rt_infinity = Some rec_o ->
        dlt (rec_t rec_o) (rec_t rec) = false
  end.
Proof.
  apply (closest_hit_wins two_walls axis_ray (Fin 0.001) rt_infinity).
  - repeat constructor; reflexivity.
  - split; reflexivity.
Defined.

(** The far wall comes first in the list and the near one is reported. *)
Example two_walls_closest :
  exists rec, rt_hittable_list_hit two_walls axis_ray (Fin 0.001) rt_infinity
              = Some rec /\ deq (rec_t rec) (Fin 2).
Proof. eexists. split; [ vm_compute; reflexivity | reflexivity ]. Qed.

End HitFacts.

(* ====================================================================== *)
(** * Bounding boxes: the slab test *)
(* ====================================================================== *)

Module BoxFacts.
Import Numerics NumericsFacts RayTracer Examples RayTracerFacts.

(** ** The slab test *)










End BoxFacts.

(* ====================================================================== *)
(** * Materials and the colour of a ray *)
(* ====================================================================== *)

Module BlackFacts.
Import Numerics NumericsFacts RayTracer Examples RayTracerFacts.

Section Black.
Context {rng : Type}.
Variable random_unit_vector : rng -> rt_vec3 * rng.

(** ** Materials *)


Lemma lambertian_finite albedo :
  vfinite albedo = true ->
  finite_attenuation (rt_lambertian random_unit_vector albedo).
Proof.
  intros Ha r_in hit_point normal g attenuation scattered g'. simpl.
  destruct (random_unit_vector g). intros [= <- _ _]. exact Ha.
Qed.

Lemma hit_material (o : @rt_hittable rng) r t_min t_max rec :
  hit o r t_min t_max = Some rec -> rec_mat rec = material_of o.
Proof.
  destruct o as [tri | s]; simpl.
  - unfold rt_triangle_hit.
    repeat match goal with
           | |- (if ?b then None else _) = Some _ -> _ =>
               destruct b; [ discriminate | ]
           end.
    intros [= <-]. reflexivity.
  - unfold rt_sphere_hit.
    repeat match goal with
           | |- (if ?b then _ else _) = Some _ -> _ =>
               destruct b; try discriminate
           end;
    intros [= <-]; reflexivity.
Qed.

Lemma bvh_hit_material objects r t_min t_max (rec : @rt_hit_record rng) :
  rt_bvh_hit (build_bvh objects) r t_min t_max = Some rec ->
  exists o, In o objects /\ rec_mat rec = material_of o.
Proof.
  unfold rt_bvh_hit, build_bvh.
  destruct objects as [ | first rest ]; [ discriminate | ]. cbn [root].
  destruct (build_tree _ _) as [ node | ] eqn:Hbuild; [ | discriminate ].
  intros Hhit.
  destruct (hit_node_sound _ _ _ Hbuild r t_min t_max rec Hhit)
    as (_ & (o & bound & Hin & Ho)).
  exists o. split; [ exact Hin | exact (hit_material _ _ _ _ _ Ho) ].
Qed.

Lemma vmul_zero a c :
  vfinite a = true -> vzero c -> vzero (vmul a c).
Proof.
  intros Ha (Hx & Hy & Hz).
  destruct (vfinite_inv _ Ha) as (ax & ay & az & ->).
  destruct c as [[cx | | | ] [cy | | | ] [cz | | | ]]; simpl in *;
    try contradiction.
  unfold vzero. simpl. repeat split.
  - rewrite Hx. ring.
  - rewrite Hy. ring.
  - rewrite Hz. ring.
Qed.

Lemma black_zero : vzero black.
Proof. repeat split; reflexivity. Qed.

Lemma ray_color_zero (objects : list (@rt_hittable rng))
    (r : rt_ray) (depth : Z) (g : rng) :
  (forall o, In o objects -> finite_attenuation (material_of o)) ->
  vzero (fst (ray_color (Some (build_bvh objects)) r depth g)).
Proof.
  intros Hmat. unfold ray_color. generalize (Z.to_nat depth) as fuel.
  intros fuel. revert r g.
  induction fuel as [ | fuel IH ]; intros r g; simpl.
  - exact black_zero.
  - destruct (rt_bvh_hit (build_bvh objects) r (Fin 0.001) rt_infinity)
      as [ rec | ] eqn:Hhit; [ | exact black_zero ].
    destruct (bvh_hit_material _ _ _ _ _ Hhit) as (o & Hin & Hm).
    destruct (scatter (rec_mat rec) r (rec_p rec) (rec_normal rec) g)
      as [[[attenuation scattered] | ] g'] eqn:Hscatter;
      [ | exact black_zero ].
    specialize (IH scattered g').
    destruct (ray_color_rec (Some (build_bvh objects)) fuel scattered g')
      as [c g''].
    simpl in *. apply vmul_zero; [ | exact IH ].
    rewrite Hm in Hscatter. exact (Hmat o Hin _ _ _ _ _ _ _ Hscatter).
Qed.

(** The path tracer of the real-time renderer has no light in it: with
    materials of finite attenuation (every Lambertian surface of finite
    albedo is one) the colour of every ray, at every depth, is black. *)
Theorem realtime_ray_color_black (objects : list (@rt_hittable rng))
    (r : rt_ray) (depth : Z) (g : rng) :
  (forall o, In o objects -> finite_attenuation (material_of o)) ->
  vzero (fst (ray_color (Some (build_bvh objects)) r depth g)).
Proof. apply ray_color_zero. Qed.

End Black.


Lemma realtime_ray_color_black_witness :
  vzero (fst (ray_color (Some (build_bvh two_walls)) axis_ray 5 tt)).
Proof.
  apply (realtime_ray_color_black two_walls axis_ray 5 tt).
  intros o [<- | [<- | []]]; simpl;
    apply (lambertian_finite fixed_sampler); reflexivity.
Defined.

End BlackFacts.

(* ====================================================================== *)
(** * Colour conversion, pixels and the blend *)
(* ====================================================================== *)

Module ColorFacts.
Import Numerics NumericsFacts RayTracer Image ColorConversion PathTracer
       Realtime Examples RayTracerFacts.

(** ** Truncation *)

Lemma float_to_int_range (q : Q) (n : Z) :
  (0 <= q)%Q -> (q < inject_Z n)%Q -> 0 <= float_to_int q < n.
Proof.
  unfold float_to_int, Qle, Qlt. destruct q as [a d]. simpl.
  intros H0 Hn. assert (Ha : 0 <= a) by lia. split.
  - apply Z.quot_pos; lia.
  - apply Z.quot_lt_upper_bound; lia.
Qed.

Lemma float_to_int_zero (q : Q) : (q == 0)%Q -> float_to_int q = 0.
Proof.
  unfold float_to_int, Qeq. destruct q as [a d]. simpl. intros H.
  assert (a = 0) by lia. subst a. reflexivity.
Qed.

Lemma Qsqrt_nonneg q : (0 <= q)%Q -> (0 <= Qsqrt q)%Q.
Proof.
  unfold Qsqrt, Qle. destruct q as [a d]. simpl. intros H.
  pose proof (Z.sqrt_nonneg (a * Z.pos d)). lia.
Qed.

(** The clamp of a channel: a finite value between 0 and 0.999, whatever
    goes in. *)
Lemma clamp_channel (r : double) :
  exists x, dmax (Fin 0) (dmin (Fin 0.999) r) = Fin x /\ (0 <= x <= 0.999)%Q.
Proof.
  unfold dmax, dmin.
  destruct r as [q | | | ]; cbn [dlt].
  - destruct (Qltb q 0.999) eqn:E1; cbn [dlt].
    + apply Qltb_true in E1.
      destruct (Qltb 0 q) eqn:E2.
      * apply Qltb_true in E2. exists q. split; [ reflexivity | lra ].
      * exists 0%Q. split; [ reflexivity | lra ].
    + exists 0.999%Q. split; [ reflexivity | lra ].
  - exists 0.999%Q. split; [ reflexivity | lra ].
  - exists 0%Q. split; [ reflexivity | lra ].
  - exists 0.999%Q. split; [ reflexivity | lra ].
Qed.

Lemma channel_byte_range (c : double) :
  exists b, channel_byte c = Some b /\ 0 <= b <= 254.
Proof.
  unfold channel_byte.
  destruct (clamp_channel (linear_to_gamma c)) as (x & -> & Hx).
  cbn [dmul double_to_int]. eexists. split; [ reflexivity | ].
  assert (H : 0 <= float_to_int (x * 255) < 255)
    by (apply float_to_int_range; [ | change (inject_Z 255) with 255%Q ]; lra).
  lia.
Qed.

Lemma channel_byte_dark (c : double) :
  not_positive c -> channel_byte c = Some 0.
Proof.
  unfold not_positive, channel_byte, linear_to_gamma. intros ->. reflexivity.
Qed.

Lemma channel_byte_bright (c : double) :
  dle d1 c = true -> channel_byte c = Some 254.
Proof.
  unfold channel_byte, linear_to_gamma, dgt, d0, d1.
  destruct c as [q | | | ]; cbn [dle dlt]; try discriminate.
  - intros H. apply Qle_bool_iff in H.
    assert (Hpos : Qltb 0 q = true) by (apply Qltb_true; lra).
    rewrite Hpos. cbn [dsqrt].
    assert (Hneg : Qltb q 0 = false) by (apply Qltb_false; lra).
    rewrite Hneg.
    assert (Hs : (1 <= Qsqrt q)%Q).
    { unfold Qsqrt, Qle in *. destruct q as [a d]. simpl in *.
      assert (Hd : Z.pos d * Z.pos d <= a * Z.pos d) by nia.
      pose proof (Z.sqrt_le_square (a * Z.pos d) (Z.pos d)) as Hsq.
      assert (Z.pos d <= Z.sqrt (a * Z.pos d)) by (apply Hsq; lia). lia. }
    unfold dmin. cbn [dlt].
    assert (H1 : Qltb (Qsqrt q) 0.999 = false) by (apply Qltb_false; lra).
    rewrite H1. reflexivity.
  - intros _. reflexivity.
Qed.

(** Every colour, NaN and the infinities included, is converted: each
    channel is a byte between 0 and 254 (255 is never produced), the alpha
    is 255, a component that is zero, negative or NaN gives 0 and a
    component of 1 or more gives 254. *)
Theorem rt_color_to_tga_bytes (c : rt_color) :
  exists col, rt_color_to_tga c = Some col /\
    0 <= channel col 2 <= 254 /\ 0 <= channel col 1 <= 254 /\
    0 <= channel col 0 <= 254 /\ channel col 3 = 255 /\
    (not_positive (vx c) -> channel col 2 = 0) /\
    (not_positive (vy c) -> channel col 1 = 0) /\
    (not_positive (vz c) -> channel col 0 = 0) /\
    (dle d1 (vx c) = true -> channel col 2 = 254) /\
    (dle d1 (vy c) = true -> channel col 1 = 254) /\
    (dle d1 (vz c) = true -> channel col 0 = 254).
Proof.
  unfold rt_color_to_tga.
  destruct (channel_byte_range (vx c)) as (rb & Hr & Hrb).
  destruct (channel_byte_range (vy c)) as (gb & Hg & Hgb).
  destruct (channel_byte_range (vz c)) as (bb & Hb & Hbb).
  rewrite Hr, Hg, Hb. eexists. split; [ reflexivity | ].
  unfold TGAColor_rgb, channel. simpl.
  repeat split; try lia.
  - intros H. rewrite (channel_byte_dark _ H) in Hr. congruence.
  - intros H. rewrite (channel_byte_dark _ H) in Hg. congruence.
  - intros H. rewrite (channel_byte_dark _ H) in Hb. congruence.
  - intros H. rewrite (channel_byte_bright _ H) in Hr. congruence.
  - intros H. rewrite (channel_byte_bright _ H) in Hg. congruence.
  - intros H. rewrite (channel_byte_bright _ H) in Hb. congruence.
Qed.



(** ** One pixel of the real-time tracer *)

Section PixelFacts.
Context {rng : Type}.
Variable primary_ray : Z -> Z -> Z -> rng -> rt_ray * rng.

Lemma vadd_zero a b : vzero a -> vzero b -> vzero (vadd a b).
Proof.
  intros (Ax & Ay & Az) (Bx & By & Bz).
  destruct a as [[ax | | | ] [ay | | | ] [az | | | ]]; simpl in *;
    try contradiction.
  destruct b as [[bx | | | ] [b_y | | | ] [bz | | | ]]; simpl in *;
    try contradiction.
  unfold vzero. simpl. repeat split.
  - rewrite Ax, Bx. ring.
  - rewrite Ay, By. ring.
  - rewrite Az, Bz. ring.
Qed.

Lemma sample_loop_black (objects : list (@rt_hittable rng)) max_depth x y :
  (forall o, In o objects -> finite_attenuation (material_of o)) ->
  forall samples pixel_color g, vzero pixel_color ->
    vzero (fst (sample_loop primary_ray (Some (build_bvh objects)) max_depth
                  x y samples pixel_color g)).
Proof.
  intros Hmat. induction samples as [ | sample samples IH ];
    intros pixel_color g Hz; simpl.
  - exact Hz.
  - destruct (primary_ray x y sample g) as [r g1].
    pose proof (BlackFacts.ray_color_zero objects r max_depth g1 Hmat)
      as Hc.
    destruct (ray_color (Some (build_bvh objects)) r max_depth g1) as [c g2].
    apply IH. apply vadd_zero; [ exact Hz | exact Hc ].
Qed.

Lemma scaled_zero_dark (s z : double) :
  deq z d0 -> is_fin s = true \/ s = PInf -> not_positive (dmul s z).
Proof.
  unfold not_positive, dgt, d0.
  destruct z as [q | | | ]; simpl; try contradiction.
  intros Hq [Hs | ->].
  - destruct s as [a | | | ]; try discriminate. simpl.
    apply Qltb_false. rewrite Hq. lra.
  - simpl. unfold Qsgn. destruct q as [n d]. unfold Qeq in Hq. simpl in *.
    assert (n = 0) by lia. subst n. reflexivity.
Qed.

(** Every pixel that the real-time tracer stores is black: with materials
    of finite attenuation, [trace_pixel] yields the colour (0, 0, 0) for
    every pixel, number of samples, depth and camera. *)
Theorem trace_pixel_black (objects : list (@rt_hittable rng))
    (samples_per_pixel max_depth x y : Z) (g : rng) :
  (forall o, In o objects -> finite_attenuation (material_of o)) ->
  fst (trace_pixel primary_ray (Some (build_bvh objects))
         samples_per_pixel max_depth x y g)
  = Some (TGAColor_rgb 0 0 0).
Proof.
  intros Hmat. unfold trace_pixel.
  pose proof (sample_loop_black objects max_depth x y Hmat
                (seqZ 0 samples_per_pixel) black g BlackFacts.black_zero) as Hz.
  destruct (sample_loop primary_ray (Some (build_bvh objects)) max_depth x y
              (seqZ 0 samples_per_pixel) black g) as [pixel_color g'].
  simpl in Hz. simpl. destruct Hz as (Hx & Hy & Hzz).
  unfold rt_color_to_tga, vdiv, vscale. cbn [vx vy vz].
  assert (Hs : is_fin (ddiv d1 (Fin (inject_Z samples_per_pixel))) = true \/
               ddiv d1 (Fin (inject_Z samples_per_pixel)) = PInf).
  { unfold ddiv, d1. destruct (Qeq_bool _ 0); [ right | left ]; reflexivity. }
  rewrite (channel_byte_dark _ (scaled_zero_dark _ _ Hx Hs)).
  rewrite (channel_byte_dark _ (scaled_zero_dark _ _ Hy Hs)).
  rewrite (channel_byte_dark _ (scaled_zero_dark _ _ Hzz Hs)).
  reflexivity.
Qed.

End PixelFacts.

Lemma trace_pixel_black_witness :
  fst (trace_pixel (fun _ _ _ g => (axis_ray, g))
         (Some (build_bvh two_walls)) 4 6 3 5 tt)
  = Some (TGAColor_rgb 0 0 0).
Proof.
  apply (trace_pixel_black (fun _ _ _ g => (axis_ray, g)) two_walls 4 6 3 5 tt).
  intros o [<- | [<- | []]]; simpl;
    apply (BlackFacts.lambertian_finite fixed_sampler); reflexivity.
Defined.

(** ** The blend *)

Lemma for_range_invariant {S : Type} (P : S -> Prop) lo hi body init :
  P init -> (forall s i, P s -> P (body s i)) ->
  P (for_range lo hi body init).
Proof.
  intros Hinit Hstep. unfold for_range.
  generalize (seqZ lo (hi - lo)) as l. intros l. revert init Hinit.
  induction l as [ | i l IH ]; intros init Hinit; simpl.
  - exact Hinit.
  - apply IH. apply Hstep. exact Hinit.
Qed.

(** Where the ray-traced buffer holds no data and the overlay is off or
    empty, the blend writes nothing: the framebuffer comes back as it
    was. *)
Theorem blend_without_data (blend_strength : Q) (s : RealtimeRayTracer)
    (main_framebuffer : TGAImage) :
  (forall x y, has_data (img_get (rt_framebuffer s) x y) = false) ->
  (show_progress_overlay s = false \/
   forall x y, has_data (img_get (progress_overlay s) x y) = false) ->
  blend_with_framebuffer blend_strength s main_framebuffer = main_framebuffer.
Proof.
  intros Hrt Hov. unfold blend_with_framebuffer.
  destruct (negb (is_active s)); [ reflexivity | ].
  apply (for_range_invariant (fun fb => fb = main_framebuffer));
    [ reflexivity | ].
  intros fb y ->.
  apply (for_range_invariant (fun fb => fb = main_framebuffer));
    [ reflexivity | ].
  intros fb x ->. unfold blend_pixel. rewrite Hrt.
  destruct (show_progress_overlay s); [ | reflexivity ].
  destruct Hov as [H | H]; [ discriminate | ]. rewrite H. reflexivity.
Qed.

Lemma inject_Z_byte (z : Z) :
  0 <= z <= 255 -> (0 <= inject_Z z <= 255)%Q.
Proof.
  intros [H0 H1]. split.
  - change 0%Q with (inject_Z 0). rewrite <- Zle_Qle. exact H0.
  - change 255%Q with (inject_Z 255). rewrite <- Zle_Qle. exact H1.
Qed.

Lemma blend_channel_byte rt raster b :
  0 <= rt <= 255 -> 0 <= raster <= 255 -> (0 <= b <= 1)%Q ->
  0 <= blend_channel rt raster b <= 255.
Proof.
  intros Hrt Hra Hb. unfold blend_channel.
  pose proof (inject_Z_byte rt Hrt) as [A1 A2].
  pose proof (inject_Z_byte raster Hra) as [B1 B2].
  assert (H : 0 <= float_to_int
                     (inject_Z rt * b + inject_Z raster * (1 - b)) < 256).
  { apply float_to_int_range; [ | change (inject_Z 256) with 256%Q ]; nra. }
  lia.
Qed.

Lemma img_set_bytes img x y c :
  all_bytes img -> byte_color c -> all_bytes (img_set img x y c).
Proof.
  intros Himg Hc x' y'. unfold img_set.
  destruct (in_image img x y) eqn:Hin; [ | apply Himg ].
  unfold img_get, in_image. simpl.
  specialize (Himg x' y'). unfold img_get, in_image in Himg.
  destruct (_ && _); [ | exact Himg ].
  destruct (decide ((x, y) = (x', y'))) as [E | E].
  - rewrite E, lookup_insert_eq. exact Hc.
  - rewrite lookup_insert_ne by assumption. exact Himg.
Qed.

Lemma overlay_channel_byte a b :
  0 <= a <= 255 -> 0 <= b <= 255 -> 0 <= Z.min 255 (a + Z.quot b 4) <= 255.
Proof.
  intros Ha Hb. assert (0 <= Z.quot b 4) by (apply Z.quot_pos; lia). lia.
Qed.

(** The blend keeps every channel a byte: with a blend strength in [0,1]
    (which [adjust_blend_strength] always leaves), a ray-traced buffer, an
    overlay and a framebuffer of byte colours give a framebuffer of byte
    colours. *)
Theorem blend_keeps_bytes (blend_strength delta : Q) (s : RealtimeRayTracer)
    (main_framebuffer : TGAImage) :
  (0 <= blend_strength <= 1)%Q ->
  all_bytes (rt_framebuffer s) -> all_bytes (progress_overlay s) ->
  all_bytes main_framebuffer ->
  all_bytes (blend_with_framebuffer blend_strength s main_framebuffer) /\
  (0 <= adjust_blend_strength blend_strength delta <= 1)%Q.
Proof.
  intros Hb Hrt Hov Hmain. split; [ | apply MeshFacts.clamp_unit ].
  unfold blend_with_framebuffer.
  destruct (negb (is_active s)); [ exact Hmain | ].
  apply (for_range_invariant all_bytes); [ exact Hmain | ].
  intros fb y Hfb.
  apply (for_range_invariant all_bytes); [ exact Hfb | ].
  clear fb Hfb. intros fb x Hfb. unfold blend_pixel.
  set (rt_color := img_get (rt_framebuffer s) _ _).
  assert (Hrc : byte_color rt_color) by apply Hrt.
  set (current_blend := if quality_level s =? 1 then _ else _).
  assert (Hcb : (0 <= current_blend <= 1)%Q).
  { unfold current_blend. destruct (quality_level s =? 1); lra. }
  set (fb1 := if has_data rt_color then _ else fb).
  assert (Hfb1 : all_bytes fb1).
  { unfold fb1. destruct (has_data rt_color); [ | exact Hfb ].
    apply img_set_bytes; [ exact Hfb | ].
    destruct Hrc as (R0 & R1 & R2). destruct (Hfb x y) as (F0 & F1 & F2).
    unfold byte_color, TGAColor_rgb, channel at 1 3 5. simpl.
    repeat split; apply blend_channel_byte; assumption. }
  destruct (show_progress_overlay s); [ | exact Hfb1 ].
  destruct (has_data (img_get (progress_overlay s) x y)); [ | exact Hfb1 ].
  apply img_set_bytes; [ exact Hfb1 | ].
  destruct (Hov x y) as (O0 & O1 & O2). destruct (Hfb1 x y) as (F0 & F1 & F2).
  unfold byte_color, TGAColor_rgb, channel at 1 3 5. simpl.
  repeat split; apply overlay_channel_byte; assumption.
Qed.

(** An image that has just been cleared. *)
Lemma cleared_pixel img x y :
  img_data img = ∅ -> img_get img x y = zero_pixel.
Proof.
  intros H. unfold img_get. rewrite H, lookup_empty.
  destruct (in_image img x y); reflexivity.
Qed.

Lemma blend_without_data_witness :
  blend_with_framebuffer 0.5 fresh_tracer (TGAImage_new 4 4)
  = TGAImage_new 4 4.
Proof.
  apply (blend_without_data 0.5 fresh_tracer (TGAImage_new 4 4)).
  - intros x y. rewrite cleared_pixel; reflexivity.
  - right. intros x y. rewrite cleared_pixel; reflexivity.
Defined.

Lemma zero_pixel_bytes : byte_color zero_pixel.
Proof. unfold byte_color, zero_pixel, channel. simpl. lia. Qed.

Lemma blend_keeps_bytes_witness :
  all_bytes (blend_with_framebuffer 0.5 fresh_tracer
               (img_set (TGAImage_new 4 4) 1 1 (TGAColor_rgb 10 20 30))).
Proof.
  apply (blend_keeps_bytes 0.5 0.1 fresh_tracer
           (img_set (TGAImage_new 4 4) 1 1 (TGAColor_rgb 10 20 30))).
  - lra.
  - intros x y. rewrite cleared_pixel; [ apply zero_pixel_bytes | reflexivity ].
  - intros x y. rewrite cleared_pixel; [ apply zero_pixel_bytes | reflexivity ].
  - apply img_set_bytes.
    + intros x y. rewrite cleared_pixel; [ apply zero_pixel_bytes | reflexivity ].
    + unfold byte_color, TGAColor_rgb, channel. simpl. lia.
Defined.

End ColorFacts.

(* ====================================================================== *)
(** * The tile scheduler under every sequence of calls *)
(* ====================================================================== *)

Module GridFacts.
Import Numerics NumericsFacts Image Realtime Examples TileFacts QualityFacts.

Section Grid.
Variable shade : RealtimeRayTracer -> Z -> Z -> TGAColor.

Lemma level_tile_positive level :
  0 < snd (level_settings level).
Proof.
  unfold level_settings.
  repeat match goal with |- context [if ?b then _ else _] => destruct b end;
    simpl; lia.
Qed.

(** [update_quality_settings] after the level is set. *)
Lemma update_quality_settings_on_level s :
  0 < rt_width s -> 0 < rt_height s -> 1 <= quality_level s <= 4 ->
  img_width (rt_framebuffer s) = rt_width s ->
  img_height (rt_framebuffer s) = rt_height s ->
  let s' := update_quality_settings s in
  consistent s' /\ quality_level s' = quality_level s /\
  (samples_per_pixel s', max_depth s', tile_size s')
    = level_settings (quality_level s).
Proof.
  intros Hw Hh Hq Hfw Hfh. cbv zeta.
  unfold update_quality_settings, level_settings, consistent.
  assert (Hcase : quality_level s = 1 \/ quality_level s = 2 \/
                  quality_level s = 3 \/ quality_level s = 4) by lia.
  destruct Hcase as [E | [E | [E | E]]]; rewrite E; simpl;
    repeat split; try assumption; try lia.
Qed.

Lemma reset_tiles_on_grid s :
  consistent s -> 1 <= quality_level s <= 4 ->
  (samples_per_pixel s, max_depth s, tile_size s)
    = level_settings (quality_level s) ->
  on_grid (reset_tiles s).
Proof.
  intros Hc Hq Hset. destruct (grid_positive s Hc) as [Hx Hy].
  destruct Hc as (Hw & Hh & Hts & Htx & Hty & Hfw & Hfh).
  unfold on_grid, consistent, reset_tiles. simpl.
  destruct (show_progress_overlay s); simpl;
    repeat split; try assumption; try lia.
Qed.

Lemma set_level_on_grid s level :
  on_grid s -> 1 <= level <= 4 ->
  on_grid (reset_tiles (update_quality_settings (set_quality_level level s))).
Proof.
  intros (Hc & _) Hl.
  destruct Hc as (Hw & Hh & Hts & Htx & Hty & Hfw & Hfh).
  destruct (update_quality_settings_on_level (set_quality_level level s))
    as (Hc' & Hq' & Hset'); try assumption.
  apply reset_tiles_on_grid.
  - exact Hc'.
  - rewrite Hq'. exact Hl.
  - rewrite Hq'. exact Hset'.
Qed.

Lemma increase_quality_on_grid s : on_grid s -> on_grid (increase_quality s).
Proof.
  intros H. unfold increase_quality.
  destruct (quality_level s <? 4) eqn:E; [ | exact H ].
  apply Z.ltb_lt in E. apply set_level_on_grid; [ exact H | ].
  destruct H as (_ & Hq & _). lia.
Qed.

Lemma decrease_quality_on_grid s : on_grid s -> on_grid (decrease_quality s).
Proof.
  intros H. unfold decrease_quality.
  destruct (1 <? quality_level s) eqn:E; [ | exact H ].
  apply Z.ltb_lt in E. apply set_level_on_grid; [ exact H | ].
  destruct H as (_ & Hq & _). lia.
Qed.

(** The settings of the camera after the tile step. *)
Lemma render_tile_settings s :
  samples_per_pixel (render_tile shade s) = samples_per_pixel s /\
  max_depth (render_tile shade s) = max_depth s.
Proof.
  unfold render_tile, advance_tile.
  destruct (current_tile_y s <? total_tiles_y s); [ | auto ].
  cbn -[update_progress_overlay Z.mul Z.add Z.min].
  destruct (show_progress_overlay s);
    repeat match goal with |- context [if ?b then _ else _] => destruct b end;
    auto.
Qed.

Lemma render_tile_on_grid s : on_grid s -> on_grid (render_tile shade s).
Proof.
  intros (Hc & Hq & Hset & Hcx & Hcy).
  destruct (render_tile_fields shade s (proj2 Hcy))
    as ((Gw & Gh & Gts & Gtx & Gty) & _ & _ & Gfb & Gcur).
  destruct (render_tile_controller shade s) as (Cq & _).
  destruct (render_tile_settings s) as (Cspp & Cdepth).
  match type of Gfb with _ = fold_left ?f ?ys _ =>
    match f with fun fb y => fold_left _ ?xs _ =>
      pose proof (rect_written (shade s) xs ys (rt_framebuffer s)) as [Hext _]
    end
  end.
  cbv zeta in Hext. rewrite <- Gfb in Hext. destruct Hext as (Xw & Xh & _).
  destruct Hc as (Hw & Hh & Hts & Htx & Hty & Hfw & Hfh).
  set (s' := render_tile shade s) in *.
  unfold on_grid, consistent.
  rewrite Gw, Gh, Gts, Gtx, Gty, Xw, Xh, Cq, Cspp, Cdepth.
  assert (Hcur : 0 <= current_tile_x s' < total_tiles_x s /\
                 0 <= current_tile_y s' < total_tiles_y s).
  { destruct (total_tiles_x s <=? current_tile_x s + 1) eqn:E1;
      [ destruct (total_tiles_y s <=? current_tile_y s + 1) eqn:E2 | ];
      injection Gcur as -> ->;
      try apply Z.leb_le in E1; try apply Z.leb_gt in E1;
      try apply Z.leb_le in E2; try apply Z.leb_gt in E2; lia. }
  destruct Hcur as [Hcx' Hcy'].
  repeat split; try assumption; lia.
Qed.

Lemma render_one_tile_on_grid t s :
  on_grid s -> on_grid (render_one_tile shade t s).
Proof.
  intros H. unfold render_one_tile.
  destruct (negb (is_active s)); [ exact H | ].
  pose proof (render_tile_on_grid s H) as H1.
  set (s1 := render_tile shade s) in *.
  assert (H2 : on_grid (update_performance_stats t s1)) by exact H1.
  set (s2 := update_performance_stats t s1) in *.
  destruct (adaptive_quality s2); [ | exact H2 ].
  unfold adjust_quality_based_on_performance.
  destruct (_ && _); [ apply decrease_quality_on_grid; exact H2 | ].
  destruct (_ && _); [ apply increase_quality_on_grid; exact H2 | exact H2 ].
Qed.

Lemma run_tracer_call_on_grid s c :
  on_grid s -> on_grid (run_tracer_call shade s c).
Proof.
  intros H. destruct c; simpl.
  - unfold toggle. destruct (negb (is_active s)); simpl.
    + destruct H as (Hc & Hq & Hset & _). apply reset_tiles_on_grid; assumption.
    + exact H.
  - apply increase_quality_on_grid. exact H.
  - apply decrease_quality_on_grid. exact H.
  - unfold toggle_progress_overlay.
    destruct (show_progress_overlay s); simpl; exact H.
  - exact H.
  - exact H.
  - destruct H as (Hc & Hq & Hset & _). apply reset_tiles_on_grid; assumption.
  - destruct H as (Hc & Hq & Hset & _).
    unfold mark_scene_dirty. apply reset_tiles_on_grid; assumption.
  - apply render_one_tile_on_grid. exact H.
Qed.

Lemma constructor_on_grid render_width render_height :
  2 <= render_width -> 2 <= render_height ->
  on_grid (RealtimeRayTracer_new render_width render_height).
Proof.
  intros Hw Hh. unfold RealtimeRayTracer_new.
  assert (Hqw : 0 < Z.quot render_width 2).
  { rewrite Z.quot_div_nonneg by lia.
    assert (1 <= render_width / 2) by (apply Z.div_le_lower_bound; lia). lia. }
  assert (Hqh : 0 < Z.quot render_height 2).
  { rewrite Z.quot_div_nonneg by lia.
    assert (1 <= render_height / 2) by (apply Z.div_le_lower_bound; lia). lia. }
  match goal with |- on_grid (update_quality_settings ?s0) =>
    destruct (update_quality_settings_on_level s0) as (Hc & Hq & Hset);
      try (simpl; lia); try reflexivity;
    set (s1 := update_quality_settings s0) in *
  end.
  destruct (grid_positive s1 Hc) as [Hx Hy].
  unfold on_grid. rewrite Hq. simpl quality_level.
  split; [ exact Hc | ]. split; [ lia | ]. split; [ exact Hset | ].
  assert (Hcx : current_tile_x s1 = 0) by reflexivity.
  assert (Hcy : current_tile_y s1 = 0) by reflexivity.
  rewrite Hcx, Hcy. lia.
Qed.

(** The cursor never leaves the grid.  A tracer made by the constructor for
    a render target of at least 2x2 pixels and driven by any sequence of
    calls of its interface always has a grid that fits its buffer, a
    quality level in 1..4 with the settings of that level, and a cursor on
    a tile of the grid: the test [current_tile_y < total_tiles_y] of
    [render_one_tile] never fails. *)
Theorem scheduler_stays_on_grid (render_width render_height : Z)
    (calls : list tracer_call) :
  2 <= render_width -> 2 <= render_height ->
  let s := run_tracer_calls shade calls
             (RealtimeRayTracer_new render_width render_height) in
  on_grid s /\ (current_tile_y s <? total_tiles_y s) = true.
Proof.
  intros Hw Hh. cbv zeta.
  assert (H : on_grid (run_tracer_calls shade calls
                         (RealtimeRayTracer_new render_width render_height))).
  { unfold run_tracer_calls.
    generalize (constructor_on_grid render_width render_height Hw Hh).
    generalize (RealtimeRayTracer_new render_width render_height) as s.
    induction calls as [ | c calls IH ]; intros s Hs; simpl.
    - exact Hs.
    - apply IH. apply run_tracer_call_on_grid. exact Hs. }
  split; [ exact H | ]. apply Z.ltb_lt. apply H.
Qed.

(** ** The moving average *)

(** [update_performance_stats] counts the sample and moves the average
    towards the tile time without passing it: the new average lies between
    the old one and the tile time, the first sample replaces the average,
    and from the 60th sample on the tile time enters with weight 1/60. *)
Theorem moving_average_between (tile_time : Q) (s : RealtimeRayTracer) :
  0 <= performance_samples s ->
  let s' := update_performance_stats tile_time s in
  performance_samples s' = performance_samples s + 1 /\
  (average_frame_time s <= tile_time ->
   average_frame_time s <= average_frame_time s' <= tile_time)%Q /\
  (tile_time <= average_frame_time s ->
   tile_time <= average_frame_time s' <= average_frame_time s)%Q /\
  (performance_samples s = 0 -> (average_frame_time s' == tile_time)%Q) /\
  (59 <= performance_samples s ->
   (average_frame_time s' ==
    average_frame_time s * (59 / 60) + tile_time * (1 / 60))%Q).
Proof.
  intros Hn. cbv zeta. unfold update_performance_stats. simpl.
  fold (alpha (performance_samples s + 1)).
  destruct (alpha_range (performance_samples s + 1) ltac:(lia)) as [Ha0 Ha1].
  set (a := alpha (performance_samples s + 1)) in *.
  split; [ reflexivity | ]. split; [ | split; [ | split ] ].
  - intros Hle. set (x := average_frame_time s) in *. clearbody a x.
    split; nra.
  - intros Hle. set (x := average_frame_time s) in *. clearbody a x.
    split; nra.
  - intros Hz. unfold a. rewrite Hz. simpl Z.add.
    change (0 + 1) with 1. setoid_rewrite alpha_first. ring.
  - intros Hbig. unfold a, alpha.
    rewrite Z.min_l by lia. field.
Qed.

End Grid.

Lemma scheduler_stays_on_grid_witness :
  on_grid (run_tracer_calls flat_shade tracer_session
             (RealtimeRayTracer_new 64 64)).
Proof.
  apply (scheduler_stays_on_grid flat_shade 64 64 tracer_session); lia.
Defined.

Lemma moving_average_between_witness :
  performance_samples (update_performance_stats 3 fresh_tracer) = 1.
Proof.
  apply (moving_average_between 3 fresh_tracer). simpl. lia.
Defined.

End GridFacts.

(* ====================================================================== *)
(** * The scene graph: search, creation and deletion *)
(* ====================================================================== *)

Module TreeFacts.
Import SceneGraph Examples.
#[local] Open Scope string_scope.

(** Induction over the tree, with the hypothesis for every child. *)
Lemma SceneNode_induction (P : SceneNode -> Prop) :
  (forall i s v sel p cs, Forall P cs -> P (mk_SceneNode i s v sel p cs)) ->
  forall n, P n.
Proof.
  intros H. fix IH 1. intros [i s v sel p cs]. apply H.
  induction cs as [ | c cs IHcs ]; constructor; [ apply IH | exact IHcs ].
Qed.

Lemma nodes_eq n : nodes n = n :: flat_map nodes (children n).
Proof.
  destruct n as [i s v sel p cs]. reflexivity.
Qed.

Lemma findDescendant_eq n nodeName :
  findDescendant n nodeName =
  match List.find (fun c => String.eqb (name c) nodeName) (children n) with
  | Some c => Some c
  | None => search_subtrees nodeName (children n)
  end.
Proof.
  destruct n as [i s v sel p cs]. simpl.
  destruct (List.find _ cs); [ reflexivity | ].
  induction cs as [ | c cs IH ]; simpl; [ reflexivity | ].
  destruct (findDescendant c nodeName); [ reflexivity | exact IH ].
Qed.

Lemma nodes_self n : In n (nodes n).
Proof. rewrite nodes_eq. left. reflexivity. Qed.

Lemma nodes_child n c : In c (children n) -> In c (nodes n).
Proof.
  intros H. rewrite nodes_eq. right. apply in_flat_map.
  exists c. split; [ exact H | apply nodes_self ].
Qed.

Lemma nodes_trans n : forall m x, In m (nodes n) -> In x (nodes m) -> In x (nodes n).
Proof.
  induction n as [i s v sel p cs IH] using SceneNode_induction.
  intros m x Hm Hx. rewrite nodes_eq in Hm. destruct Hm as [<- | Hm].
  - exact Hx.
  - rewrite nodes_eq. right. simpl in *.
    apply in_flat_map in Hm. destruct Hm as (c & Hc & Hm).
    apply in_flat_map. exists c. split; [ exact Hc | ].
    rewrite List.Forall_forall in IH. apply (IH c Hc m x Hm Hx).
Qed.

Lemma search_subtrees_some nodeName l x :
  search_subtrees nodeName l = Some x ->
  exists c, In c l /\ findDescendant c nodeName = Some x.
Proof.
  induction l as [ | c l IH ]; simpl; [ discriminate | ].
  destruct (findDescendant c nodeName) as [y | ] eqn:E.
  - intros [= <-]. exists c. auto.
  - intros H. destruct (IH H) as (c' & Hc' & Hf). exists c'. auto.
Qed.

Lemma search_subtrees_none nodeName l :
  search_subtrees nodeName l = None ->
  forall c, In c l -> findDescendant c nodeName = None.
Proof.
  induction l as [ | c l IH ]; simpl; [ tauto | ].
  destruct (findDescendant c nodeName) as [y | ] eqn:E; [ discriminate | ].
  intros H c' [<- | Hc']; [ exact E | apply IH; assumption ].
Qed.

(** Whatever [findDescendant] returns is the first child of that name of
    some node of the tree. *)
Lemma findDescendant_first_child n : forall nodeName x,
  findDescendant n nodeName = Some x ->
  exists holder, In holder (nodes n) /\
    List.find (fun c => String.eqb (name c) nodeName) (children holder) = Some x.
Proof.
  induction n as [i s v sel p cs IH] using SceneNode_induction.
  intros nodeName x H. rewrite findDescendant_eq in H. simpl in H.
  destruct (List.find _ cs) as [c | ] eqn:E.
  - injection H as <-. eexists. split; [ apply nodes_self | exact E ].
  - apply search_subtrees_some in H. destruct H as (c & Hc & Hf).
    rewrite List.Forall_forall in IH.
    destruct (IH c Hc nodeName x Hf)
      as (holder & Hh & Hfind).
    exists holder. split; [ | exact Hfind ].
    apply (nodes_trans _ c); [ | exact Hh ].
    apply nodes_child. exact Hc.
Qed.

Lemma find_name_some nodeName l x :
  List.find (fun c => String.eqb (name c) nodeName) l = Some x ->
  In x l /\ name x = nodeName.
Proof.
  intros H. apply find_some in H. destruct H as [Hin Hn].
  split; [ exact Hin | ]. apply String.eqb_eq. exact Hn.
Qed.

Lemma find_name_none nodeName l :
  List.find (fun c => String.eqb (name c) nodeName) l = None ->
  forall x, In x l -> name x <> nodeName.
Proof.
  intros H x Hx Hn. pose proof (find_none _ _ H x Hx) as Hb. simpl in Hb.
  apply String.eqb_neq in Hb. contradiction.
Qed.

Lemma findDescendant_sound n nodeName x :
  findDescendant n nodeName = Some x ->
  In x (flat_map nodes (children n)) /\ name x = nodeName.
Proof.
  intros H. destruct (findDescendant_first_child n nodeName x H)
    as (holder & Hh & Hfind).
  apply find_name_some in Hfind. destruct Hfind as [Hin Hname].
  split; [ | exact Hname ].
  rewrite nodes_eq in Hh. destruct Hh as [<- | Hh].
  - apply in_flat_map. exists x. split; [ exact Hin | apply nodes_self ].
  - apply in_flat_map in Hh. destruct Hh as (c & Hc & Hh).
    apply in_flat_map. exists c. split; [ exact Hc | ].
    apply (nodes_trans _ holder); [ exact Hh | ]. apply nodes_child. exact Hin.
Qed.

Lemma findDescendant_complete n : forall nodeName,
  findDescendant n nodeName = None ->
  forall x, In x (flat_map nodes (children n)) -> name x <> nodeName.
Proof.
  induction n as [i s v sel p cs IH] using SceneNode_induction.
  intros nodeName H x Hx. rewrite findDescendant_eq in H. simpl in *.
  destruct (List.find _ cs) as [c | ] eqn:E; [ discriminate | ].
  apply in_flat_map in Hx. destruct Hx as (c & Hc & Hx).
  rewrite nodes_eq in Hx. destruct Hx as [<- | Hx].
  - apply (find_name_none _ _ E). exact Hc.
  - rewrite List.Forall_forall in IH.
    apply (IH c Hc nodeName); [ | exact Hx ].
    apply (search_subtrees_none _ _ H). exact Hc.
Qed.

Lemma findNode_sound s nodeName x :
  findNode s nodeName = Some x ->
  In x (nodes (rootNode s)) /\ name x = nodeName.
Proof.
  unfold findNode. destruct (String.eqb (name (rootNode s)) nodeName) eqn:E.
  - intros [= <-]. split; [ apply nodes_self | ]. apply String.eqb_eq. exact E.
  - intros H. apply findDescendant_sound in H. destruct H as [Hin Hn].
    split; [ | exact Hn ]. rewrite nodes_eq. right. exact Hin.
Qed.

Lemma findNode_complete s nodeName :
  findNode s nodeName = None ->
  forall x, In x (nodes (rootNode s)) -> name x <> nodeName.
Proof.
  unfold findNode. destruct (String.eqb (name (rootNode s)) nodeName) eqn:E;
    [ discriminate | ].
  intros H x Hx. rewrite nodes_eq in Hx. destruct Hx as [<- | Hx].
  - apply String.eqb_neq. exact E.
  - apply (findDescendant_complete _ _ H). exact Hx.
Qed.

Lemma findNode_none_iff s nodeName :
  findNode s nodeName = None <-> ~ In nodeName (names (rootNode s)).
Proof.
  split.
  - intros H Hin. unfold names in Hin. apply in_map_iff in Hin.
    destruct Hin as (x & Hn & Hx). exact (findNode_complete s nodeName H x Hx Hn).
  - intros H. destruct (findNode s nodeName) as [x | ] eqn:E; [ | reflexivity ].
    apply findNode_sound in E. destruct E as [Hin Hn]. exfalso. apply H.
    unfold names. apply in_map_iff. exists x. auto.
Qed.

(** [findNode] is a search by name over the whole tree: what it returns is
    a node of the tree with that name, the root when the root has the
    name, and it fails exactly when no node of the tree has the name. *)
Theorem findNode_searches_tree (s : Scene) (nodeName : string) :
  (forall x, findNode s nodeName = Some x ->
     In x (nodes (rootNode s)) /\ name x = nodeName) /\
  (name (rootNode s) = nodeName -> findNode s nodeName = Some (rootNode s)) /\
  (findNode s nodeName = None <->
   forall x, In x (nodes (rootNode s)) -> name x <> nodeName).
Proof.
  split; [ | split ].
  - intros x. apply findNode_sound.
  - intros H. unfold findNode. apply String.eqb_eq in H. rewrite H. reflexivity.
  - split.
    + apply findNode_complete.
    + intros H. apply findNode_none_iff. intros Hin.
      unfold names in Hin. apply in_map_iff in Hin.
      destruct Hin as (x & Hn & Hx). exact (H x Hx Hn).
Qed.

(** ** Parent pointers and addresses *)

Lemma parents_ok_eq n :
  parents_ok n =
  forallb (fun c =>
             match parent c with
             | Some p => Pos.eqb p (node_id n)
             | None => false
             end && parents_ok c) (children n).
Proof. destruct n as [i s v sel p cs]. reflexivity. Qed.

Lemma parents_ok_child n : forall holder c,
  parents_ok n = true -> In holder (nodes n) -> In c (children holder) ->
  parent c = Some (node_id holder).
Proof.
  induction n as [i s v sel p cs IH] using SceneNode_induction.
  intros holder c Hok Hh Hc. rewrite parents_ok_eq in Hok.
  rewrite List.forallb_forall in Hok.
  rewrite nodes_eq in Hh. destruct Hh as [<- | Hh].
  - specialize (Hok c Hc). apply andb_true_iff in Hok. destruct Hok as [Hp _].
    destruct (parent c) as [q | ]; [ | discriminate ].
    apply Pos.eqb_eq in Hp. rewrite Hp. reflexivity.
  - simpl in *. apply in_flat_map in Hh. destruct Hh as (c0 & Hc0 & Hh).
    rewrite List.Forall_forall in IH. apply (IH c0 Hc0 holder c); try assumption.
    specialize (Hok c0 Hc0). apply andb_true_iff in Hok. apply Hok.
Qed.

Lemma map_flat_map {A B C} (f : B -> C) (g : A -> list B) (l : list A) :
  List.map f (flat_map g l) = flat_map (fun x => List.map f (g x)) l.
Proof.
  induction l as [ | a l IH ]; simpl; [ reflexivity | ].
  rewrite List.map_app, IH. reflexivity.
Qed.

Lemma labels_eq n : labels n = label n :: flat_map labels (children n).
Proof. unfold labels. rewrite nodes_eq. simpl. rewrite map_flat_map. reflexivity. Qed.

Lemma ids_eq n : ids n = node_id n :: flat_map ids (children n).
Proof. unfold ids. rewrite nodes_eq. simpl. rewrite map_flat_map. reflexivity. Qed.

Lemma ids_labels n : ids n = List.map fst (labels n).
Proof. unfold ids, labels. rewrite List.map_map. reflexivity. Qed.

Lemma names_labels n : names n = List.map snd (labels n).
Proof. unfold names, labels. rewrite List.map_map. reflexivity. Qed.

Lemma ids_node n x : In x (nodes n) -> In (node_id x) (ids n).
Proof. intros H. unfold ids. apply in_map. exact H. Qed.

Lemma ids_trans n m a : In m (nodes n) -> In a (ids m) -> In a (ids n).
Proof.
  unfold ids. intros Hm Ha. apply in_map_iff in Ha. destruct Ha as (x & <- & Hx).
  apply in_map. apply (nodes_trans n m x Hm Hx).
Qed.

(** With distinct addresses, a node of the tree that has the address of
    the root is the root. *)
Lemma same_id_is_root n x :
  NoDup (ids n) -> In x (nodes n) -> node_id x = node_id n -> x = n.
Proof.
  intros Hnd Hx Hid. rewrite nodes_eq in Hx. destruct Hx as [<- | Hx];
    [ reflexivity | ].
  exfalso. unfold ids in Hnd. rewrite nodes_eq in Hnd. simpl in Hnd.
  apply NoDup_cons in Hnd. destruct Hnd as [Hnot _]. apply Hnot.
  apply list_elem_of_In. rewrite <- Hid. apply in_map. exact Hx.
Qed.

(** ** [removeChild] *)

Lemma remove_first_find nodeName l c :
  List.find (fun c => String.eqb (name c) nodeName) l = Some c ->
  exists pre post, l = (pre ++ c :: post)%list /\
    remove_first nodeName l = (Some (set_parent None c), (pre ++ post)%list).
Proof.
  induction l as [ | a l IH ]; simpl; [ discriminate | ].
  destruct (String.eqb (name a) nodeName) eqn:E.
  - intros [= <-]. exists [], l. split; reflexivity.
  - intros H. destruct (IH H) as (pre & post & -> & Hr).
    exists (a :: pre), post. rewrite Hr. split; reflexivity.
Qed.

Lemma remove_first_subset nodeName l :
  forall x, In x (snd (remove_first nodeName l)) -> In x l.
Proof.
  induction l as [ | a l IH ]; simpl; [ tauto | ].
  destruct (String.eqb (name a) nodeName).
  - simpl. auto.
  - destruct (remove_first nodeName l) as [r l'']. simpl in *.
    intros x [<- | Hx]; auto.
Qed.

Lemma removeChild_at_eq pid childName n :
  removeChild_at pid childName n =
  if Pos.eqb (node_id n) pid then snd (removeChild n childName)
  else set_children (List.map (removeChild_at pid childName) (children n)) n.
Proof. destruct n as [i s v sel p cs]. reflexivity. Qed.

Lemma removeChild_at_label pid childName n :
  label (removeChild_at pid childName n) = label n.
Proof.
  destruct (SceneFacts.removeChild_at_header pid childName n) as (Hi & Hn & _).
  unfold label. rewrite Hi, Hn. reflexivity.
Qed.

(** A tree that does not hold the address is left as it is. *)
Lemma removeChild_at_absent pid childName n :
  ~ In pid (ids n) -> removeChild_at pid childName n = n.
Proof.
  induction n as [i s v sel p cs IH] using SceneNode_induction.
  intros Hnot. rewrite removeChild_at_eq. rewrite ids_eq in Hnot. simpl in *.
  destruct (Pos.eqb i pid) eqn:E.
  - apply Pos.eqb_eq in E. exfalso. apply Hnot. left. exact E.
  - unfold set_children. simpl. f_equal.
    rewrite List.Forall_forall in IH.
    rewrite <- (List.map_id cs) at 2. apply List.map_ext_in.
    intros c Hc. apply (IH c Hc). intros Hin. apply Hnot. right.
    apply in_flat_map. exists c. auto.
Qed.

Lemma removeChild_at_parents_ok pid childName n :
  parents_ok n = true -> parents_ok (removeChild_at pid childName n) = true.
Proof.
  induction n as [i s v sel p cs IH] using SceneNode_induction.
  intros Hok. rewrite removeChild_at_eq. rewrite parents_ok_eq in Hok.
  rewrite List.forallb_forall in Hok. simpl in *.
  destruct (Pos.eqb i pid).
  - unfold removeChild. simpl.
    pose proof (remove_first_subset childName cs) as Hsub.
    destruct (remove_first childName cs) as [r l]. simpl in *.
    apply List.forallb_forall. intros c Hc. apply Hok. apply Hsub. exact Hc.
  - unfold set_children. simpl. apply List.forallb_forall.
    intros c' Hc'. apply in_map_iff in Hc'. destruct Hc' as (c & <- & Hc).
    specialize (Hok c Hc). apply andb_true_iff in Hok. destruct Hok as [Hp Hrec].
    destruct (SceneFacts.removeChild_at_header pid childName c) as (_ & _ & Hpar).
    rewrite Hpar. apply andb_true_iff. split; [ exact Hp | ].
    rewrite List.Forall_forall in IH. apply (IH c Hc Hrec).
Qed.

Section Removal.
Variables (holder child : SceneNode) (childName : string).
Hypothesis Hfirst :
  List.find (fun c => String.eqb (name c) childName) (children holder)
  = Some child.

(** Removing the child below the holder: the labels of the tree are those
    of the new tree and those of the subtree that left. *)
Lemma removeChild_at_labels n :
  NoDup (ids n) -> In holder (nodes n) ->
  labels n ≡ₚ
  (labels (removeChild_at (node_id holder) childName n) ++ labels child)%list.
Proof.
  induction n as [i s v sel p cs IH] using SceneNode_induction.
  intros Hnd Hin. rewrite removeChild_at_eq. simpl node_id.
  destruct (Pos.eqb i (node_id holder)) eqn:E.
  - apply Pos.eqb_eq in E.
    assert (Hh : holder = mk_SceneNode i s v sel p cs).
    { apply same_id_is_root; [ exact Hnd | exact Hin | symmetry; exact E ]. }
    pose proof Hfirst as Hf. rewrite Hh in Hf. simpl in Hf.
    destruct (remove_first_find _ _ _ Hf) as (pre & post & Hcs & Hr).
    unfold removeChild. simpl children. rewrite Hr. simpl snd.
    rewrite !labels_eq. unfold set_children. simpl children.
    change (label (mk_SceneNode i s v sel p (pre ++ post)))
      with (label (mk_SceneNode i s v sel p cs)).
    rewrite Hcs. rewrite !flat_map_app. simpl flat_map.
    rewrite <- labels_eq. simpl. constructor.
    rewrite <- !app_assoc. apply Permutation_app_head.
    apply Permutation_app_comm.
  - apply Pos.eqb_neq in E.
    rewrite nodes_eq in Hin. destruct Hin as [Hin | Hin];
      [ exfalso; apply E; rewrite <- Hin; reflexivity | ].
    rewrite ids_eq in Hnd. simpl in Hnd, Hin.
    apply NoDup_cons in Hnd. destruct Hnd as [_ Hnd].
    rewrite (labels_eq (set_children _ _)). rewrite labels_eq.
    unfold set_children. simpl children.
    change (label (mk_SceneNode i s v sel p
                     (List.map (removeChild_at (node_id holder) childName) cs)))
      with (label (mk_SceneNode i s v sel p cs)).
    simpl. constructor.
    clear E. induction cs as [ | c cs IHcs ]; [ destruct Hin | ].
    simpl in *. apply NoDup_app in Hnd. destruct Hnd as (Hc & Hdisj & Hrest).
    apply Forall_cons in IH. destruct IH as [IHc IHrest].
    apply in_app_or in Hin. destruct Hin as [Hin | Hin].
    + assert (Hsame : List.map (removeChild_at (node_id holder) childName) cs = cs).
      { rewrite <- (List.map_id cs) at 2. apply List.map_ext_in.
        intros c' Hc'. apply removeChild_at_absent. intros Habs.
        apply (Hdisj (node_id holder)).
        - apply list_elem_of_In. apply ids_node. exact Hin.
        - apply list_elem_of_In. apply in_flat_map. exists c'. auto. }
      rewrite Hsame. rewrite (IHc Hc Hin).
      rewrite <- !app_assoc. apply Permutation_app_head.
      apply Permutation_app_comm.
    + rewrite (removeChild_at_absent (node_id holder) childName c).
      * rewrite <- app_assoc. apply Permutation_app_head.
        apply IHcs; assumption.
      * intros Habs. apply (Hdisj (node_id holder)).
        -- apply list_elem_of_In. exact Habs.
        -- apply list_elem_of_In. apply in_flat_map in Hin.
           destruct Hin as (c' & Hc' & Hin). apply in_flat_map.
           exists c'. split; [ exact Hc' | ]. apply ids_node. exact Hin.
Qed.

End Removal.

Lemma NoDup_map_eq {A B} (f : A -> B) (l : list A) x y :
  NoDup (List.map f l) -> In x l -> In y l -> f x = f y -> x = y.
Proof.
  induction l as [ | a l IH ]; simpl; [ tauto | ].
  intros Hnd Hx Hy Hf. apply NoDup_cons in Hnd. destruct Hnd as [Hnot Hnd].
  destruct Hx as [<- | Hx], Hy as [<- | Hy]; auto.
  - exfalso. apply Hnot. apply list_elem_of_In. rewrite Hf. apply in_map. exact Hy.
  - exfalso. apply Hnot. apply list_elem_of_In. rewrite <- Hf. apply in_map. exact Hx.
Qed.

(** What a successful [deleteNode] does. *)
Lemma deleteNode_effect s nodeName node :
  well_formed s -> nodeName <> "Root" -> findNode s nodeName = Some node ->
  exists s',
    deleteNode s nodeName = (true, s') /\
    nodeCounter s' = nodeCounter s /\
    selectedNode s' =
      match selectedNode s with
      | Some a => if Pos.eqb a (node_id node) then None else Some a
      | None => None
      end /\
    well_formed s' /\
    In node (nodes (rootNode s)) /\ name node = nodeName /\
    labels (rootNode s) ≡ₚ (labels (rootNode s') ++ labels node)%list.
Proof.
  intros (Hname & Hparent & Hnd & Hok) Hnot Hfind.
  destruct (findNode_sound s nodeName node Hfind) as [Hin Hn].
  pose proof Hfind as Hdesc. unfold findNode in Hdesc. rewrite Hname in Hdesc.
  assert (E : String.eqb "Root" nodeName = false).
  { apply String.eqb_neq. intros H. apply Hnot. symmetry. exact H. }
  rewrite E in Hdesc.
  destruct (findDescendant_first_child _ _ _ Hdesc) as (holder & Hh & Hfirst).
  destruct (find_name_some _ _ _ Hfirst) as [Hchild _].
  pose proof (parents_ok_child _ holder node Hok Hh Hchild) as Hpar.
  pose proof (removeChild_at_labels holder node nodeName Hfirst (rootNode s)
                Hnd Hh) as Hperm.
  destruct (SceneFacts.removeChild_at_header (node_id holder) nodeName
              (rootNode s)) as (Hi' & Hn' & Hp').
  eexists. split.
  { unfold deleteNode. rewrite Hfind, Hpar.
    assert (E' : String.eqb nodeName "Root" = false)
      by (apply String.eqb_neq; exact Hnot).
    rewrite E'. reflexivity. }
  simpl. split; [ reflexivity | ]. split; [ reflexivity | ].
  split; [ | split; [ exact Hin | split; [ exact Hn | exact Hperm ] ] ].
  unfold well_formed. simpl. rewrite Hn', Hp'.
  split; [ exact Hname | ]. split; [ exact Hparent | ].
  split; [ | apply removeChild_at_parents_ok; exact Hok ].
  assert (Hids : ids (rootNode s) ≡ₚ
                 (ids (removeChild_at (node_id holder) nodeName (rootNode s))
                  ++ ids node)%list).
  { rewrite !ids_labels. rewrite <- List.map_app.
    apply Permutation_map. exact Hperm. }
  rewrite Hids in Hnd. apply NoDup_app in Hnd. apply Hnd.
Qed.

Lemma labels_ids_split (big small gone : SceneNode) :
  NoDup (ids big) ->
  labels big ≡ₚ (labels small ++ labels gone)%list ->
  NoDup (ids small) /\
  forall a, In a (ids small) <-> In a (ids big) /\ ~ In a (ids gone).
Proof.
  intros Hnd Hperm.
  assert (Hids : ids big ≡ₚ (ids small ++ ids gone)%list).
  { rewrite !ids_labels. rewrite <- List.map_app.
    apply Permutation_map. exact Hperm. }
  pose proof Hnd as Hnd'. rewrite Hids in Hnd'. apply NoDup_app in Hnd'.
  destruct Hnd' as (Hs & Hdisj & _). split; [ exact Hs | ].
  intros a. split.
  - intros Ha. split.
    + apply (Permutation_in a (Permutation_sym Hids)).
      apply in_or_app. left. exact Ha.
    + intros Hg. apply (Hdisj a); apply list_elem_of_In; assumption.
  - intros [Ha Hng]. apply (Permutation_in a Hids) in Ha.
    apply in_app_or in Ha. destruct Ha; [ assumption | contradiction ].
Qed.

(** A successful [deleteNode] removes the node that [findNode] resolves
    the name to, with its whole subtree, and nothing else: the call
    returns true, the nodes of the scene before are those of the scene
    after and those of the subtree (by address and name), the addresses
    that remain are those outside the subtree, the scene stays well formed
    and the counter is not touched. *)
Theorem deleteNode_removes_the_subtree (s : Scene) (nodeName : string)
    (node : SceneNode) :
  well_formed s -> nodeName <> "Root" -> findNode s nodeName = Some node ->
  exists s',
    deleteNode s nodeName = (true, s') /\ well_formed s' /\
    nodeCounter s' = nodeCounter s /\
    labels (rootNode s) ≡ₚ (labels (rootNode s') ++ labels node)%list /\
    (forall a, In a (ids (rootNode s')) <->
               In a (ids (rootNode s)) /\ ~ In a (ids node)).
Proof.
  intros Hwf Hnot Hfind.
  destruct (deleteNode_effect s nodeName node Hwf Hnot Hfind)
    as (s' & Hdel & Hcount & _ & Hwf' & _ & _ & Hperm).
  exists s'. split; [ exact Hdel | ]. split; [ exact Hwf' | ].
  split; [ exact Hcount | ]. split; [ exact Hperm | ].
  apply (labels_ids_split _ _ node); [ apply Hwf | exact Hperm ].
Qed.

(** The selection after a successful [deleteNode].  The selection is
    cleared when the deleted node is the selected one and kept, still
    pointing into the scene, when the selected node is outside the deleted
    subtree.  When the selected node is a proper descendant of the deleted
    node, [selectedNode] keeps its address although no node of the scene
    has it any more. *)
Theorem deleteNode_selection (s : Scene) (nodeName : string)
    (node : SceneNode) (a : positive) :
  well_formed s -> nodeName <> "Root" -> findNode s nodeName = Some node ->
  selectedNode s = Some a -> In a (ids (rootNode s)) ->
  let s' := snd (deleteNode s nodeName) in
  (a = node_id node -> selectedNode s' = None) /\
  (~ In a (ids node) ->
   selectedNode s' = Some a /\ In a (ids (rootNode s'))) /\
  (In a (ids node) -> a <> node_id node ->
   selectedNode s' = Some a /\ ~ In a (ids (rootNode s'))).
Proof.
  intros Hwf Hnot Hfind Hsel Hlive. cbv zeta.
  destruct (deleteNode_effect s nodeName node Hwf Hnot Hfind)
    as (s' & Hdel & _ & Hsel' & _ & _ & _ & Hperm).
  rewrite Hdel. simpl snd. rewrite Hsel in Hsel'.
  destruct (labels_ids_split _ _ node (proj1 (proj2 (proj2 Hwf))) Hperm)
    as [_ Hids].
  split; [ | split ].
  - intros ->. rewrite Pos.eqb_refl in Hsel'. exact Hsel'.
  - intros Hout. assert (E : Pos.eqb a (node_id node) = false).
    { apply Pos.eqb_neq. intros ->. apply Hout. apply ids_node. apply nodes_self. }
    rewrite E in Hsel'. split; [ exact Hsel' | ]. apply Hids. auto.
  - intros Hin Hne. apply Pos.eqb_neq in Hne. rewrite Hne in Hsel'.
    split; [ exact Hsel' | ]. intros Habs. apply Hids in Habs. tauto.
Qed.

(** With distinct names, a successful [deleteNode] makes the name and
    every name of the deleted subtree unknown, keeps the names distinct,
    and every other name resolves to the node of the same address as
    before. *)
Theorem deleteNode_unique_names (s : Scene) (nodeName : string)
    (node : SceneNode) :
  well_formed s -> NoDup (names (rootNode s)) ->
  nodeName <> "Root" -> findNode s nodeName = Some node ->
  let s' := snd (deleteNode s nodeName) in
  NoDup (names (rootNode s')) /\
  findNode s' nodeName = None /\
  (forall m, In m (names node) -> findNode s' m = None) /\
  (forall m x, findNode s m = Some x -> ~ In m (names node) ->
     exists x', findNode s' m = Some x' /\ node_id x' = node_id x).
Proof.
  intros Hwf Huniq Hnot Hfind. cbv zeta.
  destruct (deleteNode_effect s nodeName node Hwf Hnot Hfind)
    as (s' & Hdel & _ & _ & _ & Hin & Hn & Hperm).
  rewrite Hdel. simpl snd.
  assert (Hnames : names (rootNode s) ≡ₚ
                   (names (rootNode s') ++ names node)%list).
  { rewrite !names_labels. rewrite <- List.map_app.
    apply Permutation_map. exact Hperm. }
  pose proof Huniq as Hu. rewrite Hnames in Hu. apply NoDup_app in Hu.
  destruct Hu as (Hu' & Hdisj & _).
  assert (Hgone : forall m, In m (names node) -> findNode s' m = None).
  { intros m Hm. apply findNode_none_iff. intros Habs.
    apply (Hdisj m); apply list_elem_of_In; assumption. }
  split; [ exact Hu' | ]. split; [ | split; [ exact Hgone | ] ].
  - apply Hgone. rewrite <- Hn. unfold names. apply in_map. apply nodes_self.
  - intros m x Hx Hout. destruct (findNode_sound s m x Hx) as [Hxin Hxn].
    assert (Hl : In (label x) (labels (rootNode s') ++ labels node)%list).
    { apply (Permutation_in _ Hperm). unfold labels. apply in_map. exact Hxin. }
    apply in_app_or in Hl. destruct Hl as [Hl | Hl].
    + unfold labels in Hl. apply in_map_iff in Hl. destruct Hl as (y & Hy & Hyin).
      injection Hy as Hyid Hyn.
      destruct (findNode s' m) as [z | ] eqn:Ez.
      * exists z. split; [ reflexivity | ].
        destruct (findNode_sound s' m z Ez) as [Hzin Hzn].
        assert (z = y).
        { apply (NoDup_map_eq name (nodes (rootNode s'))); try assumption.
          rewrite Hzn, Hyn, Hxn. reflexivity. }
        subst z. exact Hyid.
      * exfalso. apply (findNode_complete s' m Ez y Hyin).
        rewrite Hyn. exact Hxn.
    + exfalso. apply Hout. rewrite names_labels.
      apply (in_map snd) in Hl. simpl in Hl. rewrite Hxn in Hl. exact Hl.
Qed.

(** ** [generateUniqueName] and [createEmptyNode] *)

Lemma append_not_self (base rest : string) :
  rest <> "" -> base ++ rest <> base.
Proof.
  intros Hrest. induction base as [ | a base IH ]; simpl.
  - exact Hrest.
  - intros [= H]. exact (IH H).
Qed.

Lemma candidate_inj base j k : candidate base j = candidate base k -> j = k.
Proof.
  destruct j as [ | j ], k as [ | k ]; unfold candidate.
  - reflexivity.
  - intros H. symmetry in H. apply append_not_self in H; [ destruct H | ].
    discriminate.
  - intros H. apply append_not_self in H; [ destruct H | ]. discriminate.
  - intros H. apply String.app_inj in H. simpl in H. injection H as H.
    apply pretty_Z_inj in H. lia.
Qed.

(** More candidates than nodes cannot all be names of the scene. *)
Lemma candidates_run_out base (l : list string) :
  (forall j, (j <= List.length l)%nat -> In (candidate base j) l) -> False.
Proof.
  intros H.
  assert (Hnd : List.NoDup (List.map (candidate base)
                              (List.seq 0 (S (List.length l))))).
  { assert (Hinj : Inj eq eq (candidate base))
      by (intros j k; apply candidate_inj).
    apply NoDup_ListNoDup. apply (NoDup_fmap_2 (candidate base)).
    apply NoDup_ListNoDup. apply List.seq_NoDup. }
  apply NoDup_incl_length with (l' := l) in Hnd.
  - rewrite List.length_map, List.length_seq in Hnd. lia.
  - intros nm Hnm. apply in_map_iff in Hnm. destruct Hnm as (j & <- & Hj).
    apply List.in_seq in Hj. apply H. lia.
Qed.

Lemma unique_name_loop_spec s base : forall fuel k,
  (k + fuel = List.length (nodes (rootNode s)))%nat ->
  (forall j, (j < k)%nat -> In (candidate base j) (names (rootNode s))) ->
  exists j, (k <= j <= List.length (nodes (rootNode s)))%nat /\
    unique_name_loop fuel s base (candidate base k) (Z.of_nat k + 1)
    = Some (candidate base j) /\
    findNode s (candidate base j) = None /\
    forall i, (i < j)%nat -> In (candidate base i) (names (rootNode s)).
Proof.
  induction fuel as [ | fuel IH ]; intros k Hk Hused.
  - simpl. destruct (findNode s (candidate base k)) as [x | ] eqn:E.
    + exfalso. apply (candidates_run_out base (names (rootNode s))).
      intros j Hj. unfold names in Hj. rewrite List.length_map in Hj.
      destruct (Nat.eq_dec j k) as [-> | Hne].
      * apply findNode_sound in E. destruct E as [Hin Hn].
        unfold names. rewrite <- Hn. apply in_map. exact Hin.
      * apply Hused. lia.
    + exists k. split; [ lia | ]. split; [ reflexivity | ]. split; assumption.
  - simpl. destruct (findNode s (candidate base k)) as [x | ] eqn:E.
    + assert (Hnext : base ++ "_" ++ pretty (Z.of_nat k + 1)
                      = candidate base (S k)).
      { unfold candidate. f_equal. f_equal. f_equal. lia. }
      rewrite Hnext.
      replace (Z.of_nat k + 1 + 1) with (Z.of_nat (S k) + 1) by lia.
      destruct (IH (S k)) as (j & Hj & Hloop & Hfree & Hbelow).
      * lia.
      * intros j Hj. destruct (Nat.eq_dec j k) as [-> | Hne].
        -- apply findNode_sound in E. destruct E as [Hin Hn].
           unfold names. rewrite <- Hn. apply in_map. exact Hin.
        -- apply Hused. lia.
      * exists j. split; [ lia | ]. split; [ exact Hloop | ]. split; assumption.
    + exists k. split; [ lia | ]. split; [ reflexivity | ]. split; assumption.
Qed.

Lemma generateUniqueName_spec s base :
  exists k, (k <= List.length (nodes (rootNode s)))%nat /\
    generateUniqueName s base = Some (candidate base k) /\
    findNode s (candidate base k) = None /\
    forall i, (i < k)%nat -> In (candidate base i) (names (rootNode s)).
Proof.
  destruct (unique_name_loop_spec s base (List.length (nodes (rootNode s))) 0)
    as (j & Hj & Hloop & Hfree & Hbelow).
  - reflexivity.
  - intros j Hj. lia.
  - exists j. split; [ lia | ]. split; [ exact Hloop | ]. split; assumption.
Qed.

(** [generateUniqueName] always returns, after at most as many rounds as
    the scene has nodes, and the name it returns is not a name of the
    scene: the base name itself when it is free, else [baseName_k] for the
    least [k >= 1] such that every earlier candidate is taken. *)
Theorem generateUniqueName_fresh (s : Scene) (baseName : string) :
  exists k, (k <= List.length (nodes (rootNode s)))%nat /\
    generateUniqueName s baseName = Some (candidate baseName k) /\
    findNode s (candidate baseName k) = None /\
    (forall i, (i < k)%nat -> findNode s (candidate baseName i) <> None) /\
    (findNode s baseName = None -> k = 0%nat).
Proof.
  destruct (generateUniqueName_spec s baseName) as (k & Hk & Hgen & Hfree & Hbelow).
  exists k. split; [ exact Hk | ]. split; [ exact Hgen | ].
  split; [ exact Hfree | ]. split.
  - intros i Hi Hnone. apply findNode_none_iff in Hnone. apply Hnone.
    apply Hbelow. exact Hi.
  - intros Hbase. destruct k as [ | k ]; [ reflexivity | ].
    exfalso. apply findNode_none_iff in Hbase. apply Hbase.
    apply (Hbelow 0%nat). lia.
Qed.

Lemma find_snoc {A} (f : A -> bool) (l : list A) (a : A) :
  List.find f (l ++ [a]) =
  match List.find f l with
  | Some x => Some x
  | None => if f a then Some a else None
  end.
Proof.
  induction l as [ | b l IH ]; simpl; [ reflexivity | ].
  destruct (f b); [ reflexivity | exact IH ].
Qed.

Lemma search_subtrees_snoc nodeName l a :
  search_subtrees nodeName (l ++ [a]) =
  match search_subtrees nodeName l with
  | Some x => Some x
  | None => findDescendant a nodeName
  end.
Proof.
  induction l as [ | b l IH ]; simpl.
  - destruct (findDescendant a nodeName); reflexivity.
  - destruct (findDescendant b nodeName); [ reflexivity | exact IH ].
Qed.

(** [createEmptyNode] always succeeds.  The node it adds is a new child of
    the root under a name that no node had, it is what [findNode] returns
    for that name afterwards, and the nodes that were there resolve as
    before; a well-formed scene stays well formed when the allocator
    returns an address that no node of the scene has, and distinct names
    stay distinct. *)
Theorem createEmptyNode_adds (addr : positive) (s : Scene) (nodeName : string) :
  well_formed s -> ~ In addr (ids (rootNode s)) ->
  exists finalName s',
    createEmptyNode addr s nodeName = Some (addr, s') /\
    findNode s finalName = None /\
    (findNode s (if String.eqb nodeName "" then "Empty" else nodeName) = None ->
     finalName = if String.eqb nodeName "" then "Empty" else nodeName) /\
    findNode s' finalName
    = Some (mk_SceneNode addr finalName true false
              (Some (node_id (rootNode s))) []) /\
    labels (rootNode s') = (labels (rootNode s) ++ [(addr, finalName)])%list /\
    (forall m x, findNode s m = Some x -> m <> "Root" ->
       findNode s' m = Some x) /\
    selectedNode s' = selectedNode s /\
    well_formed s' /\
    (NoDup (names (rootNode s)) -> NoDup (names (rootNode s'))).
Proof.
  intros (Hname & Hparent & Hnd & Hok) Hfresh.
  set (base := if String.eqb nodeName "" then "Empty" else nodeName).
  destruct (generateUniqueName_spec s base) as (k & _ & Hgen & Hfree & Hbelow).
  assert (Hfirst : findNode s base = None -> candidate base k = base).
  { intros Hbase. destruct k as [ | k ]; [ reflexivity | ].
    exfalso. apply findNode_none_iff in Hbase. apply Hbase.
    apply (Hbelow 0%nat). lia. }
  clear Hbelow.
  set (finalName := candidate base k) in *.
  exists finalName. eexists. split.
  { unfold createEmptyNode. fold base. rewrite Hgen. reflexivity. }
  destruct (rootNode s) as [i nm v sel p cs] eqn:Hroot.
  simpl in Hname, Hparent. subst nm p.
  set (fresh_node := mk_SceneNode addr finalName true false (Some i) []).
  assert (Hroot' : addChild (mk_SceneNode i "Root" v sel None cs)
                     (SceneNode_new addr finalName)
                   = mk_SceneNode i "Root" v sel None (cs ++ [fresh_node])).
  { reflexivity. }
  simpl rootNode. simpl selectedNode. rewrite Hroot'. simpl node_id.
  assert (Hne : String.eqb "Root" finalName = false).
  { destruct (String.eqb "Root" finalName) eqn:E; [ | reflexivity ].
    unfold findNode in Hfree. rewrite Hroot in Hfree. simpl name in Hfree.
    rewrite E in Hfree. discriminate. }
  assert (Hdesc : findDescendant (mk_SceneNode i "Root" v sel None cs) finalName
                  = None).
  { unfold findNode in Hfree. rewrite Hroot in Hfree. simpl name in Hfree.
    rewrite Hne in Hfree. exact Hfree. }
  assert (Hlabels : labels (mk_SceneNode i "Root" v sel None (cs ++ [fresh_node]))
                    = (labels (mk_SceneNode i "Root" v sel None cs)
                       ++ [(addr, finalName)])%list).
  { rewrite !labels_eq. simpl children. rewrite flat_map_app. reflexivity. }
  split; [ exact Hfree | ].
  split; [ exact Hfirst | ].
  split.
  { unfold findNode. simpl rootNode. simpl name. rewrite Hne.
    rewrite findDescendant_eq. simpl children. rewrite find_snoc.
    rewrite findDescendant_eq in Hdesc. simpl children in Hdesc.
    destruct (List.find _ cs); [ discriminate | ].
    simpl. rewrite String.eqb_refl. reflexivity. }
  split; [ exact Hlabels | ].
  split.
  { intros m x Hx Hm.
    assert (E : String.eqb "Root" m = false).
    { apply String.eqb_neq. intros H. apply Hm. symmetry. exact H. }
    assert (Hmf : String.eqb finalName m = false).
    { apply String.eqb_neq. intros Heq. rewrite <- Heq in Hx.
      rewrite Hfree in Hx. discriminate. }
    unfold findNode in Hx. rewrite Hroot in Hx. simpl name in Hx.
    rewrite E in Hx. rewrite findDescendant_eq in Hx. simpl children in Hx.
    unfold findNode. simpl rootNode. simpl name. rewrite E.
    rewrite findDescendant_eq. simpl children. rewrite find_snoc.
    destruct (List.find _ cs); [ exact Hx | ].
    simpl name. rewrite Hmf. rewrite search_subtrees_snoc, Hx. reflexivity. }
  split; [ reflexivity | ].
  assert (Hids : ids (mk_SceneNode i "Root" v sel None (cs ++ [fresh_node]))
                 = (ids (mk_SceneNode i "Root" v sel None cs) ++ [addr])%list).
  { rewrite !ids_labels, Hlabels, List.map_app. reflexivity. }
  split.
  - unfold well_formed. simpl rootNode.
    split; [ reflexivity | ]. split; [ reflexivity | ]. split.
    + rewrite Hids. apply NoDup_app. split; [ exact Hnd | ]. split.
      * intros a Ha Habs. apply list_elem_of_In in Ha, Habs.
        destruct Habs as [<- | []]. contradiction.
      * apply NoDup_singleton.
    + rewrite parents_ok_eq in *. simpl children in *. simpl node_id in *.
      rewrite forallb_app, Hok. simpl. rewrite Pos.eqb_refl. reflexivity.
  - intros Huniq.
    rewrite names_labels, Hlabels, List.map_app, <- names_labels.
    change (List.map snd [(addr, finalName)]) with [finalName].
    apply NoDup_app. split; [ exact Huniq | ]. split.
    + intros a Ha Habs. apply list_elem_of_In in Ha, Habs.
      destruct Habs as [<- | []].
      apply findNode_none_iff in Hfree. rewrite Hroot in Hfree. contradiction.
    + apply NoDup_singleton.
Qed.

(** ** The theorems on the example scenes *)

Lemma example_scene_well_formed : well_formed example_scene.
Proof.
  unfold well_formed. split; [ reflexivity | ]. split; [ reflexivity | ].
  split; [ | reflexivity ].
  apply (bool_decide_unpack _). vm_compute. exact I.
Qed.

Lemma example_scene_names : NoDup (names (rootNode example_scene)).
Proof. apply (bool_decide_unpack _). vm_compute. exact I. Qed.

Lemma deleteNode_removes_the_subtree_witness :
  exists s', deleteNode example_scene "head" = (true, s') /\
    ~ In 3%positive (ids (rootNode s')).
Proof.
  destruct (deleteNode_removes_the_subtree example_scene "head"
              example_head
              example_scene_well_formed ltac:(discriminate) eq_refl)
    as (s' & Hdel & _ & _ & _ & Hids).
  exists s'. split; [ exact Hdel | ].
  intros Habs. apply Hids in Habs. destruct Habs as [_ Hout].
  apply Hout. simpl. auto.
Defined.

Lemma deleteNode_selection_witness :
  selectedNode (snd (deleteNode example_scene "head")) = Some 3%positive /\
  ~ In 3%positive (ids (rootNode (snd (deleteNode example_scene "head")))).
Proof.
  apply (deleteNode_selection example_scene "head"
           example_head
           3%positive example_scene_well_formed ltac:(discriminate)
           eq_refl eq_refl).
  - simpl. auto.
  - simpl. auto.
  - discriminate.
Defined.

Lemma deleteNode_unique_names_witness :
  findNode (snd (deleteNode example_scene "head")) "jaw" = None.
Proof.
  apply (deleteNode_unique_names example_scene "head"
           example_head
           example_scene_well_formed example_scene_names
           ltac:(discriminate) eq_refl).
  simpl. auto.
Defined.

Lemma createEmptyNode_adds_witness :
  exists finalName s',
    createEmptyNode 7 crowded_scene "head" = Some (7%positive, s') /\
    findNode crowded_scene finalName = None.
Proof.
  destruct (createEmptyNode_adds 7 crowded_scene "head")
    as (finalName & s' & Hcreate & Hfree & _).
  - unfold well_formed. split; [ reflexivity | ]. split; [ reflexivity | ].
    split; [ | reflexivity ].
    apply (bool_decide_unpack _). vm_compute. exact I.
  - simpl. intuition discriminate.
  - exists finalName, s'. split; assumption.
Defined.

(** In the crowded scene "head", "head_1" and "head_2" are taken. *)
Example crowded_scene_name :
  generateUniqueName crowded_scene "head" = Some "head_3".
Proof. vm_compute. reflexivity. Qed.

End TreeFacts.

(* ====================================================================== *)
(** * Shadow mapping: the two passes *)
(* ====================================================================== *)

Module ShadowFacts.
Import Numerics NumericsFacts Image Shaders Examples ShaderFacts.
#[local] Open Scope Q_scope.

Lemma pixel_in_buffer shadowbuffer width height p :
  buffer_sized shadowbuffer width height ->
  in_shadow_buffer width height p ->
  (0 <= pixel_index width p < Z.of_nat (List.length shadowbuffer))%Z /\
  to_size_t (pixel_index width p) = pixel_index width p.
Proof.
  intros (Hw & Hh & Hint & Hlen) [[Hx0 Hx1] [Hy0 Hy1]].
  unfold pixel_index in *.
  set (x := float_to_int (fst (fst p))) in *.
  set (y := float_to_int (snd (fst p))) in *.
  assert (Hidx : (0 <= x + y * width < width * height)%Z) by nia.
  split; [ lia | ].
  unfold to_size_t. apply Z.mod_small. lia.
Qed.

Lemma in_shadow_buffer_test width height (p : Q * Q * Q) :
  ((0 <=? float_to_int (fst (fst p))) && (float_to_int (fst (fst p)) <? width) &&
   (0 <=? float_to_int (snd (fst p))) && (float_to_int (snd (fst p)) <? height))%Z
  = true <-> in_shadow_buffer width height p.
Proof.
  unfold in_shadow_buffer.
  rewrite !andb_true_iff, !Z.leb_le, !Z.ltb_lt. tauto.
Qed.

Lemma in_shadow_buffer_cases width height (p : Q * Q * Q) :
  in_shadow_buffer width height p \/ ~ in_shadow_buffer width height p.
Proof.
  pose proof (in_shadow_buffer_test width height p) as H.
  destruct (_ && _)%bool.
  - left. apply H. reflexivity.
  - right. intros Hin. apply H in Hin. discriminate.
Qed.

Lemma shadow_term_outside shadowbuffer width height p :
  ~ in_shadow_buffer width height p ->
  shadow_term shadowbuffer width height p = Some 1.
Proof.
  intros Hout. destruct p as [[px py] pz]. unfold shadow_term.
  destruct (_ && _)%bool eqn:E; [ | reflexivity ].
  exfalso. apply Hout. apply (in_shadow_buffer_test width height (px, py, pz)).
  exact E.
Qed.

Lemma stored_depth_lookup shadowbuffer width height p :
  buffer_sized shadowbuffer width height ->
  in_shadow_buffer width height p ->
  stored_depth shadowbuffer width p
  = shadowbuffer !! Z.to_nat (pixel_index width p) /\
  is_Some (shadowbuffer !! Z.to_nat (pixel_index width p)).
Proof.
  intros Hsz Hin. destruct (pixel_in_buffer _ _ _ _ Hsz Hin) as [Hidx Hsize].
  unfold stored_depth. fold (pixel_index width p). rewrite Hsize.
  unfold vec_read.
  assert (E : ((0 <=? pixel_index width p)
               && (pixel_index width p <? Z.of_nat (List.length shadowbuffer)))%Z
              = true).
  { apply andb_true_iff. rewrite Z.leb_le, Z.ltb_lt. exact Hidx. }
  rewrite E. split; [ reflexivity | ].
  apply lookup_lt_is_Some. lia.
Qed.

(** One fragment of the first pass. *)
Lemma depth_fragment_step shadowbuffer width height p :
  buffer_sized shadowbuffer width height ->
  exists b, depth_fragment shadowbuffer width height p = Some b /\
    List.length b = List.length shadowbuffer /\
    (~ in_shadow_buffer width height p -> b = shadowbuffer) /\
    (in_shadow_buffer width height p ->
     exists old, shadowbuffer !! Z.to_nat (pixel_index width p) = Some old /\
       b = <[Z.to_nat (pixel_index width p) := fmin old (snd p)]> shadowbuffer).
Proof.
  intros Hsz. destruct p as [[px py] pz]. unfold depth_fragment.
  pose proof (in_shadow_buffer_test width height (px, py, pz)) as Htest.
  simpl fst in Htest. simpl snd in Htest.
  destruct (_ && _)%bool eqn:E.
  - assert (Hin : in_shadow_buffer width height (px, py, pz))
      by (apply Htest; reflexivity).
    destruct (pixel_in_buffer _ _ _ _ Hsz Hin) as [Hidx Hsize].
    destruct (stored_depth_lookup _ _ _ _ Hsz Hin) as [Hst [old Hold]].
    unfold stored_depth in Hst. simpl fst in Hst. simpl snd in Hst.
    rewrite Hst, Hold.
    change (float_to_int px + float_to_int py * width)%Z
      with (pixel_index width (px, py, pz)).
    rewrite Hsize. unfold vec_write.
    assert (E' : ((0 <=? pixel_index width (px, py, pz))
                  && (pixel_index width (px, py, pz)
                      <? Z.of_nat (List.length shadowbuffer)))%Z = true).
    { apply andb_true_iff. rewrite Z.leb_le, Z.ltb_lt. exact Hidx. }
    rewrite E'. eexists. split; [ reflexivity | ].
    split; [ apply length_insert | ]. split; [ intros H; contradiction | ].
    intros _. exists old. split; reflexivity.
  - exists shadowbuffer. split; [ reflexivity | ]. split; [ reflexivity | ].
    split; [ reflexivity | ].
    intros Hin. apply Htest in Hin. discriminate.
Qed.

Lemma fmin_le_l a b : fmin a b <= a.
Proof.
  unfold fmin. destruct (Qltb b a) eqn:E.
  - apply Qltb_true in E. lra.
  - lra.
Qed.

Lemma fmin_le_r a b : fmin a b <= b.
Proof.
  unfold fmin. destruct (Qltb b a) eqn:E.
  - lra.
  - apply Qltb_false in E. exact E.
Qed.

Lemma fmin_cases a b : fmin a b = a \/ fmin a b = b.
Proof. unfold fmin. destruct (Qltb b a); auto. Qed.

Lemma buffer_sized_length b shadowbuffer width height :
  List.length b = List.length shadowbuffer ->
  buffer_sized shadowbuffer width height -> buffer_sized b width height.
Proof. unfold buffer_sized. intros ->. tauto. Qed.

(** The first pass keeps, pixel by pixel, the least depth it has seen. *)
Lemma depth_pass_spec width height ps : forall shadowbuffer,
  buffer_sized shadowbuffer width height ->
  exists b, depth_pass width height ps shadowbuffer = Some b /\
    List.length b = List.length shadowbuffer /\
    forall j old, shadowbuffer !! j = Some old ->
      exists new, b !! j = Some new /\ new <= old /\
        (forall p, In p ps -> on_pixel width height j p -> new <= snd p) /\
        (new = old \/
         exists p, In p ps /\ on_pixel width height j p /\ new = snd p).
Proof.
  induction ps as [ | p ps IH ]; intros shadowbuffer Hsz.
  - exists shadowbuffer. split; [ reflexivity | ]. split; [ reflexivity | ].
    intros j old Hold. exists old. split; [ exact Hold | ].
    split; [ lra | ]. split; [ intros p [] | left; reflexivity ].
  - destruct (depth_fragment_step shadowbuffer width height p Hsz)
      as (b1 & Hstep & Hlen1 & Hout & Hin).
    destruct (IH b1 (buffer_sized_length _ _ _ _ Hlen1 Hsz))
      as (b & Hpass & Hlen & Hall).
    exists b. split.
    { unfold depth_pass in *. simpl. rewrite Hstep. exact Hpass. }
    split; [ congruence | ].
    intros j old Hold.
    assert (Hmid : exists mid, b1 !! j = Some mid /\ mid <= old /\
              (on_pixel width height j p -> mid <= snd p) /\
              (mid = old \/ (on_pixel width height j p /\ mid = snd p))).
    { destruct (in_shadow_buffer_cases width height p) as [Hp | Hp].
      - destruct (Hin Hp) as (old' & Hold' & ->).
        destruct (Nat.eq_dec (Z.to_nat (pixel_index width p)) j) as [E | E].
        + subst j. rewrite Hold in Hold'. injection Hold' as <-.
          exists (fmin old (snd p)). split.
          { apply list_lookup_insert_eq. apply lookup_lt_Some in Hold. exact Hold. }
          split; [ apply fmin_le_l | ]. split; [ intros _; apply fmin_le_r | ].
          destruct (fmin_cases old (snd p)) as [-> | ->];
            [ left; reflexivity | right ].
          split; [ split; [ exact Hp | reflexivity ] | reflexivity ].
        + exists old. split.
          { rewrite list_lookup_insert_ne by exact E. exact Hold. }
          split; [ lra | ]. split; [ | left; reflexivity ].
          intros [_ Habs]. contradiction.
      - rewrite (Hout Hp). exists old. split; [ exact Hold | ].
        split; [ lra | ]. split; [ | left; reflexivity ].
        intros [Habs _]. contradiction. }
    destruct Hmid as (mid & Hmid & Hle & Hp1 & Hp2).
    destruct (Hall j mid Hmid) as (new & Hnew & Hle' & Hps1 & Hps2).
    exists new. split; [ exact Hnew | ]. split; [ lra | ]. split.
    + intros q [<- | Hq] Hon.
      * specialize (Hp1 Hon). lra.
      * apply Hps1; assumption.
    + destruct Hps2 as [-> | (q & Hq & Hon & ->)].
      * destruct Hp2 as [-> | [Hon ->]]; [ left; reflexivity | right ].
        exists p. split; [ left; reflexivity | ]. split; [ exact Hon | reflexivity ].
      * right. exists q. split; [ right; exact Hq | ].
        split; [ exact Hon | reflexivity ].
Qed.

(** The first pass never leaves the buffer and keeps, pixel by pixel, the
    least depth it has seen.  On a buffer of [width * height] entries every
    write of the pass is in bounds, the buffer keeps its size, no entry
    grows, the entry of a pixel is at most the depth of every fragment
    that fell on it, and it is the initial entry or the depth of one of
    those fragments. *)
Theorem depth_pass_keeps_least_depth (width height : Z)
    (ps : list (Q * Q * Q)) (shadowbuffer : list Q) :
  buffer_sized shadowbuffer width height ->
  exists b, depth_pass width height ps shadowbuffer = Some b /\
    List.length b = List.length shadowbuffer /\
    forall j old, shadowbuffer !! j = Some old ->
      exists new, b !! j = Some new /\ new <= old /\
        (forall p, In p ps -> on_pixel width height j p -> new <= snd p) /\
        (new = old \/
         exists p, In p ps /\ on_pixel width height j p /\ new = snd p).
Proof. apply depth_pass_spec. Qed.


Lemma float_to_int_between (q : Q) (lo hi : Z) :
  (0 <= lo)%Z -> inject_Z lo <= q -> q <= inject_Z hi ->
  (lo <= float_to_int q <= hi)%Z.
Proof.
  unfold float_to_int, Qle. destruct q as [a d]. simpl.
  intros H0 Hlo Hhi.
  assert (Ha : (0 <= a)%Z) by nia.
  rewrite Z.quot_div_nonneg by lia. split.
  - apply Z.div_le_lower_bound; lia.
  - apply Z.div_le_upper_bound; lia.
Qed.

Lemma shadow_term_total shadowbuffer width height sb_p :
  buffer_sized shadowbuffer width height ->
  exists shadow, shadow_term shadowbuffer width height sb_p = Some shadow /\
    (shadow == 0.3 \/ shadow == 1) /\
    (~ in_shadow_buffer width height sb_p -> shadow = 1).
Proof.
  intros Hsz. destruct (in_shadow_buffer_cases width height sb_p) as [Hin | Hout].
  - destruct (stored_depth_lookup _ _ _ _ Hsz Hin) as [Hst [stored Hstored]].
    rewrite Hstored in Hst.
    rewrite (shadow_term_inside _ _ _ _ _ Hin Hst).
    eexists. split; [ reflexivity | ]. split; [ | intros H; contradiction ].
    destruct (Qle_bool _ _); [ right | left ]; lra.
  - rewrite (shadow_term_outside _ _ _ _ Hout).
    exists 1. split; [ reflexivity | ]. split; [ right; lra | reflexivity ].
Qed.

(** The second pass never reads outside the shadow buffer and never wraps
    a colour channel.  On a buffer of [width * height] entries [fragment]
    returns a colour for every fragment; a fragment outside the buffer is
    fully lit; and on the lit path, with lighting terms that are not
    negative and a texture sample of bytes, the three channels written lie
    between 20 and 255. *)
Theorem shadow_fragment_in_bounds (shadowbuffer : list Q) (width height : Z)
    (sb_p : Q * Q * Q) (uv : Q * Q) (c : TGAColor) (diff spec : Q)
    (color : TGAColor) :
  buffer_sized shadowbuffer width height ->
  0 <= diff -> 0 <= spec ->
  (forall i, (0 <= i < 3)%Z -> (0 <= channel c i <= 255)%Z) ->
  exists out,
    fragment shadowbuffer width height sb_p uv c diff spec color = Some out /\
    (~ in_shadow_buffer width height sb_p ->
     shadow_term shadowbuffer width height sb_p = Some 1) /\
    (0 <= fst uv <= 1 -> 0 <= snd uv <= 1 ->
     (bgra0 c <> 0 \/ bgra1 c <> 0 \/ bgra2 c <> 0)%Z ->
     forall i, (0 <= i < 3)%Z -> (20 <= channel out i <= 255)%Z).
Proof.
  intros Hsz Hdiff Hspec Hbytes.
  destruct (shadow_term_total shadowbuffer width height sb_p Hsz)
    as (shadow & Hterm & Hval & Hout).
  assert (Hsome : exists out,
            fragment shadowbuffer width height sb_p uv c diff spec color
            = Some out).
  { unfold fragment. rewrite Hterm.
    destruct (_ || _)%bool; [ eexists; reflexivity | ].
    destruct (_ && _)%bool; eexists; reflexivity. }
  destruct Hsome as [out Hfrag]. exists out. split; [ exact Hfrag | ].
  split; [ apply shadow_term_outside | ].
  intros Hu Hv Hc i Hi.
  destruct (fragment_lit shadowbuffer width height sb_p shadow uv c diff spec
              color Hterm Hu Hv Hc) as (out' & Hfrag' & Hch).
  rewrite Hfrag in Hfrag'. injection Hfrag' as <-.
  rewrite (Hch i Hi). unfold shade_channel.
  specialize (Hbytes i Hi).
  assert (Hc0 : 0 <= inject_Z (channel c i)).
  { change 0 with (inject_Z 0). rewrite <- Zle_Qle. lia. }
  set (x := inject_Z (channel c i)) in *.
  assert (Hprod : 0 <= x * shadow * (0.8 * diff + 0.3 * spec)).
  { apply Qmult_le_0_compat; [ apply Qmult_le_0_compat | ]; lra. }
  apply float_to_int_between; [ lia | | ].
  - change (inject_Z 20) with 20. unfold fmin. destruct (Qltb _ _); lra.
  - apply fmin_le_r.
Qed.

Lemma example_buffer_sized : buffer_sized example_shadowbuffer 2 2.
Proof. unfold buffer_sized. simpl. lia. Qed.

Lemma depth_pass_keeps_least_depth_witness :
  exists b, depth_pass 2 2 depth_fragments example_shadowbuffer = Some b /\
    List.length b = 4%nat.
Proof.
  destruct (depth_pass_keeps_least_depth 2 2 depth_fragments
              example_shadowbuffer example_buffer_sized)
    as (b & Hpass & Hlen & _).
  exists b. split; [ exact Hpass | exact Hlen ].
Defined.


Lemma shadow_fragment_in_bounds_witness :
  exists out,
    fragment example_shadowbuffer 2 2 (1.2, 0.5, 120) (0.5, 0.5)
      (TGAColor_rgb 200 100 50) 0.5 0.25 (TGAColor_rgb 0 0 0) = Some out.
Proof.
  destruct (shadow_fragment_in_bounds example_shadowbuffer 2 2 (1.2, 0.5, 120)
              (0.5, 0.5) (TGAColor_rgb 200 100 50) 0.5 0.25
              (TGAColor_rgb 0 0 0) example_buffer_sized)
    as (out & Hfrag & _).
  - lra.
  - lra.
  - intros i Hi. assert (H : (i = 0 \/ i = 1 \/ i = 2)%Z) by lia.
    destruct H as [-> | [-> | ->]]; vm_compute; split; discriminate.
  - exists out. exact Hfrag.
Defined.

(** The fragments on pixel (1, 0) have the depths 80 and 70, above the
    stored 60, which stays; pixel (0, 1) goes from 100 to 90. *)
Example depth_pass_example :
  depth_pass 2 2 depth_fragments example_shadowbuffer
  = Some [100; 60; 90; 100].
Proof. reflexivity. Qed.

End ShadowFacts.

(* ====================================================================== *)
(** * The animation clock *)
(* ====================================================================== *)

Module AnimationFacts.
Import Numerics NumericsFacts Animation Examples.
#[local] Open Scope Q_scope.

Lemma float_to_int_floor (q : Q) :
  0 <= q -> inject_Z (float_to_int q) <= q /\ q < inject_Z (float_to_int q) + 1.
Proof.
  unfold float_to_int, Qle, Qlt, Qplus, inject_Z. destruct q as [a d]. simpl.
  intros H. assert (Ha : (0 <= a)%Z) by lia.
  rewrite Z.quot_div_nonneg by lia.
  pose proof (Z.div_mod a (Z.pos d) ltac:(lia)) as Hdm.
  pose proof (Z.mod_pos_bound a (Z.pos d) ltac:(lia)) as Hm.
  split; nia.
Qed.

Lemma fmod_range (x y : Q) : 0 <= x -> 0 < y -> 0 <= fmod x y < y.
Proof.
  intros Hx Hy. unfold fmod.
  assert (Hq : 0 <= x / y) by (apply Qle_shift_div_l; lra).
  destruct (float_to_int_floor (x / y) Hq) as [Hlo Hhi].
  set (k := inject_Z (float_to_int (x / y))) in *.
  assert (Hxy : x / y * y == x) by (field; lra).
  split; nra.
Qed.

Lemma update_in_range deltaTime a :
  0 < duration a -> 0 <= deltaTime -> 0 <= currentTime a <= duration a ->
  duration (update deltaTime a) = duration a /\
  loop (update deltaTime a) = loop a /\
  0 <= currentTime (update deltaTime a) <= duration a.
Proof.
  intros Hd Hdt Ht. unfold update.
  destruct (negb (playing a)); [ auto | ].
  destruct (Qle_bool _ _) eqn:E.
  - apply Qle_bool_iff in E. destruct (loop a) eqn:El; simpl.
    + split; [ reflexivity | ]. split; [ auto | ].
      destruct (fmod_range (currentTime a + deltaTime) (duration a)); lra.
    + split; [ reflexivity | ]. split; [ auto | ]. lra.
  - assert (Hlt : currentTime a + deltaTime < duration a).
    { apply Qnot_le_lt. intros H. apply Qle_bool_iff in H. congruence. }
    simpl. split; [ reflexivity | ]. split; [ reflexivity | ]. lra.
Qed.

Lemma run_clock_call_in_range a c :
  0 < duration a -> forward_call c -> 0 <= currentTime a <= duration a ->
  duration (run_clock_call a c) = duration a /\
  loop (run_clock_call a c) = loop a /\
  0 <= currentTime (run_clock_call a c) <= duration a.
Proof.
  intros Hd Hc Ht. destruct c; simpl.
  - split; [ reflexivity | ]. split; [ reflexivity | ]. lra.
  - split; [ reflexivity | ]. split; [ reflexivity | ]. exact Ht.
  - split; [ reflexivity | ]. split; [ reflexivity | ]. lra.
  - apply update_in_range; assumption.
Qed.

(** The clock stays inside the animation.  For a positive duration and
    time steps that are not negative, whatever sequence of [play],
    [pause], [stop] and [update] is called on a new animation, the current
    time stays between 0 and the duration, which does not change, and
    [getProgress] stays between 0 and 1. *)
Theorem clock_stays_in_range (dur : Q) (shouldLoop : bool)
    (calls : list clock_call) :
  0 < dur -> Forall forward_call calls ->
  let a := run_clock_calls calls (Animation_new dur shouldLoop) in
  duration a = dur /\ loop a = shouldLoop /\
  0 <= currentTime a <= dur /\ 0 <= getProgress a <= 1.
Proof.
  intros Hd Hcalls. cbv zeta.
  assert (H : forall a, 0 < duration a -> 0 <= currentTime a <= duration a ->
            duration (run_clock_calls calls a) = duration a /\
            loop (run_clock_calls calls a) = loop a /\
            0 <= currentTime (run_clock_calls calls a) <= duration a).
  { induction Hcalls as [ | c calls Hc Hcalls IH ]; intros a Ha Ht.
    - simpl. auto.
    - unfold run_clock_calls in *. simpl.
      destruct (run_clock_call_in_range a c Ha Hc Ht) as (Hd1 & Hl1 & Ht1).
      destruct (IH (run_clock_call a c)) as (Hd2 & Hl2 & Ht2).
      + rewrite Hd1. exact Ha.
      + rewrite Hd1. exact Ht1.
      + rewrite Hd2, Hl2, Hd1, Hl1. rewrite Hd1 in Ht2. auto. }
  destruct (H (Animation_new dur shouldLoop)) as (Hd' & Hl' & Ht').
  - exact Hd.
  - simpl. lra.
  - simpl in Hd', Hl', Ht'. split; [ exact Hd' | ]. split; [ exact Hl' | ].
    split; [ exact Ht' | ]. unfold getProgress. rewrite Hd'. split.
    + apply Qle_shift_div_l; lra.
    + apply Qle_shift_div_r; lra.
Qed.

(** One [update] of a playing clock.  Below the duration the time just
    advances; at or past it a looping clock wraps to what is left after
    the whole periods, strictly below the duration, and keeps playing,
    while a one-shot clock stops exactly at the duration. *)
Theorem update_wraps_or_stops (deltaTime : Q) (a : Animation) :
  0 < duration a -> 0 <= currentTime a -> 0 <= deltaTime ->
  playing a = true ->
  let a' := update deltaTime a in
  (currentTime a + deltaTime < duration a ->
   currentTime a' = currentTime a + deltaTime /\ playing a' = true) /\
  (duration a <= currentTime a + deltaTime -> loop a = true ->
   playing a' = true /\ 0 <= currentTime a' < duration a /\
   exists k : Z, (1 <= k)%Z /\
     currentTime a' == currentTime a + deltaTime - inject_Z k * duration a) /\
  (duration a <= currentTime a + deltaTime -> loop a = false ->
   playing a' = false /\ currentTime a' = duration a).
Proof.
  intros Hd Ht Hdt Hp. cbv zeta. unfold update. rewrite Hp. simpl negb.
  cbv iota. split; [ | split ].
  - intros Hlt. assert (E : Qle_bool (duration a) (currentTime a + deltaTime) = false).
    { destruct (Qle_bool _ _) eqn:E; [ | reflexivity ].
      apply Qle_bool_iff in E. lra. }
    rewrite E. simpl. auto.
  - intros Hle Hl. apply Qle_bool_iff in Hle. rewrite Hle, Hl. simpl.
    apply Qle_bool_iff in Hle.
    split; [ reflexivity | ].
    destruct (fmod_range (currentTime a + deltaTime) (duration a)) as [H0 H1];
      [ lra | exact Hd | ].
    split; [ split; assumption | ].
    exists (float_to_int ((currentTime a + deltaTime) / duration a)).
    split; [ | unfold fmod; reflexivity ].
    unfold fmod in H1.
    set (k := float_to_int ((currentTime a + deltaTime) / duration a)) in *.
    destruct (Z_lt_le_dec k 1) as [Hk | Hk]; [ exfalso | exact Hk ].
    assert (Hk' : inject_Z k <= 0).
    { change 0 with (inject_Z 0). rewrite <- Zle_Qle. lia. }
    nra.
  - intros Hle Hl. apply Qle_bool_iff in Hle. rewrite Hle, Hl. simpl. auto.
Qed.

Lemma clock_stays_in_range_witness :
  0 <= getProgress (run_clock_calls clock_session (Animation_new 2 true)) <= 1.
Proof.
  apply (clock_stays_in_range 2 true clock_session).
  - lra.
  - unfold clock_session. repeat constructor; simpl; lra.
Defined.

Lemma update_wraps_or_stops_witness :
  currentTime (update 0.25 (play (Animation_new 2 true))) = 0 + 0.25.
Proof.
  apply (update_wraps_or_stops 0.25 (play (Animation_new 2 true))); simpl;
    try lra; reflexivity.
Defined.

(** After 0.75 s and 0.75 s the clock is paused at 1.5 s; played again and
    driven for 4.75 s it has wrapped twice and stands at 0.75 s. *)
Example clock_session_time :
  currentTime (run_clock_calls clock_session (Animation_new 2 true)) == 0.75.
Proof. vm_compute. reflexivity. Qed.

End AnimationFacts.
